(** * Large Model Support (lms/lms.py): a shallow embedding of the
    swap-scheduling engine and the properties of its specification.

    The Python class [LMS] is embedded as a record of its fields together
    with one Rocq function per method, in a small state-and-error monad:
    a method reads and updates the fields of [self] and may raise.  The
    TensorFlow graph the methods edit in place is a field of that record;
    operations are identified by their position in the graph, tensors by
    the producing operation and an output index.  Python sets are lists
    without duplicates (one iteration order among the possible ones). *)

From Stdlib Require Import ZArith List String Ascii Bool Lia Arith.
From Stdlib Require Import ListSet Permutation Sorted DecimalString DecimalNat.
Import ListNotations.
Open Scope string_scope.
Open Scope list_scope.
Open Scope Z_scope.

(** ** Python values and exceptions *)

Inductive error : Type :=
| IndexError      (* list index out of range *)
| TypeError       (* arithmetic or comparison on None *)
| ValueError      (* raised by LMS itself and by graph_editor *)
| AttributeError  (* an attribute an object does not have *)
| OutOfFuel       (* the model's bound on a while loop was too small *)
| OutOfModel.     (* an argument of a library call the model does not cover *)

Inductive result (A : Type) : Type :=
| Ok (a : A)
| Raise (e : error).
Arguments Ok {A} a.
Arguments Raise {A} e.

Definition rbind {A B} (r : result A) (k : A -> result B) : result B :=
  match r with
  | Ok a => k a
  | Raise e => Raise e
  end.

(** [a - b] and [a + b] on values that may be [None]: Python raises
    TypeError when an operand is None. *)
Definition py_sub (a b : option Z) : result Z :=
  match a, b with
  | Some x, Some y => Ok (x - y)
  | _, _ => Raise TypeError
  end.

Definition py_add (a b : option Z) : result Z :=
  match a, b with
  | Some x, Some y => Ok (x + y)
  | _, _ => Raise TypeError
  end.

(** [xs[0]] *)
Definition py_head {A} (xs : list A) : result A :=
  match xs with
  | x :: _ => Ok x
  | [] => Raise IndexError
  end.

(** [range(lo, hi)] *)
Definition py_range (lo hi : Z) : list Z :=
  map (fun k => lo + Z.of_nat k) (seq 0 (Z.to_nat (hi - lo))).

(** [sorted(xs, key=key)] is [sorted_by key (rev xs)]: a stable sort, as
    Python's is (an element is inserted behind the equal keys already
    placed, and the list is taken from its end). *)
Fixpoint insert_by {A} (key : A -> Z) (a : A) (xs : list A) : list A :=
  match xs with
  | [] => [a]
  | b :: r => if key b <=? key a then b :: insert_by key a r else a :: b :: r
  end.

Fixpoint sorted_by {A} (key : A -> Z) (xs : list A) : list A :=
  match xs with
  | [] => []
  | a :: r => insert_by key a (sorted_by key r)
  end.

(** [s.replace(c, d)] for one-character strings. *)
Fixpoint replace_char (c d : ascii) (s : string) : string :=
  match s with
  | EmptyString => EmptyString
  | String a r => String (if Ascii.eqb a c then d else a) (replace_char c d r)
  end.

(** [sub in s] *)
Definition py_contains (sub s : string) : bool :=
  match index 0 sub s with
  | Some _ => true
  | None => false
  end.

Definition str_of_nat (n : nat) : string := NilEmpty.string_of_uint (Nat.to_uint n).

(** ** The dataflow graph (tf.Graph, tf.Operation, tf.Tensor) *)

Definition op : Type := nat.
Definition Tensor : Type := (op * nat)%type.

Record Operation : Type := mkOperation {
  op_name : string;
  op_type : string;
  op_inputs : list Tensor;
  op_out_ndims : list (option Z);     (* ts.shape.ndims of each output *)
  op_control_inputs : list op;
  op_device_scope : string  (* the argument of the ops.device(...) it was created under *)
}.

Definition Graph : Type := list Operation.

Definition tensor_eqb (a b : Tensor) : bool :=
  Nat.eqb (fst a) (fst b) && Nat.eqb (snd a) (snd b).
Definition mem_op (a : op) (s : list op) : bool := set_mem Nat.eq_dec a s.
Definition mem_tensor (t : Tensor) (s : list Tensor) : bool := existsb (tensor_eqb t) s.
Definition mem_str (a : string) (s : list string) : bool := existsb (String.eqb a) s.

(** [set(xs)]: the elements of [xs], each once. *)
Definition py_set (xs : list op) : list op := nodup Nat.eq_dec xs.

Definition inputs (g : Graph) (o : op) : list Tensor :=
  match nth_error g o with
  | Some n => op_inputs n
  | None => []
  end.

Definition control_inputs (g : Graph) (o : op) : list op :=
  match nth_error g o with
  | Some n => op_control_inputs n
  | None => []
  end.

Definition outputs (g : Graph) (o : op) : list Tensor :=
  match nth_error g o with
  | Some n => map (fun i => (o, i)) (seq 0 (List.length (op_out_ndims n)))
  | None => []
  end.

Definition name (g : Graph) (o : op) : string :=
  match nth_error g o with
  | Some n => op_name n
  | None => ""
  end.

Definition type (g : Graph) (o : op) : string :=
  match nth_error g o with
  | Some n => op_type n
  | None => ""
  end.

(** [ts.shape.ndims] *)
Definition ndims (g : Graph) (t : Tensor) : option Z :=
  match nth_error g (fst t) with
  | Some n => nth (snd t) (op_out_ndims n) None
  | None => None
  end.

(** [ts.name] *)
Definition tensor_name (g : Graph) (t : Tensor) : string :=
  (name g (fst t) ++ ":" ++ str_of_nat (snd t))%string.

(** [ts.consumers()] *)
Definition consumers (g : Graph) (t : Tensor) : list op :=
  filter (fun c => mem_tensor t (inputs g c)) (seq 0 (List.length g)).

Definition update_op (g : Graph) (o : op) (f : Operation -> Operation) : Graph :=
  map (fun p => if Nat.eqb (fst p) o then f (snd p) else snd p)
      (combine (seq 0 (List.length g)) g).

(** ** The graph_editor collaborator (tensorflow.contrib.graph_editor) *)

(** [ge.make_list_of_op(graph)] *)
Definition ge_make_list_of_op (g : Graph) : list op := seq 0 (List.length g).

(** [ge.get_consuming_ops(ts)]: the consumers of the tensors, each once. *)
Definition ge_get_consuming_ops (g : Graph) (ts : list Tensor) : list op :=
  py_set (flat_map (consumers g) ts).

(** [ge.get_generating_ops(ts)] *)
Definition ge_get_generating_ops (ts : list Tensor) : list op := map fst ts.

(** [ge.add_control_inputs(op, cops)]: raises ValueError when one of
    [cops] is already a control input of [op]. *)
Definition ge_add_control_inputs (g : Graph) (o : op) (cops : list op) : result Graph :=
  if existsb (fun c => mem_op c (control_inputs g o)) cops
  then Raise ValueError
  else Ok (update_op g o (fun n =>
         mkOperation (op_name n) (op_type n) (op_inputs n) (op_out_ndims n)
                     (op_control_inputs n ++ cops) (op_device_scope n))).

(** [ge.get_forward_walk_ops(op)]: the operations reachable from [op]
    along data edges, [op] included, found wave by wave. *)
Fixpoint forward_walk (g : Graph) (fuel : nat) (result wave : list op) : list op :=
  match fuel with
  | O => result
  | S fuel' =>
      let new_wave :=
        filter (fun o => negb (mem_op o result))
               (py_set (flat_map (fun o => flat_map (consumers g) (outputs g o)) wave)) in
      match new_wave with
      | [] => result
      | _ => forward_walk g fuel' (result ++ new_wave) new_wave
      end
  end.

Definition ge_get_forward_walk_ops (g : Graph) (o : op) : list op :=
  forward_walk g (List.length g) [o] [o].

(** [ge.get_name_scope_ops(ops, scope)]: a trailing "/" of the scope is
    dropped, and the operations are kept whose name a regular expression
    finds: the scope anchored at the start of the name, then either
    the end of the name, or a "/" and any characters up to the end.  The
    scope goes into the expression as it is.  The model covers the
    scopes without a character that a regular expression gives a meaning
    to; on any other scope it stops with OutOfModel. *)
Definition strip_slash (scope : string) : string :=
  let n := String.length scope in
  match get (n - 1)%nat scope with
  | Some "/"%char => substring 0 (n - 1)%nat scope
  | _ => scope
  end.

Definition regex_meta (c : ascii) : bool :=
  existsb (Ascii.eqb c) (list_ascii_of_string ".^$*+?{}[]\|()").

Definition regex_plain (s : string) : bool :=
  forallb (fun c => negb (regex_meta c)) (list_ascii_of_string s).

Definition newline : ascii := "010"%char.

Definition no_newline (s : string) : bool :=
  forallb (fun c => negb (Ascii.eqb c newline)) (list_ascii_of_string s).

(** [$] also matches just before a newline that ends the string. *)
Definition chomp (s : string) : string :=
  let n := String.length s in
  match get (n - 1)%nat s with
  | Some c => if Ascii.eqb c newline then substring 0 (n - 1)%nat s else s
  | None => s
  end.

(** [re.search] of that expression in [nm], for [s] without a special
    character: "any character" matches every character but a newline,
    and the end is the end of [nm] or the newline that ends it. *)
Definition scope_regex_match (s nm : string) : bool :=
  String.eqb nm s
  || (prefix (s ++ "/")%string nm
      && no_newline (substring (String.length s + 1)
                               (String.length nm - (String.length s + 1)) nm)).

Definition scope_regex_search (s nm : string) : bool :=
  scope_regex_match s nm || scope_regex_match s (chomp nm).

Definition ge_get_name_scope_ops (g : Graph) (ops : list op) (scope : string)
  : result (list op) :=
  let s := strip_slash scope in
  if regex_plain s
  then Ok (filter (fun o => scope_regex_search s (name g o)) ops)
  else Raise OutOfModel.

(** [str.lower()], on the letters A to Z. *)
Definition lower_char (c : ascii) : ascii :=
  let n := nat_of_ascii c in
  if Nat.leb 65 n && Nat.leb n 90 then ascii_of_nat (n + 32) else c.

Fixpoint lower (s : string) : string :=
  match s with
  | EmptyString => EmptyString
  | String c r => String (lower_char c) (lower r)
  end.

(** [Graph.unique_name(nm)]: a name is in use without regard to case;
    a name in use gets the first suffix [_1], [_2], ... that makes it
    free.  The names in use are taken to be the names of the operations
    of the graph, and the call to be made outside every name scope. *)
Definition name_in_use (g : Graph) (nm : string) : bool :=
  existsb (fun n => String.eqb (lower (op_name n)) (lower nm)) g.

Fixpoint first_free (g : Graph) (nm : string) (fuel i : nat) : string :=
  let cand := (nm ++ "_" ++ str_of_nat i)%string in
  match fuel with
  | O => cand
  | S fuel' => if name_in_use g cand then first_free g nm fuel' (S i) else cand
  end.

Definition unique_name (g : Graph) (nm : string) : string :=
  if name_in_use g nm then first_free g nm (List.length g) 1 else nm.

(** [array_ops.identity(ts, name=nm)] under [ops.device(dev)]: a new
    operation, appended to the graph, that reads [ts] and has one output
    of the same shape.  Its name is [nm] made unique in the graph. *)
Definition array_ops_identity (g : Graph) (ts : Tensor) (nm dev : string) : Graph * op :=
  (g ++ [mkOperation (unique_name g nm) "Identity" [ts] [ndims g ts] [] dev],
   List.length g).

(** [ge.connect(sgv0, sgv1)] where sgv1 has the single input [old] and
    sgv0 the single output [new]: every input slot of [dest] that reads
    [old] reads [new] afterwards. *)
Definition reroute_input (g : Graph) (dest : op) (old new : Tensor) : Graph :=
  update_op g dest (fun n =>
    mkOperation (op_name n) (op_type n)
                (map (fun t => if tensor_eqb t old then new else t) (op_inputs n))
                (op_out_ndims n) (op_control_inputs n) (op_device_scope n)).

(** [ge.sgv(op)]: the subgraph view of one operation.  Its inputs are the
    distinct tensors the operation reads, its outputs the tensors it
    produces. *)
Fixpoint dedup_tensors (ts : list Tensor) : list Tensor :=
  match ts with
  | [] => []
  | t :: r => t :: filter (fun u => negb (tensor_eqb u t)) (dedup_tensors r)
  end.

Definition sgv_inputs (g : Graph) (o : op) : list Tensor := dedup_tensors (inputs g o).
Definition sgv_outputs (g : Graph) (o : op) : list Tensor := outputs g o.

(** [sgv.input_index(t)] and [sgv.output_index(t)].  When [t] is not
    among the view's tensors the call ends in AttributeError: the
    message of the ValueError it means to raise reads [self.name], which
    a SubGraphView does not have. *)
Fixpoint index_of (t : Tensor) (ts : list Tensor) : result nat :=
  match ts with
  | [] => Raise AttributeError
  | u :: r => if tensor_eqb u t then Ok O else rbind (index_of t r) (fun i => Ok (S i))
  end.

(** [sgv.remap_inputs([idx])] and [sgv.remap_outputs([idx])] *)
Definition remap (idx : nat) (ts : list Tensor) : result (list Tensor) :=
  match nth_error ts idx with
  | Some t => Ok [t]
  | None => Raise ValueError
  end.

(** [ge.connect(sgv0, sgv1)]: the inputs of [sgv1] are rerouted, one by
    one, to the outputs of [sgv0]; the two lists must have one length. *)
Definition ge_connect (g : Graph) (outs : list Tensor) (dest : op) (ins : list Tensor)
  : result Graph :=
  if Nat.eqb (List.length outs) (List.length ins)
  then Ok (fold_left (fun g' p => reroute_input g' dest (fst p) (snd p)) (combine ins outs) g)
  else Raise ValueError.

(** ** The topological order index (lms/topos.py) *)

(** The object [LMS] holds in [_topo_sort]: its three queries. *)
Record TOPOS : Type := mkTOPOS {
  get_order : op -> option Z;
  get_ops : Z -> list op;
  size : Z
}.

Definition predecessors (g : Graph) (o : op) : list op :=
  py_set (map fst (inputs g o) ++ control_inputs g o).

Definition rank_in (ranked : list (op * Z)) (o : op) : option Z :=
  option_map snd (find (fun p => Nat.eqb (fst p) o) ranked).

Fixpoint topo_layers (g : Graph) (fuel : nat) (k : Z) (ranked : list (op * Z))
         (todo : list op) : list (op * Z) :=
  match fuel with
  | O => ranked
  | S fuel' =>
      let ready := filter (fun o => forallb (fun p => match rank_in ranked p with
                                                      | Some _ => true
                                                      | None => false
                                                      end) (predecessors g o)) todo in
      match ready with
      | [] => ranked
      | _ => topo_layers g fuel' (k + 1) (ranked ++ map (fun o => (o, k)) ready)
                         (filter (fun o => negb (mem_op o ready)) todo)
      end
  end.

(** Modelled from the spec: [topos.TOPOS(all_ops)] followed by [build()],
    whose source file lms/topos.py is not part of the sources at hand.
    Ranks start at 0, every edge goes from a lower to a higher rank, an
    operation the build does not reach has no rank, and [get_ops] is the
    reverse index. *)
Definition TOPOS_build (g : Graph) (all_ops : list op) : TOPOS :=
  let ranked := topo_layers g (List.length all_ops) 0 [] all_ops in
  mkTOPOS (rank_in ranked)
          (fun i => map fst (filter (fun p => snd p =? i) ranked))
          (fold_right (fun p m => Z.max (snd p + 1) m) 0 ranked).

(** ** The LMS object *)

(** What [_log_info] is given: the message and the values formatted
    into it. *)
Inductive message : Type :=
| Info (text : string)
| InfoN (text : string) (n : Z)
| InfoLevel (i : Z) (ops : list (string * string))
| InfoOperation (o : op) (order : option Z)
| InfoSwapOut (ts : string) (device : string)
| InfoSwapIn (ts : string) (dest : string) (order : option Z)
| InfoControlDependency (ctrld : string) (ctrld_order : Z) (dest : string) (order : option Z)
| InfoNoControlDependency (src : string)
| InfoAdded (swapouts swapins : nat).

Record LMS : Type := mkLMS {
  _graph : option Graph;
  _excl_scopes : list string;
  _incl_scopes : list string;
  _excl_types : list string;
  _incl_types : list string;
  _swapout_threshold : Z;
  _swapin_groupby : Z;
  _swapin_ahead : Z;
  _sync_mode : Z;
  _excl_ops : list op;
  _incl_ops : list op;
  _topo_sort : option TOPOS;
  _cpu_device : string;
  _debug : bool;
  _debug_level : Z;
  _swapout_ops : list op;
  _swapin_ops : list op;
  _ops_dict : list (op * list op);
  _ops_triples : list (op * op * op);
  tf_logging : list (Z * message)
}.

Definition set_graph (g : Graph) (s : LMS) : LMS :=
  mkLMS (Some g) (_excl_scopes s) (_incl_scopes s) (_excl_types s) (_incl_types s)
        (_swapout_threshold s) (_swapin_groupby s) (_swapin_ahead s) (_sync_mode s)
        (_excl_ops s) (_incl_ops s) (_topo_sort s) (_cpu_device s) (_debug s)
        (_debug_level s) (_swapout_ops s) (_swapin_ops s) (_ops_dict s) (_ops_triples s)
        (tf_logging s).

Definition set_swapout_threshold (z : Z) (s : LMS) : LMS :=
  mkLMS (_graph s) (_excl_scopes s) (_incl_scopes s) (_excl_types s) (_incl_types s)
        z (_swapin_groupby s) (_swapin_ahead s) (_sync_mode s)
        (_excl_ops s) (_incl_ops s) (_topo_sort s) (_cpu_device s) (_debug s)
        (_debug_level s) (_swapout_ops s) (_swapin_ops s) (_ops_dict s) (_ops_triples s)
        (tf_logging s).

Definition set_excl_ops (v : list op) (s : LMS) : LMS :=
  mkLMS (_graph s) (_excl_scopes s) (_incl_scopes s) (_excl_types s) (_incl_types s)
        (_swapout_threshold s) (_swapin_groupby s) (_swapin_ahead s) (_sync_mode s)
        v (_incl_ops s) (_topo_sort s) (_cpu_device s) (_debug s)
        (_debug_level s) (_swapout_ops s) (_swapin_ops s) (_ops_dict s) (_ops_triples s)
        (tf_logging s).

Definition set_incl_ops (v : list op) (s : LMS) : LMS :=
  mkLMS (_graph s) (_excl_scopes s) (_incl_scopes s) (_excl_types s) (_incl_types s)
        (_swapout_threshold s) (_swapin_groupby s) (_swapin_ahead s) (_sync_mode s)
        (_excl_ops s) v (_topo_sort s) (_cpu_device s) (_debug s)
        (_debug_level s) (_swapout_ops s) (_swapin_ops s) (_ops_dict s) (_ops_triples s)
        (tf_logging s).

Definition set_topo_sort (v : TOPOS) (s : LMS) : LMS :=
  mkLMS (_graph s) (_excl_scopes s) (_incl_scopes s) (_excl_types s) (_incl_types s)
        (_swapout_threshold s) (_swapin_groupby s) (_swapin_ahead s) (_sync_mode s)
        (_excl_ops s) (_incl_ops s) (Some v) (_cpu_device s) (_debug s)
        (_debug_level s) (_swapout_ops s) (_swapin_ops s) (_ops_dict s) (_ops_triples s)
        (tf_logging s).

Definition set_swapout_ops (v : list op) (s : LMS) : LMS :=
  mkLMS (_graph s) (_excl_scopes s) (_incl_scopes s) (_excl_types s) (_incl_types s)
        (_swapout_threshold s) (_swapin_groupby s) (_swapin_ahead s) (_sync_mode s)
        (_excl_ops s) (_incl_ops s) (_topo_sort s) (_cpu_device s) (_debug s)
        (_debug_level s) v (_swapin_ops s) (_ops_dict s) (_ops_triples s)
        (tf_logging s).

Definition set_swapin_ops (v : list op) (s : LMS) : LMS :=
  mkLMS (_graph s) (_excl_scopes s) (_incl_scopes s) (_excl_types s) (_incl_types s)
        (_swapout_threshold s) (_swapin_groupby s) (_swapin_ahead s) (_sync_mode s)
        (_excl_ops s) (_incl_ops s) (_topo_sort s) (_cpu_device s) (_debug s)
        (_debug_level s) (_swapout_ops s) v (_ops_dict s) (_ops_triples s)
        (tf_logging s).

Definition set_ops_dict (v : list (op * list op)) (s : LMS) : LMS :=
  mkLMS (_graph s) (_excl_scopes s) (_incl_scopes s) (_excl_types s) (_incl_types s)
        (_swapout_threshold s) (_swapin_groupby s) (_swapin_ahead s) (_sync_mode s)
        (_excl_ops s) (_incl_ops s) (_topo_sort s) (_cpu_device s) (_debug s)
        (_debug_level s) (_swapout_ops s) (_swapin_ops s) v (_ops_triples s)
        (tf_logging s).

Definition set_ops_triples (v : list (op * op * op)) (s : LMS) : LMS :=
  mkLMS (_graph s) (_excl_scopes s) (_incl_scopes s) (_excl_types s) (_incl_types s)
        (_swapout_threshold s) (_swapin_groupby s) (_swapin_ahead s) (_sync_mode s)
        (_excl_ops s) (_incl_ops s) (_topo_sort s) (_cpu_device s) (_debug s)
        (_debug_level s) (_swapout_ops s) (_swapin_ops s) (_ops_dict s) v
        (tf_logging s).

Definition set_logging (v : list (Z * message)) (s : LMS) : LMS :=
  mkLMS (_graph s) (_excl_scopes s) (_incl_scopes s) (_excl_types s) (_incl_types s)
        (_swapout_threshold s) (_swapin_groupby s) (_swapin_ahead s) (_sync_mode s)
        (_excl_ops s) (_incl_ops s) (_topo_sort s) (_cpu_device s) (_debug s)
        (_debug_level s) (_swapout_ops s) (_swapin_ops s) (_ops_dict s) (_ops_triples s)
        v.

(** The graph the ops of [self] live in. *)
Definition graph_of (self : LMS) : Graph :=
  match _graph self with
  | Some g => g
  | None => []
  end.

(** ** Methods run on [self] and may raise *)

Definition M (A : Type) : Type := LMS -> result (A * LMS).

Definition ret {A} (a : A) : M A := fun self => Ok (a, self).

Definition bind {A B} (m : M A) (k : A -> M B) : M B :=
  fun self =>
    match m self with
    | Ok (a, self') => k a self'
    | Raise e => Raise e
    end.

Definition raise {A} (e : error) : M A := fun _ => Raise e.

Definition lift {A} (r : result A) : M A :=
  fun self =>
    match r with
    | Ok a => Ok (a, self)
    | Raise e => Raise e
    end.

Definition gets {A} (f : LMS -> A) : M A := fun self => Ok (f self, self).
Definition modify (f : LMS -> LMS) : M unit := fun self => Ok (tt, f self).

Notation "x <- m ;; k" := (bind m (fun x => k))
  (at level 61, m at next level, right associativity).
Notation "m ;;; k" := (bind m (fun _ => k))
  (at level 61, right associativity).

Fixpoint for_each {A} (xs : list A) (body : A -> M unit) : M unit :=
  match xs with
  | [] => ret tt
  | x :: r => body x ;;; for_each r body
  end.

Fixpoint map_m {A B} (f : A -> M B) (xs : list A) : M (list B) :=
  match xs with
  | [] => ret []
  | x :: r => y <- f x ;; ys <- map_m f r ;; ret (y :: ys)
  end.

(** Set operations on Python sets of operations. *)
Definition op_add (a : op) (s : list op) : list op :=
  if mem_op a s then s else s ++ [a].
Definition op_union (s t : list op) : list op := fold_left (fun acc a => op_add a acc) t s.
Definition op_inter (s t : list op) : list op := filter (fun a => mem_op a t) s.
Definition op_diff (s t : list op) : list op := filter (fun a => negb (mem_op a t)) s.

Definition str_union (s t : list string) : list string :=
  fold_left (fun acc a => if mem_str a acc then acc else acc ++ [a]) t s.

Fixpoint filter_m {A} (f : A -> M bool) (xs : list A) : M (list A) :=
  match xs with
  | [] => ret []
  | x :: r => b <- f x ;; ys <- filter_m f r ;; ret (if b then x :: ys else ys)
  end.

(** Comparisons of ranks that may be None (Python 3). *)
Definition py_le (a b : option Z) : result bool :=
  match a, b with
  | Some x, Some y => Ok (x <=? y)
  | _, _ => Raise TypeError
  end.

Definition py_eq (a b : option Z) : bool :=
  match a, b with
  | Some x, Some y => x =? y
  | None, None => true
  | _, _ => false
  end.

Fixpoint all_some {A} (xs : list (option A)) : option (list A) :=
  match xs with
  | [] => Some []
  | Some a :: r => option_map (cons a) (all_some r)
  | None :: _ => None
  end.

(** [sorted(xs, key=key)] where a key may be None: with two elements or
    more every element is compared, and comparing None raises. *)
Definition py_sorted_key {A} (key : A -> option Z) (xs : list A) : result (list A) :=
  match xs with
  | [] | [_] => Ok xs
  | _ => match all_some (map key xs) with
         | Some _ => Ok (sorted_by (fun a => match key a with
                                             | Some z => z
                                             | None => 0
                                             end) (rev xs))
         | None => Raise TypeError
         end
  end.

(** ** The methods of class LMS *)

(** [self._unused_types].  The source has no comma between
    'AssignSubVariableOp' and 'ResourceGather': Python joins adjacent
    string literals into one. *)
Definition _unused_types : list string :=
  [ "Const"; "Identity";
    "Placeholder"; "PlaceholderWithDefault";
    "VariableV2"; "Read"; "Assign"; "VarHandleOp";
    "VarIsInitializedOp"; "VariableShape";
    "ReadVariableOp"; "AssignVariableOp";
    "AssignAddVariableOp"; ("AssignSubVariableOp" ++ "ResourceGather")%string;
    "ResourceScatterAdd";
    "ResourceScatterSub"; "ResourceScatterMul";
    "ResourceScatterDiv"; "ResourceScatterMin";
    "ResourceScatterMax"; "ResourceScatterUpdate";
    "ResourceScatterNdUpdate"; "ResourceScatterNdAdd";
    "Fill"; "Range"; "RandomUniform" ].

Definition __init__ (graph : option Graph)
           (excl_scopes incl_scopes excl_types incl_types : list string)
           (swapout_threshold swapin_groupby swapin_ahead sync_mode : Z)
           (debug : bool) (debug_level : Z) (cpu_device : string) : result LMS :=
  if negb (existsb (Z.eqb sync_mode) [0; 1; 2; 3])
  then Raise ValueError
  else Ok (mkLMS graph excl_scopes incl_scopes
                 (str_union excl_types _unused_types) incl_types
                 swapout_threshold swapin_groupby swapin_ahead sync_mode
                 [] [] None cpu_device debug debug_level [] [] [] [] []).

Definition _log_info (msg : message) (level : Z) : M unit :=
  fun self =>
    if (level =? 0) || (_debug self && (level <=? _debug_level self))
    then Ok (tt, set_logging (tf_logging self ++ [(level, msg)]) self)
    else Ok (tt, self).

Definition _get_order (o : op) : M (option Z) :=
  fun self =>
    match _topo_sort self with
    | Some t => Ok (get_order t o, self)
    | None => Raise AttributeError
    end.

Definition _get_ops_by_order (order : Z) : M (list op) :=
  fun self =>
    match _topo_sort self with
    | Some t => Ok (get_ops t order, self)
    | None => Raise AttributeError
    end.

Definition _fanins (o : op) : M (list op) :=
  gets (fun self => ge_get_generating_ops (inputs (graph_of self) o)).

Definition _fanouts (o : op) : M (list op) :=
  gets (fun self => ge_get_consuming_ops (graph_of self) (outputs (graph_of self) o)).

Definition _add_control_inputs (op1 op2 : op) : M bool :=
  g <- gets graph_of ;;
  if mem_op op2 (control_inputs g op1) then ret false
  else if mem_op op1 (control_inputs g op2) then ret false
  else
    fo <- _fanouts op1 ;;
    if mem_op op2 fo then ret false
    else
      g' <- lift (ge_add_control_inputs g op1 [op2]) ;;
      modify (set_graph g') ;;;
      ret true.

(** No caller passes [disconnect_first]; it keeps its default False. *)
Definition _connect_ops (src_op dest_op : op) (remap_inputs remap_outputs : bool)
           (idx : option nat) : M unit :=
  g <- gets graph_of ;;
  let remap_idx ts := match idx with
                      | Some i => remap i ts
                      | None => Raise TypeError
                      end in
  src_sgv <- lift (if remap_outputs then remap_idx (sgv_outputs g src_op)
                   else Ok (sgv_outputs g src_op)) ;;
  dest_sgv <- lift (if remap_inputs then remap_idx (sgv_inputs g dest_op)
                    else Ok (sgv_inputs g dest_op)) ;;
  g' <- lift (ge_connect g src_sgv dest_op dest_sgv) ;;
  modify (set_graph g').

Definition lms_name (prefix ts_name : string) : string :=
  (prefix ++ replace_char ":" "_" (replace_char "/" "_" ts_name))%string.

Definition _add_swapout (src_op : op) (ts0 : Tensor) : M op :=
  g <- gets graph_of ;;
  dev <- gets _cpu_device ;;
  let swap_out := array_ops_identity g ts0 (lms_name "lms/swapout_" (tensor_name g ts0)) dev in
  modify (set_graph (fst swap_out)) ;;;
  g1 <- gets graph_of ;;
  src_out_idx <- lift (index_of ts0 (sgv_outputs g1 src_op)) ;;
  _connect_ops src_op (snd swap_out) false true (Some src_out_idx) ;;;
  _log_info (InfoSwapOut (tensor_name g1 ts0) dev) 1 ;;;
  ret (snd swap_out).

Definition _add_swapin (swapout_op : op) (dest_ops : list op) (ts0 : Tensor) : M op :=
  g <- gets graph_of ;;
  dev <- gets _cpu_device ;;
  let swap_in := array_ops_identity g ts0 (lms_name "lms/swapin_" (tensor_name g ts0)) dev in
  modify (set_graph (fst swap_in)) ;;;
  _connect_ops swapout_op (snd swap_in) false false None ;;;
  for_each dest_ops (fun dest_op =>
    g1 <- gets graph_of ;;
    input_idx <- lift (index_of ts0 (sgv_inputs g1 dest_op)) ;;
    _connect_ops (snd swap_in) dest_op true false (Some input_idx) ;;;
    g2 <- gets graph_of ;;
    order <- _get_order dest_op ;;
    _log_info (InfoSwapIn (tensor_name g2 ts0) (name g2 dest_op) order) 1) ;;;
  ret (snd swap_in).

(** One round of the merging loop of [_groupby]:
    [last = ys[-1]; curr = xs[i]]. *)
Definition _groupby_merge (limit : Z) (ys : list (option Z * option Z))
           (curr : option Z * option Z) : result (list (option Z * option Z)) :=
  match rev ys with
  | [] => Raise IndexError
  | last :: _ =>
      rbind (py_sub (fst curr) (snd last)) (fun d =>
        if d <=? limit
        then Ok (removelast ys ++ [(fst last, snd curr)])
        else Ok (ys ++ [curr]))
  end.

Fixpoint _groupby_ys (limit : Z) (ys : list (option Z * option Z))
         (xs : list (option Z * option Z)) : result (list (option Z * option Z)) :=
  match xs with
  | [] => Ok ys
  | curr :: r => rbind (_groupby_merge limit ys curr) (fun ys' => _groupby_ys limit ys' r)
  end.

(** [{op[0] for op in ops_ords if (op[1] >= y[0] and op[1] <= y[1])}] *)
Fixpoint _groupby_gs (ops_ords : list (op * option Z)) (y : option Z * option Z)
  : result (list op) :=
  match ops_ords with
  | [] => Ok []
  | o :: r =>
      rbind (py_le (fst y) (snd o)) (fun ge_lo =>
      rbind (if ge_lo then py_le (snd o) (snd y) else Ok false) (fun keep =>
      rbind (_groupby_gs r y) (fun gs =>
      Ok (if keep then fst o :: gs else gs))))
  end.

Fixpoint _groupby_zs (ops_ords : list (op * option Z)) (ys : list (option Z * option Z))
  : result (list (list op)) :=
  match ys with
  | [] => Ok []
  | y :: r =>
      rbind (_groupby_gs ops_ords y) (fun gs =>
      rbind (_groupby_zs ops_ords r) (fun zs =>
      Ok (py_set gs :: zs)))
  end.

Definition _groupby (ops : list op) (limit : Z) : M (list (list op)) :=
  ops_ords <- map_m (fun o => order <- _get_order o ;; ret (o, order)) ops ;;
  x <- lift (py_sorted_key (fun i => i) (map snd ops_ords)) ;;
  let xs := map (fun i => (i, i)) x in
  xs0 <- lift (py_head xs) ;;
  ys <- lift (_groupby_ys limit [xs0] (tl xs)) ;;
  lift (_groupby_zs ops_ords ys).

(** [dest_sin.add((dest_op, swapin_op))] *)
Definition pair_add (p : op * op) (s : list (op * op)) : list (op * op) :=
  if existsb (fun q => Nat.eqb (fst q) (fst p) && Nat.eqb (snd q) (snd p)) s
  then s else s ++ [p].

Definition _insert_swap_nodes_for_ts (src_op : op) (ts : Tensor) (targets : list (list op))
  : M (op * list (op * op)) :=
  swapout_op <- _add_swapout src_op ts ;;
  _add_control_inputs swapout_op src_op ;;;
  dest_sin <-
    fold_left (fun (acc : M (list (op * op))) dest_ops =>
      dest_sin <- acc ;;
      swapin_op <- _add_swapin swapout_op dest_ops ts ;;
      ops_ords <- map_m (fun o => order <- _get_order o ;; ret (o, order)) dest_ops ;;
      sorted <- lift (py_sorted_key (fun i => i) (map snd ops_ords)) ;;
      x <- lift (py_head sorted) ;;
      dest_op <- lift (py_head (map fst (filter (fun p => py_eq (snd p) x) ops_ords))) ;;
      ret (pair_add (dest_op, swapin_op) dest_sin))
      targets (ret []) ;;
  ret (swapout_op, dest_sin).

(** [ts_dests[ts] = cands] *)
Fixpoint dict_set {V} (k : Tensor) (v : V) (d : list (Tensor * V)) : list (Tensor * V) :=
  match d with
  | [] => [(k, v)]
  | (k', v') :: r => if tensor_eqb k' k then (k', v) :: r else (k', v') :: dict_set k v r
  end.

Fixpoint dict_get {V} (k : Tensor) (d : list (Tensor * V)) : option V :=
  match d with
  | [] => None
  | (k', v') :: r => if tensor_eqb k' k then Some v' else dict_get k r
  end.

(** The first loop of [_insert_swap_nodes] ("filter candidates"): the
    dictionary [ts_dests] it builds over [src_op.outputs]. *)
Fixpoint _insert_swap_nodes_filter (src_op_order : option Z) (outs : list Tensor)
         (ts_dests : list (Tensor * list op)) : M (list (Tensor * list op)) :=
  match outs with
  | [] => ret ts_dests
  | ts :: r =>
      g <- gets graph_of ;;
      match ndims g ts with
      | None => _insert_swap_nodes_filter src_op_order r ts_dests
      | Some n =>
          if n <=? 1 then _insert_swap_nodes_filter src_op_order r ts_dests
          else
            cands <- filter_m (fun o =>
                       order <- _get_order o ;;
                       d <- lift (py_sub order src_op_order) ;;
                       threshold <- gets _swapout_threshold ;;
                       ret (threshold <? d))
                     (ge_get_consuming_ops g [ts]) ;;
            match cands with
            | [] => _insert_swap_nodes_filter src_op_order r ts_dests
            | _ => _insert_swap_nodes_filter src_op_order r (dict_set ts cands ts_dests)
            end
      end
  end.

Definition _insert_swap_nodes (src_op : op) : M unit :=
  _log_info (InfoOperation src_op None) 2 ;;;
  ts_dests0 <- ret [] ;;
  src_op_order <- _get_order src_op ;;
  g <- gets graph_of ;;
  ts_dests <- _insert_swap_nodes_filter src_op_order (outputs g src_op) ts_dests0 ;;
  match ts_dests with
  | [] => ret tt
  | _ =>
      order <- _get_order src_op ;;
      _log_info (InfoOperation src_op order) 1 ;;;
      for_each ts_dests (fun entry =>
        limit <- gets _swapin_groupby ;;
        dests_grp <- _groupby (snd entry) limit ;;
        r <- _insert_swap_nodes_for_ts src_op (fst entry) dests_grp ;;
        modify (fun self => set_swapout_ops (op_add (fst r) (_swapout_ops self)) self) ;;;
        modify (fun self => set_excl_ops (op_add (fst r) (_excl_ops self)) self) ;;;
        for_each (snd r) (fun ds =>
          modify (fun self => set_swapin_ops (op_add (snd ds) (_swapin_ops self)) self) ;;;
          modify (fun self => set_excl_ops (op_add (snd ds) (_excl_ops self)) self) ;;;
          modify (fun self =>
            set_ops_triples (_ops_triples self ++ [(src_op, fst ds, snd ds)]) self)))
  end.

(** The body of the while loop of [_do_action] on the dequeued [src_op]:
    what is done for it ("do action for src_op"). *)
Definition _do_action_visit (src_op : op) : M unit :=
  excl_ops <- gets _excl_ops ;;
  if mem_op src_op excl_ops then ret tt
  else
    order <- _get_order src_op ;;
    match order with
    | None => ret tt
    | Some _ =>
        incl_ops <- gets _incl_ops ;;
        match incl_ops with
        | _ :: _ => if mem_op src_op incl_ops then _insert_swap_nodes src_op else ret tt
        | [] => _insert_swap_nodes src_op
        end
    end.

(** The while loop of [_do_action]; [fuel] bounds the number of rounds. *)
Fixpoint _do_action_while (fuel : nat) (open_set closed_set : list op) : M unit :=
  match fuel with
  | O => match open_set with
         | [] => ret tt
         | _ => raise OutOfFuel
         end
  | S fuel' =>
      match open_set with
      | [] => ret tt
      | src_op :: queue =>
          fo <- _fanouts src_op ;;
          let next_ops := py_set fo in
          _do_action_visit src_op ;;;
          let queue' := fold_left (fun q o =>
                          if mem_op o closed_set then q
                          else if mem_op o q then q else q ++ [o]) next_ops queue in
          _do_action_while fuel' queue' (op_add src_op closed_set)
      end
  end.

Definition _do_action (fuel : nat) (src_ops : list op) : M unit :=
  _do_action_while fuel src_ops [].

Definition _souts (o : op) : M (list op) :=
  fo <- _fanouts o ;;
  swapout_ops <- gets _swapout_ops ;;
  ret (op_inter (py_set fo) swapout_ops).

Definition _sins (o : op) : M (list op) :=
  fi <- _fanins o ;;
  swapin_ops <- gets _swapin_ops ;;
  ret (op_inter (py_set fi) swapin_ops).

Definition _add_controls (ops1 ops2 : list op) : M unit :=
  for_each ops1 (fun op1 =>
    g <- gets graph_of ;;
    g' <- lift (ge_add_control_inputs g op1 ops2) ;;
    modify (set_graph g')).

Definition _sync_ops (sync_mode : Z) : M unit :=
  (if existsb (Z.eqb sync_mode) [1; 3]
   then
     triples <- gets _ops_triples ;;
     let dest_ops := py_set (map (fun t => snd (fst t)) triples) in
     for_each dest_ops (fun x =>
       x_sins <- _sins x ;;
       fi <- _fanins x ;;
       let fs := op_diff (py_set fi) x_sins in
       _add_controls x_sins fs)
   else ret tt) ;;;
  (if existsb (Z.eqb sync_mode) [2; 3]
   then
     triples <- gets _ops_triples ;;
     let src_ops := py_set (map (fun t => fst (fst t)) triples) in
     for_each src_ops (fun x =>
       x_souts <- _souts x ;;
       fo <- _fanouts x ;;
       let fs := op_diff (py_set fo) x_souts in
       _add_controls fs x_souts)
   else ret tt).

Fixpoint ops_dict_get (o : op) (d : list (op * list op)) : option (list op) :=
  match d with
  | [] => None
  | (k, v) :: r => if Nat.eqb k o then Some v else ops_dict_get o r
  end.

Definition _get_forward_walk_ops (o : op) (inclusive : bool) : M (list op) :=
  d <- gets _ops_dict ;;
  match ops_dict_get o d with
  | Some walk =>
      if inclusive then ret walk else ret (op_diff (py_set walk) [o])
  | None =>
      g <- gets graph_of ;;
      let walk := ge_get_forward_walk_ops g o in
      modify (set_ops_dict (d ++ [(o, walk)])) ;;;
      if inclusive then ret walk else ret (op_diff (py_set walk) [o])
  end.

(** The loop of [_do_direct_order] over [reversed(range(range_lb,
    range_ub))]; it yields [result_ops] and [ctrld_order]. *)
Fixpoint _do_direct_order_for (src_op : op) (orders : list Z) : M (list op * Z) :=
  match orders with
  | [] => ret ([], -1)
  | i :: r =>
      candidates <- _get_ops_by_order i ;;
      on_path <- filter_m (fun o =>
                   walk <- _get_forward_walk_ops o true ;;
                   ret (mem_op src_op (py_set walk))) candidates ;;
      g <- gets graph_of ;;
      let candidates' := filter (fun o => negb (py_contains "/cond/" (name g o))) on_path in
      match candidates' with
      | [] => _do_direct_order_for src_op r
      | _ => ret (candidates', i)
      end
  end.

Definition _do_direct_order (fw_op src_op : op) (distance : Z) : M (option op * Z) :=
  fw_order <- _get_order fw_op ;;
  src_order <- _get_order src_op ;;
  range_ub <- lift (py_sub src_order (Some distance)) ;;
  range_lb <- lift (py_add fw_order (Some 1)) ;;
  found <- _do_direct_order_for src_op (rev (py_range range_lb range_ub)) ;;
  match fst found with
  | ctrld_op :: _ => ret (Some ctrld_op, snd found)
  | [] => ret (None, -1)
  end.

Definition _add_control_dependency (src_op dest_op swapin_op : op) (ahead : Z) : M unit :=
  re <- _do_direct_order src_op dest_op ahead ;;
  match fst re with
  | Some ctrld_op =>
      _add_control_inputs swapin_op ctrld_op ;;;
      g <- gets graph_of ;;
      order <- _get_order dest_op ;;
      _log_info (InfoControlDependency (name g ctrld_op) (snd re) (name g dest_op) order) 1
  | None =>
      g <- gets graph_of ;;
      _log_info (InfoNoControlDependency (name g src_op)) 1
  end.

(** The first loop of [_sequential_strategy]; it yields [k]. *)
Fixpoint _sequential_strategy_first (x0_dest_order : option Z) (x : list (op * op * op))
         (i k : nat) : M nat :=
  match x with
  | [] => ret k
  | t :: r =>
      order <- _get_order (snd (fst t)) ;;
      if py_eq order x0_dest_order
      then
        _add_control_dependency (fst (fst t)) (snd (fst t)) (snd t) 3 ;;;
        _sequential_strategy_first x0_dest_order r (S i) i
      else ret k
  end.

(** The second loop of [_sequential_strategy], over [x[k+1:]]. *)
Fixpoint _sequential_strategy_rest (x : list (op * op * op)) (lb last_order : option Z)
  : M unit :=
  match x with
  | [] => ret tt
  | t :: r =>
      curr_order <- _get_order (snd (fst t)) ;;
      let changed := negb (py_eq curr_order last_order) in
      let lb' := if changed then last_order else lb in
      let last_order' := if changed then curr_order else last_order in
      ahead <- lift (py_sub curr_order lb') ;;
      _add_control_dependency (fst (fst t)) (snd (fst t)) (snd t) ahead ;;;
      _sequential_strategy_rest r lb' last_order'
  end.

Definition _sequential_strategy : M unit :=
  triples <- gets _ops_triples ;;
  keyed <- map_m (fun t => order <- _get_order (snd (fst t)) ;; ret (t, order)) triples ;;
  sorted <- lift (py_sorted_key snd keyed) ;;
  let x := map fst sorted in
  x0 <- lift (py_head x) ;;
  x0_dest_order <- _get_order (snd (fst x0)) ;;
  k <- _sequential_strategy_first x0_dest_order x 0 0 ;;
  _sequential_strategy_rest (skipn (k + 1) x) x0_dest_order x0_dest_order.

Definition _add_control_dependencies : M unit :=
  swapin_ahead <- gets _swapin_ahead ;;
  if swapin_ahead <? 0
  then _sequential_strategy
  else
    triples <- gets _ops_triples ;;
    for_each triples (fun t =>
      ahead <- gets _swapin_ahead ;;
      _add_control_dependency (fst (fst t)) (snd (fst t)) (snd t) ahead).

Definition _filter_scopes_and_types (within_ops : list op) (scopes types : list string)
  : M (list op) :=
  g <- gets graph_of ;;
  ops <- lift (fold_left (fun acc scope =>
                            rbind acc (fun ops =>
                            rbind (ge_get_name_scope_ops g within_ops scope) (fun found =>
                            Ok (op_union ops (py_set found)))))
                         scopes (Ok [])) ;;
  ret (op_union ops (filter (fun o => mem_str (type g o) types) within_ops)).

Definition _print_configuration : M unit :=
  threshold <- gets _swapout_threshold ;;
  _log_info (InfoN "swapout_threshold: {}" threshold) 0 ;;;
  groupby <- gets _swapin_groupby ;;
  _log_info (InfoN "swapin_groupby: {}" groupby) 0 ;;;
  mode <- gets _sync_mode ;;
  ahead <- gets _swapin_ahead ;;
  let swapin_ahead := if ahead <? 0 then Info "swapin_ahead: auto mode"
                      else InfoN "swapin_ahead: {}" ahead in
  if mode =? 1 then
    _log_info (Info "sync_mode was turned on for swap-out ops") 0 ;;;
    _log_info swapin_ahead 0
  else if mode =? 2 then
    _log_info (Info "sync_mode was turned on for swap-in ops. swapin_ahead will be ignored") 0
  else if mode =? 3 then
    _log_info (Info "sync_mode was turned on for both swap-out and swap-in ops. swapin_ahead will be ignored") 0
  else if mode =? 0 then
    _log_info swapin_ahead 0
  else ret tt.

(** [run(graph)].  [fuel] bounds the rounds of the traversal's while
    loop; the time measurements only feed a log message. *)
Definition run (fuel : nat) (graph : option Graph) : M unit :=
  match graph with
  | Some g => modify (set_graph g)
  | None => ret tt
  end ;;;
  the_graph <- gets _graph ;;
  match the_graph with
  | None => raise ValueError
  | Some g =>
      _log_info (Info "Editing model for LMS") 0 ;;;
      let all_ops := ge_make_list_of_op g in
      _log_info (InfoN "The graph has {} ops in total" (Z.of_nat (List.length all_ops))) 0 ;;;
      excl_scopes <- gets _excl_scopes ;;
      excl_types <- gets _excl_types ;;
      excl_ops <- _filter_scopes_and_types all_ops excl_scopes excl_types ;;
      modify (set_excl_ops excl_ops) ;;;
      incl_scopes <- gets _incl_scopes ;;
      incl_types <- gets _incl_types ;;
      incl_ops <- _filter_scopes_and_types all_ops incl_scopes incl_types ;;
      modify (set_incl_ops incl_ops) ;;;
      let topo := TOPOS_build g all_ops in
      modify (set_topo_sort topo) ;;;
      _log_info (InfoN "Topological sort size: {}" (size topo)) 0 ;;;
      for_each (py_range 0 (size topo)) (fun i =>
        ops <- _get_ops_by_order i ;;
        _log_info (InfoLevel i (map (fun o => (name g o, type g o)) ops)) 1) ;;;
      threshold <- gets _swapout_threshold ;;
      (if threshold <? 0
       then
         _log_info (Info "Use auto mode for setting swapout_threshold") 0 ;;;
         modify (set_swapout_threshold (size topo / 2))
       else ret tt) ;;;
      _print_configuration ;;;
      _do_action fuel all_ops ;;;
      mode <- gets _sync_mode ;;
      (if mode =? 0 then _add_control_dependencies else _sync_ops mode) ;;;
      swapouts <- gets _swapout_ops ;;
      swapins <- gets _swapin_ops ;;
      _log_info (InfoAdded (List.length swapouts) (List.length swapins)) 0 ;;;
      _log_info (Info "Editing model for LMS, took: {} ms") 0
  end.

(** * The vocabulary of the properties *)

(** A method respects a relation between the object before and after
    the call when every normal return is related to its start. *)
Definition respects (R : LMS -> LMS -> Prop) {A} (m : M A) : Prop :=
  forall s a s', m s = Ok (a, s') -> R s s'.

(** The fields no graph edit, cache update or log line touches. *)
Definition config (s : LMS) :=
  (_excl_scopes s, _incl_scopes s, _excl_types s, _incl_types s,
   _swapout_threshold s, _swapin_groupby s, _swapin_ahead s, _sync_mode s,
   _excl_ops s, _incl_ops s, _topo_sort s, _cpu_device s, _debug s, _debug_level s,
   _swapout_ops s, _swapin_ops s, _ops_triples s).

Definition same_config (s s' : LMS) : Prop := config s' = config s.

Definition keeps_config {A} (m : M A) : Prop := respects same_config m.

Definition fanouts_in (g : Graph) (o : op) : list op :=
  ge_get_consuming_ops g (outputs g o).

Definition fanins_in (g : Graph) (o : op) : list op :=
  ge_get_generating_ops (inputs g o).

Definition node (nm ty : string) (ins : list Tensor) (outs : list (option Z))
           (ctrl : list op) : Operation :=
  mkOperation nm ty ins outs ctrl "/gpu:0".

(** A chain a -> b -> c -> d -> e -> f whose first tensor, a matrix, is
    read again by the last operation. *)
Definition chain_graph (first_type : string) : Graph :=
  [ node "a" first_type [] [Some 2] [];
    node "b" "Relu" [(0%nat, 0%nat)] [Some 2] [];
    node "c" "Relu" [(1%nat, 0%nat)] [Some 2] [];
    node "d" "Relu" [(2%nat, 0%nat)] [Some 2] [];
    node "e" "Relu" [(3%nat, 0%nat)] [Some 2] [];
    node "f" "Add" [(4%nat, 0%nat); (0%nat, 0%nat)] [Some 2] [] ].

(** Three operations on vectors: no tensor passes the shape filter. *)
Definition vector_graph : Graph :=
  [ node "x" "Placeholder" [] [Some 1] [];
    node "y" "Neg" [(0%nat, 0%nat)] [Some 1] [];
    node "z" "Add" [(1%nat, 0%nat); (0%nat, 0%nat)] [Some 1] [] ].

(** [LMS(graph=g)], every other argument at its default. *)
Definition LMS_default (g : Graph) : result LMS :=
  __init__ (Some g) [] [] [] [] (-1) 5 (-1) 0 false 1 "/cpu:0".

(** [LMS(graph=g, swapout_threshold=2, sync_mode=mode)] *)
Definition LMS_sync (g : Graph) (mode : Z) : result LMS :=
  __init__ (Some g) [] [] [] [] 2 5 (-1) mode false 1 "/cpu:0".

Definition run_on (fuel : nat) (r : result LMS) : result LMS :=
  match r with
  | Ok self => match run fuel None self with
               | Ok (_, self') => Ok self'
               | Raise e => Raise e
               end
  | Raise e => Raise e
  end.

(** The object [LMS(graph=g)] starts as. *)
Definition LMS_object (g : Graph) : LMS :=
  mkLMS (Some g) [] [] _unused_types [] (-1) 5 (-1) 0 [] [] None "/cpu:0" false 1
        [] [] [] [] [].

(** Two operations, the second waiting on the first. *)
Definition ctrl_graph : Graph :=
  [ node "a" "MatMul" [] [Some 2] [];
    node "b" "MatMul" [] [Some 2] [0%nat] ].

(** The tensors the loop examines: shape rank known and above 1. *)
Definition examined (g : Graph) (ts : Tensor) : bool :=
  match ndims g ts with
  | Some n => negb (n <=? 1)
  | None => false
  end.

(** The consumers among [cs] further than [threshold] from rank [rp]. *)
Definition far_consumers (t : TOPOS) (threshold rp : Z) (cs : list op) : list op :=
  filter (fun c => match get_order t c with
                   | Some rc => threshold <? rc - rp
                   | None => false
                   end) cs.

Definition ranked (t : TOPOS) (c : op) : Prop := get_order t c <> None.

(** The test of the list comprehension that builds [cands]. *)
Definition is_cand (src_op_order : option Z) (o : op) : M bool :=
  order <- _get_order o ;;
  d <- lift (py_sub order src_op_order) ;;
  threshold <- gets _swapout_threshold ;;
  ret (threshold <? d).

(** What the loop leaves in [ts_dests] when it returns. *)
Fixpoint selected (g : Graph) (t : TOPOS) (threshold rp : Z) (outs : list Tensor)
         (ts_dests : list (Tensor * list op)) : list (Tensor * list op) :=
  match outs with
  | [] => ts_dests
  | ts :: r =>
      if examined g ts
      then match far_consumers t threshold rp (ge_get_consuming_ops g [ts]) with
           | [] => selected g t threshold rp r ts_dests
           | cands => selected g t threshold rp r (dict_set ts cands ts_dests)
           end
      else selected g t threshold rp r ts_dests
  end.

Definition consumers_ranked (g : Graph) (t : TOPOS) (outs : list Tensor) : Prop :=
  forall ts, In ts outs -> examined g ts = true ->
             Forall (ranked t) (ge_get_consuming_ops g [ts]).

(** The producer at rank 10 of the spec's example, its four consumers at
    ranks 11, 12, 15 and 20, and threshold 3. *)
Definition distance_graph : Graph :=
  [ node "p" "MatMul" [] [Some 2] [];
    node "c11" "Relu" [(0%nat, 0%nat)] [Some 2] [];
    node "c12" "Relu" [(0%nat, 0%nat)] [Some 2] [];
    node "c15" "Relu" [(0%nat, 0%nat)] [Some 2] [];
    node "c20" "Relu" [(0%nat, 0%nat)] [Some 2] [] ].

Definition distance_ranks : list (op * Z) :=
  [ (0%nat, 10); (1%nat, 11); (2%nat, 12); (3%nat, 15); (4%nat, 20) ].

Definition distance_topos : TOPOS :=
  mkTOPOS (rank_in distance_ranks)
          (fun i => map fst (filter (fun p => snd p =? i) distance_ranks))
          21.

Definition distance_LMS : LMS :=
  mkLMS (Some distance_graph) [] [] _unused_types [] 3 5 (-1) 0 [] []
        (Some distance_topos) "/cpu:0" false 1 [] [] [] [] [].

(** The distance example with the rank of its last consumer missing. *)
Definition unranked_topos : TOPOS :=
  mkTOPOS (rank_in (removelast distance_ranks))
          (fun i => map fst (filter (fun p => snd p =? i) (removelast distance_ranks)))
          16.

Definition unranked_LMS : LMS :=
  mkLMS (Some distance_graph) [] [] _unused_types [] 3 5 (-1) 0 [] []
        (Some unranked_topos) "/cpu:0" false 1 [] [] [] [] [].

(** The reachability cache agrees with the graph. *)
Definition cache_coherent (self : LMS) : Prop :=
  forall o walk,
    ops_dict_get o (_ops_dict self) = Some walk ->
    walk = ge_get_forward_walk_ops (graph_of self) o.

(** Only the cache differs. *)
Definition cache_only (s s' : LMS) : Prop :=
  config s' = config s /\ _graph s' = _graph s /\ tf_logging s' = tf_logging s.

(** The operations of rank [i] from which [src_op] is reachable and whose
    name is outside every "/cond/" scope, in the order of [get_ops]. *)
Definition triggers_at (g : Graph) (t : TOPOS) (src_op : op) (i : Z) : list op :=
  filter (fun o => negb (py_contains "/cond/" (name g o)))
         (filter (fun o => mem_op src_op (py_set (ge_get_forward_walk_ops g o)))
                 (get_ops t i)).

Definition is_trigger (g : Graph) (t : TOPOS) (src_op : op) (i : Z) (o : op) : Prop :=
  In o (get_ops t i) /\
  In src_op (ge_get_forward_walk_ops g o) /\
  py_contains "/cond/" (name g o) = false.

(** The outcome of the loop over the ranks, as a function of the ranks
    it is given. *)
Fixpoint first_trigger (cands_at : Z -> list op) (orders : list Z) : list op * Z :=
  match orders with
  | [] => ([], -1)
  | i :: r => match cands_at i with
              | [] => first_trigger cands_at r
              | cands => (cands, i)
              end
  end.

(** The chain with its topological order built, before any edit. *)
Definition chain_LMS : LMS :=
  set_topo_sort (TOPOS_build (chain_graph "MatMul")
                             (ge_make_list_of_op (chain_graph "MatMul")))
                (LMS_object (chain_graph "MatMul")).

(** The anchor rank of a triple, and the triples whose anchor is ranked. *)
Definition order_of (t : TOPOS) (tr : op * op * op) : Z :=
  match get_order t (snd (fst tr)) with
  | Some z => z
  | None => 0
  end.

Definition anchor_ranked (t : TOPOS) (tr : op * op * op) : Prop :=
  get_order t (snd (fst tr)) <> None.

(** The lookaheads of the two loops, from the sorted anchor ranks. *)
Fixpoint first_run (o0 : Z) (os : list Z) : nat :=
  match os with
  | o :: r => if o =? o0 then S (first_run o0 r) else O
  | [] => O
  end.

Fixpoint aheads_rest (os : list Z) (lb last_order : Z) : list Z :=
  match os with
  | [] => []
  | curr_order :: r =>
      let changed := negb (curr_order =? last_order) in
      let lb' := if changed then last_order else lb in
      let last_order' := if changed then curr_order else last_order in
      (curr_order - lb') :: aheads_rest r lb' last_order'
  end.

Definition sequential_aheads (os : list Z) : list Z :=
  match os with
  | [] => []
  | o0 :: _ =>
      let n := first_run o0 os in
      repeat 3 n ++ aheads_rest (skipn n os) o0 o0
  end.

(** One call of the schedule. *)
Definition schedule_call (p : (op * op * op) * Z) : M unit :=
  _add_control_dependency (fst (fst (fst p))) (snd (fst (fst p))) (snd (fst p)) (snd p).

(** The lookaheads of the second loop.  [seen] are the anchor ranks the
    loops have passed, [last_order] the greatest of them and [lb] the
    greatest below it (or [last_order] itself before any change). *)
Definition gap_before (whole : list Z) (c a : Z) : Prop :=
  c - a < c /\ In (c - a) whole /\ forall o, In o whole -> ~ (c - a < o < c).

(** The chain a -> b -> c -> d -> e -> f in which both e and f read the
    first tensor again, at the point where [run] calls [_do_action]:
    swapout_threshold 2, swapin_groupby 0, the order built. *)
Definition two_readers_graph : Graph :=
  [ node "a" "MatMul" [] [Some 2] [];
    node "b" "Relu" [(0%nat, 0%nat)] [Some 2] [];
    node "c" "Relu" [(1%nat, 0%nat)] [Some 2] [];
    node "d" "Relu" [(2%nat, 0%nat)] [Some 2] [];
    node "e" "Add" [(3%nat, 0%nat); (0%nat, 0%nat)] [Some 2] [];
    node "f" "Add" [(4%nat, 0%nat); (0%nat, 0%nat)] [Some 2] [] ].

Definition two_readers_topos : TOPOS :=
  TOPOS_build two_readers_graph (ge_make_list_of_op two_readers_graph).

Definition two_readers_LMS : LMS :=
  mkLMS (Some two_readers_graph) [] [] _unused_types [] 2 0 (-1) 0 [] []
        (Some two_readers_topos) "/cpu:0" false 1 [] [] [] [] [].

(** The same object once [_do_action] has inserted the swap nodes. *)
Definition two_readers_swapped : LMS :=
  match _do_action 6 (ge_make_list_of_op two_readers_graph) two_readers_LMS with
  | Ok (_, self) => self
  | Raise _ => two_readers_LMS
  end.

(** What an edit of control inputs may change: data edges, the number of
    operations and the fields of the object stay, control inputs are
    only added. *)
Definition ctrl_grows (s s' : LMS) : Prop :=
  same_config s s' /\
  (forall c, fanins_in (graph_of s') c = fanins_in (graph_of s) c) /\
  (forall c, fanouts_in (graph_of s') c = fanouts_in (graph_of s) c) /\
  List.length (graph_of s') = List.length (graph_of s) /\
  (forall c x, In x (control_inputs (graph_of s) c) ->
               In x (control_inputs (graph_of s') c)).

(** One call of [ge.add_control_inputs] from a method. *)
Definition add_control_inputs_call (op1 : op) (ops2 : list op) : M unit :=
  g <- gets graph_of ;;
  g' <- lift (ge_add_control_inputs g op1 ops2) ;;
  modify (set_graph g').

(** The errors a method may raise. *)
Definition raises_only (E : error -> Prop) {A} (m : M A) : Prop :=
  forall s e, m s = Raise e -> E e.

(** The rounds of the two loops of [_sync_ops]. *)
Definition sync_dest_body (x : op) : M unit :=
  x_sins <- _sins x ;;
  fi <- _fanins x ;;
  let fs := op_diff (py_set fi) x_sins in
  _add_controls x_sins fs.

Definition sync_src_body (x : op) : M unit :=
  x_souts <- _souts x ;;
  fo <- _fanouts x ;;
  let fs := op_diff (py_set fo) x_souts in
  _add_controls fs x_souts.

(** Every move-in among the fan-ins of [x] has the other fan-ins of [x]
    as control inputs. *)
Definition swapins_wait (x : op) (s : LMS) : Prop :=
  forall m f,
    In m (fanins_in (graph_of s) x) -> In m (_swapin_ops s) ->
    (m < List.length (graph_of s))%nat ->
    In f (fanins_in (graph_of s) x) -> ~ In f (_swapin_ops s) ->
    In f (control_inputs (graph_of s) m).

(** Every fan-out of [x] that is no move-out has the move-outs among the
    fan-outs of [x] as control inputs. *)
Definition fanouts_wait (x : op) (s : LMS) : Prop :=
  forall m f,
    In m (fanouts_in (graph_of s) x) -> In m (_swapout_ops s) ->
    In f (fanouts_in (graph_of s) x) -> ~ In f (_swapout_ops s) ->
    In m (control_inputs (graph_of s) f).

(** The object is as it was but for the cache, the log and the wiring of
    the graph, which has as many operations as before. *)
Definition same_size (s s' : LMS) : Prop :=
  same_config s s' /\ List.length (graph_of s') = List.length (graph_of s).

(** One round of the loop over the bands in [_insert_swap_nodes_for_ts]. *)
Definition swapin_step (swapout_op : op) (ts : Tensor) (acc : M (list (op * op)))
           (dest_ops : list op) : M (list (op * op)) :=
  dest_sin <- acc ;;
  swapin_op <- _add_swapin swapout_op dest_ops ts ;;
  ops_ords <- map_m (fun o => order <- _get_order o ;; ret (o, order)) dest_ops ;;
  sorted <- lift (py_sorted_key (fun i => i) (map snd ops_ords)) ;;
  x <- lift (py_head sorted) ;;
  dest_op <- lift (py_head (map fst (filter (fun p => py_eq (snd p) x) ops_ords))) ;;
  ret (pair_add (dest_op, swapin_op) dest_sin).

(** From [s] to [s'] the excluded set has only grown and every
    operation the graph has gained is in it. *)
Definition inserts (s s' : LMS) : Prop :=
  (forall o, In o (_excl_ops s) -> In o (_excl_ops s')) /\
  (List.length (graph_of s) <= List.length (graph_of s'))%nat /\
  (forall o, (List.length (graph_of s) <= o < List.length (graph_of s'))%nat ->
             In o (_excl_ops s')).

(** The graph is as it was and the excluded set has only grown. *)
Definition excl_grows (s s' : LMS) : Prop :=
  graph_of s' = graph_of s /\ forall o, In o (_excl_ops s) -> In o (_excl_ops s').

(** The bookkeeping [_insert_swap_nodes] does for one move-in. *)
Definition record_swapin (src_op : op) (ds : op * op) : M unit :=
  modify (fun self => set_swapin_ops (op_add (snd ds) (_swapin_ops self)) self) ;;;
  modify (fun self => set_excl_ops (op_add (snd ds) (_excl_ops self)) self) ;;;
  modify (fun self => set_ops_triples (_ops_triples self ++ [(src_op, fst ds, snd ds)]) self).

(** The bookkeeping for one tensor: the move-out, then its move-ins. *)
Definition record_swaps (src_op : op) (r : op * list (op * op)) : M unit :=
  modify (fun self => set_swapout_ops (op_add (fst r) (_swapout_ops self)) self) ;;;
  modify (fun self => set_excl_ops (op_add (fst r) (_excl_ops self)) self) ;;;
  for_each (snd r) (record_swapin src_op).

(** The objects the traversal goes through: from one visit to the next. *)
Inductive visited_from (s0 : LMS) : LMS -> Prop :=
| visited_start : visited_from s0 s0
| visited_step s src_op u s' :
    visited_from s0 s -> _do_action_visit src_op s = Ok (u, s') -> visited_from s0 s'.

(** The rank of a ranked operation. *)
Definition rank_of (t : TOPOS) (o : op) : Z :=
  match get_order t o with
  | Some z => z
  | None => 0
  end.

(** The merging loop on known ranks. *)
Definition merge_z (limit : Z) (ys : list (Z * Z)) (curr : Z * Z) : list (Z * Z) :=
  match rev ys with
  | [] => ys
  | last :: _ =>
      if fst curr - snd last <=? limit
      then removelast ys ++ [(fst last, snd curr)]
      else ys ++ [curr]
  end.

Definition intervals (limit : Z) (x : list Z) : list (Z * Z) :=
  match x with
  | [] => []
  | x0 :: r => fold_left (merge_z limit) (map (fun i => (i, i)) r) [(x0, x0)]
  end.

(** The operations whose rank lies in the interval [y], each once. *)
Definition band (t : TOPOS) (ops : list op) (y : Z * Z) : list op :=
  py_set (filter (fun o => (fst y <=? rank_of t o) && (rank_of t o <=? snd y)) ops).

Definition bands (t : TOPOS) (ops : list op) (limit : Z) : list (list op) :=
  map (band t ops) (intervals limit (sorted_by (fun z => z) (rev (map (rank_of t) ops)))).

Definition some_pair (y : Z * Z) : option Z * option Z := (Some (fst y), Some (snd y)).

(** The intervals, read from the front of the sorted ranks: [lo, hi] is
    the open interval, [rest] the ranks still to come. *)
Fixpoint intervals_from (limit lo hi : Z) (rest : list Z) : list (Z * Z) :=
  match rest with
  | [] => [(lo, hi)]
  | c :: r =>
      if c - hi <=? limit
      then intervals_from limit lo c r
      else (lo, hi) :: intervals_from limit c c r
  end.

Definition covered (ys : list (Z * Z)) (c : Z) : Prop :=
  exists y, In y ys /\ fst y <= c <= snd y.

(** In the interval [y] every rank of [whole] but the lowest has a lower
    rank of [whole] in the interval no further than [limit] below it. *)
Definition chained (limit : Z) (whole : list Z) (y : Z * Z) : Prop :=
  forall c, In c whole -> fst y <= c <= snd y ->
    c = fst y \/ exists c', In c' whole /\ fst y <= c' < c /\ c - c' <= limit.

(** Six consumers at the ranks 1, 2, 10, 11, 12, 20 of the spec's
    example, and two consumers on one rank. *)
Definition grouping_ranks : list (op * Z) :=
  [ (0%nat, 1); (1%nat, 2); (2%nat, 10); (3%nat, 11); (4%nat, 12); (5%nat, 20) ].

Definition LMS_with_ranks (ranks : list (op * Z)) : LMS :=
  mkLMS (Some []) [] [] _unused_types [] (-1) 5 (-1) 0 [] []
        (Some (mkTOPOS (rank_in ranks)
                       (fun i => map fst (filter (fun p => snd p =? i) ranks))
                       21))
        "/cpu:0" false 1 [] [] [] [] [].

(** A coherent cache stays coherent. *)
Definition cache_kept (s s' : LMS) : Prop := cache_coherent s -> cache_coherent s'.

(** A scope the model of [ge.get_name_scope_ops] covers. *)
Definition plain_scope (scope : string) : Prop := regex_plain (strip_slash scope) = true.

(** [o] is named [scope] or lies below it: its name is what the
    regular expression of [ge.get_name_scope_ops] finds. *)
Definition in_scope (g : Graph) (o : op) (scope : string) : bool :=
  scope_regex_search (strip_slash scope) (name g o).

(** Every tensor an operation reads is an output of its producer. *)
Definition well_formed (g : Graph) : Prop :=
  forall c t, In t (inputs g c) -> In t (outputs g (fst t)).

(** The node [_add_swapout] and [_add_swapin] create for [ts0]. *)
Definition swap_node (self : LMS) (prefix : string) (ts0 : Tensor) (ins : list Tensor)
  : Operation :=
  mkOperation (unique_name (graph_of self)
                           (lms_name prefix (tensor_name (graph_of self) ts0)))
              "Identity" ins [ndims (graph_of self) ts0] [] (_cpu_device self).

(** What can be said of a swap node whatever names are in use: an
    Identity created under [ops.device(cpu_device)] that reads [ins],
    has the shape of [ts0] and no control input, and whose name begins
    with [kind] and the name of [ts0], its "/" and ":" made "_", and is
    the name of no operation the graph had. *)
Definition is_swap_node (self : LMS) (kind : string) (ts0 : Tensor) (ins : list Tensor)
           (n : Operation) : Prop :=
  prefix (lms_name kind (tensor_name (graph_of self) ts0)) (op_name n) = true /\
  name_in_use (graph_of self) (op_name n) = false /\
  op_type n = "Identity" /\ op_inputs n = ins /\
  op_out_ndims n = [ndims (graph_of self) ts0] /\ op_control_inputs n = [] /\
  op_device_scope n = _cpu_device self.

(** The input slots [ins] once every slot that read [old] reads [new]. *)
Definition rerouted (old new : Tensor) (ins : list Tensor) : list Tensor :=
  map (fun x => if tensor_eqb x old then new else x) ins.

(** The two-readers object once the first tensor has its swap-out node. *)
Definition two_readers_swapout : LMS :=
  match _add_swapout 0%nat (0%nat, 0%nat) two_readers_LMS with
  | Ok (_, self) => self
  | Raise _ => two_readers_LMS
  end.

(** [n'] is [n] with control inputs added at the end. *)
Definition ctrl_extended (n n' : Operation) : Prop :=
  op_name n' = op_name n /\ op_type n' = op_type n /\ op_inputs n' = op_inputs n /\
  op_out_ndims n' = op_out_ndims n /\ op_device_scope n' = op_device_scope n /\
  exists added, op_control_inputs n' = op_control_inputs n ++ added.

(** From [s] to [s'] control inputs were added to operations in [P];
    every other operation, the number of operations and the fields of
    the object but the cache and the log are as they were. *)
Definition ctrl_added_to (P : op -> Prop) (s s' : LMS) : Prop :=
  same_config s s' /\
  List.length (graph_of s') = List.length (graph_of s) /\
  forall c n, nth_error (graph_of s) c = Some n ->
              exists n', nth_error (graph_of s') c = Some n' /\ ctrl_extended n n' /\
                         (~ P c -> n' = n).

(** The graph and the fields but the cache and the log are as they were. *)
Definition graph_kept (s s' : LMS) : Prop :=
  same_config s s' /\ graph_of s' = graph_of s.

(** The two-readers object once the asynchronous schedule is in. *)
Definition two_readers_scheduled : LMS :=
  match _add_control_dependencies two_readers_swapped with
  | Ok (_, self) => self
  | Raise _ => two_readers_swapped
  end.

(** [d] is an operation of [band] and no ranked operation of [band] has
    a lower rank. *)
Definition earliest (t : TOPOS) (band : list op) (d : op) : Prop :=
  In d band /\
  forall d' r r', In d' band -> get_order t d = Some r -> get_order t d' = Some r' -> r <= r'.

(** [o] is named by one of the scopes or is of one of the types. *)
Definition selects (g : Graph) (scopes types : list string) (o : op) : Prop :=
  (exists scope, In scope scopes /\ in_scope g o scope = true) \/ In (type g o) types.

(** The set [_filter_scopes_and_types] builds from scopes the model
    covers. *)
Definition scope_ops (g : Graph) (within_ops : list op) (scope : string) : list op :=
  filter (fun o => in_scope g o scope) within_ops.

Definition selected_ops (g : Graph) (within_ops : list op) (scopes types : list string)
  : list op :=
  op_union (fold_left (fun acc scope => op_union acc (py_set (scope_ops g within_ops scope)))
                      scopes [])
           (filter (fun o => mem_str (type g o) types) within_ops).

(** What [_insert_swap_nodes] does with the dictionary of its first
    loop: nothing when it is empty, else one swap per entry. *)
Definition swap_selected (src_op : op) (ts_dests : list (Tensor * list op)) : M unit :=
  match ts_dests with
  | [] => ret tt
  | _ =>
      order <- _get_order src_op ;;
      _log_info (InfoOperation src_op order) 1 ;;;
      for_each ts_dests (fun entry =>
        limit <- gets _swapin_groupby ;;
        dests_grp <- _groupby (snd entry) limit ;;
        r <- _insert_swap_nodes_for_ts src_op (fst entry) dests_grp ;;
        record_swaps src_op r)
  end.

(** The settings of the object: what the traversal and the schedules
    read and never write. *)
Definition settings (s : LMS) :=
  (_excl_scopes s, _incl_scopes s, _excl_types s, _incl_types s,
   _swapout_threshold s, _swapin_groupby s, _swapin_ahead s, _sync_mode s,
   _incl_ops s, _topo_sort s, _cpu_device s, _debug s, _debug_level s).

(** From [s] to [s'] swaps were recorded: the settings are as they
    were, the excluded set, the swap sets and the graph have only grown,
    and every triple added to the list has a producer in [Q] and a
    swap-in operation in [_swapin_ops]. *)
Definition records (Q : op -> Prop) (s s' : LMS) : Prop :=
  settings s' = settings s /\
  (forall o, In o (_excl_ops s) -> In o (_excl_ops s')) /\
  (forall o, In o (_swapout_ops s) -> In o (_swapout_ops s')) /\
  (forall o, In o (_swapin_ops s) -> In o (_swapin_ops s')) /\
  (List.length (graph_of s) <= List.length (graph_of s'))%nat /\
  exists added,
    _ops_triples s' = _ops_triples s ++ added /\
    forall tr, In tr added -> Q (fst (fst tr)) /\ In (snd tr) (_swapin_ops s').

(** The producers the traversal may swap in the object [s]: not
    excluded, included when an inclusion set is given, and ranked. *)
Definition swappable (s : LMS) (p : op) : Prop :=
  ~ In p (_excl_ops s) /\
  (_incl_ops s = [] \/ In p (_incl_ops s)) /\
  exists t, _topo_sort s = Some t /\ get_order t p <> None.

Definition swaps_recorded (s s' : LMS) : Prop := records (swappable s) s s'.

(** The fields a caller sets at construction and no method writes. *)
Definition user_settings (s : LMS) :=
  (_excl_scopes s, _incl_scopes s, _excl_types s, _incl_types s,
   _swapin_groupby s, _swapin_ahead s, _sync_mode s, _cpu_device s, _debug s,
   _debug_level s).

(** From [s] to [s'] the graph has kept its operations, and an operation
    reads at [s'] what it read at [s] or a tensor in [P]. *)
Definition new_reads (P : op -> Tensor -> Prop) (s s' : LMS) : Prop :=
  (List.length (graph_of s) <= List.length (graph_of s'))%nat /\
  forall c t, In t (inputs (graph_of s') c) -> In t (inputs (graph_of s) c) \/ P c t.

(** What a swap of a tensor of [p] makes an operation read, in a graph
    that had [m] operations: an output of an operation from [m] on, or,
    when the reader is itself from [m] on, an output of [p]. *)
Definition swap_read (p : op) (m : nat) (c : op) (t : Tensor) : Prop :=
  (m <= fst t)%nat \/ (fst t = p /\ (m <= c)%nat).

Definition reads_kept (p : op) (m : nat) (s s' : LMS) : Prop :=
  (m <= List.length (graph_of s))%nat -> new_reads (swap_read p m) s s'.

(** No operation reads a tensor of its own. *)
Definition no_self_loop (g : Graph) : Prop := forall c t, In t (inputs g c) -> fst t <> c.

(** What holds at every round of the loop of [_do_action] on a graph
    that had [n0] operations when the loop began: the queue has no
    operation twice; the operations below [n0] are the ones in the queue
    and the ones already dequeued; an operation from [n0] on reads only
    dequeued operations and operations from [n0] on; no operation below
    [n0] reads itself. *)
Definition one_pass (n0 : nat) (open_set closed_set : list op) (s : LMS) : Prop :=
  NoDup open_set /\
  (forall o, (o < n0)%nat -> In o open_set \/ In o closed_set) /\
  (forall o, In o open_set -> (o < n0)%nat /\ ~ In o closed_set) /\
  (n0 <= List.length (graph_of s))%nat /\
  (forall c t, In t (inputs (graph_of s) c) ->
               ((n0 <= c)%nat -> In (fst t) closed_set \/ (n0 <= fst t)%nat) /\
               ((c < n0)%nat -> fst t <> c)).

(** A triple whose producer and anchor are ranked. *)
Definition triple_ranked (t : TOPOS) (tr : op * op * op) : Prop :=
  get_order t (fst (fst tr)) <> None /\ get_order t (snd (fst tr)) <> None.

(** Two consumers of the first tensor on one rank. *)
Definition same_rank_graph : Graph :=
  [ node "p" "MatMul" [] [Some 2] [];
    node "a" "Relu" [(0%nat, 0%nat)] [Some 2] [];
    node "b" "Relu" [(1%nat, 0%nat)] [Some 2] [];
    node "c" "Relu" [(2%nat, 0%nat)] [Some 2] [];
    node "x1" "Add" [(3%nat, 0%nat); (0%nat, 0%nat)] [Some 2] [];
    node "x2" "Add" [(3%nat, 0%nat); (0%nat, 0%nat)] [Some 2] [] ].

(** [LMS(graph=same_rank_graph, swapout_threshold=2, swapin_groupby=limit)] *)
Definition LMS_groupby (limit : Z) : result LMS :=
  __init__ (Some same_rank_graph) [] [] [] [] 2 limit (-1) 0 false 1 "/cpu:0".

(** * Properties *)

(** ** Reasoning about methods *)

(** A method respects a relation between the object before and after
    the call when every normal return is related to its start. *)
Section Respects.
Variable R : LMS -> LMS -> Prop.
Hypothesis R_refl : forall s, R s s.
Hypothesis R_trans : forall a b c, R a b -> R b c -> R a c.

Lemma respects_ret {A} (a : A) : respects R (ret a).
Proof. intros s a' s' H. inversion H; subst. apply R_refl. Qed.

Lemma respects_gets {A} (f : LMS -> A) : respects R (gets f).
Proof. intros s a' s' H. inversion H; subst. apply R_refl. Qed.

Lemma respects_raise {A} (e : error) : respects R (@raise A e).
Proof. intros s a' s' H. discriminate H. Qed.

Lemma respects_lift {A} (r : result A) : respects R (lift r).
Proof.
  intros s a' s' H. unfold lift in H. destruct r; inversion H; subst. apply R_refl.
Qed.

Lemma respects_bind {A B} (m : M A) (k : A -> M B) :
  respects R m -> (forall a, respects R (k a)) -> respects R (bind m k).
Proof.
  intros Hm Hk s b s' H. unfold bind in H.
  destruct (m s) as [[a s1]|e] eqn:E; [|discriminate].
  eapply R_trans; [eapply Hm; eassumption | eapply Hk; eassumption].
Qed.

Lemma respects_for_each {A} (xs : list A) (body : A -> M unit) :
  (forall x, respects R (body x)) -> respects R (for_each xs body).
Proof.
  intros Hb. induction xs as [|x r IH]; simpl.
  - apply respects_ret.
  - apply respects_bind; [apply Hb | intros _; exact IH].
Qed.

Lemma respects_map_m {A B} (f : A -> M B) (xs : list A) :
  (forall x, respects R (f x)) -> respects R (map_m f xs).
Proof.
  intros Hf. induction xs as [|x r IH]; simpl.
  - apply respects_ret.
  - apply respects_bind; [apply Hf | intros y].
    apply respects_bind; [exact IH | intros ys; apply respects_ret].
Qed.

Lemma respects_filter_m {A} (f : A -> M bool) (xs : list A) :
  (forall x, respects R (f x)) -> respects R (filter_m f xs).
Proof.
  intros Hf. induction xs as [|x r IH]; simpl.
  - apply respects_ret.
  - apply respects_bind; [apply Hf | intros y].
    apply respects_bind; [exact IH | intros ys; apply respects_ret].
Qed.

Lemma respects_modify (f : LMS -> LMS) :
  (forall s, R s (f s)) -> respects R (modify f).
Proof. intros Hf s a s' H. inversion H; subst. apply Hf. Qed.
End Respects.

Lemma same_config_refl s : same_config s s.
Proof. reflexivity. Qed.

Lemma same_config_trans a b c : same_config a b -> same_config b c -> same_config a c.
Proof. unfold same_config. intros H1 H2. rewrite H2. exact H1. Qed.

Ltac keeps_step :=
  first
    [ apply (respects_ret same_config same_config_refl)
    | apply (respects_gets same_config same_config_refl)
    | apply respects_raise
    | apply (respects_lift same_config same_config_refl)
    | apply respects_modify; intros; reflexivity
    | apply (respects_bind same_config same_config_trans); [ | intros]
    | apply (respects_for_each same_config same_config_refl same_config_trans); intros
    | apply (respects_map_m same_config same_config_refl same_config_trans); intros
    | apply (respects_filter_m same_config same_config_refl same_config_trans); intros ].

Lemma keeps_log_info msg level : keeps_config (_log_info msg level).
Proof.
  intros s a s' H. unfold _log_info in H.
  destruct ((level =? 0) || (_debug s && (level <=? _debug_level s)));
    inversion H; reflexivity.
Qed.

Lemma keeps_get_order o : keeps_config (_get_order o).
Proof.
  intros s a s' H. unfold _get_order in H.
  destruct (_topo_sort s); inversion H; reflexivity.
Qed.

Lemma keeps_get_ops_by_order i : keeps_config (_get_ops_by_order i).
Proof.
  intros s a s' H. unfold _get_ops_by_order in H.
  destruct (_topo_sort s); inversion H; reflexivity.
Qed.

Lemma keeps_fanouts o : keeps_config (_fanouts o).
Proof. unfold _fanouts. keeps_step. Qed.

Lemma keeps_fanins o : keeps_config (_fanins o).
Proof. unfold _fanins. keeps_step. Qed.

Ltac keeps :=
  repeat first
    [ apply keeps_log_info | apply keeps_get_order | apply keeps_get_ops_by_order
    | apply keeps_fanouts | apply keeps_fanins
    | match goal with
      | |- respects _ (if ?b then _ else _) => destruct b
      | |- respects _ (match ?x with _ => _ end) => destruct x
      | |- keeps_config (if ?b then _ else _) => destruct b
      | |- keeps_config (match ?x with _ => _ end) => destruct x
      end
    | keeps_step ].

Lemma keeps_add_control_inputs op1 op2 : keeps_config (_add_control_inputs op1 op2).
Proof. unfold _add_control_inputs, keeps_config. keeps. Qed.

Lemma keeps_connect_ops a b ri ro idx : keeps_config (_connect_ops a b ri ro idx).
Proof. unfold _connect_ops, keeps_config. keeps. Qed.

Lemma keeps_add_swapout src ts : keeps_config (_add_swapout src ts).
Proof.
  unfold _add_swapout, keeps_config. keeps; try apply keeps_connect_ops.
Qed.

Lemma keeps_add_swapin so dests ts : keeps_config (_add_swapin so dests ts).
Proof.
  unfold _add_swapin, keeps_config. keeps; try apply keeps_connect_ops.
Qed.

(** ** Editing one operation of the graph *)

Lemma nth_error_combine_seq {A} (l : list A) (a i : nat) :
  nth_error (combine (seq a (List.length l)) l) i =
  option_map (fun n => ((a + i)%nat, n)) (nth_error l i).
Proof.
  revert a i. induction l as [|x r IH]; intros a i; simpl.
  - destruct i; reflexivity.
  - destruct i; simpl.
    + rewrite Nat.add_0_r. reflexivity.
    + rewrite IH. rewrite Nat.add_succ_r. reflexivity.
Qed.

Lemma nth_error_update_op g o f i :
  nth_error (update_op g o f) i =
  option_map (fun n => if Nat.eqb i o then f n else n) (nth_error g i).
Proof.
  unfold update_op. rewrite nth_error_map, nth_error_combine_seq.
  destruct (nth_error g i); reflexivity.
Qed.

Lemma length_update_op g o f : List.length (update_op g o f) = List.length g.
Proof.
  unfold update_op. rewrite length_map, length_combine, length_seq. apply Nat.min_id.
Qed.

(** An edit of one operation that keeps its data inputs and its outputs
    keeps every data edge of the graph. *)
Section DataEdgesKept.
Variables (g : Graph) (o : op) (f : Operation -> Operation).
Hypothesis f_inputs : forall n, op_inputs (f n) = op_inputs n.
Hypothesis f_outs : forall n, op_out_ndims (f n) = op_out_ndims n.

Lemma inputs_update_op c : inputs (update_op g o f) c = inputs g c.
Proof.
  unfold inputs. rewrite nth_error_update_op.
  destruct (nth_error g c); simpl; [|reflexivity].
  destruct (Nat.eqb c o); [apply f_inputs | reflexivity].
Qed.

Lemma outputs_update_op c : outputs (update_op g o f) c = outputs g c.
Proof.
  unfold outputs. rewrite nth_error_update_op.
  destruct (nth_error g c); simpl; [|reflexivity].
  destruct (Nat.eqb c o); [rewrite f_outs|]; reflexivity.
Qed.

Lemma consumers_update_op t : consumers (update_op g o f) t = consumers g t.
Proof.
  unfold consumers. rewrite length_update_op.
  apply filter_ext. intros c. rewrite inputs_update_op. reflexivity.
Qed.

Lemma fanouts_update_op c : fanouts_in (update_op g o f) c = fanouts_in g c.
Proof.
  unfold fanouts_in, ge_get_consuming_ops. rewrite outputs_update_op.
  f_equal. induction (outputs g c) as [|t r IH]; simpl; [reflexivity|].
  rewrite consumers_update_op, IH. reflexivity.
Qed.

Lemma fanins_update_op c : fanins_in (update_op g o f) c = fanins_in g c.
Proof. unfold fanins_in. rewrite inputs_update_op. reflexivity. Qed.
End DataEdgesKept.

Lemma mem_op_In a s : mem_op a s = true <-> In a s.
Proof.
  unfold mem_op. split.
  - apply set_mem_correct1.
  - apply set_mem_correct2.
Qed.

Lemma mem_op_false a s : mem_op a s = false <-> ~ In a s.
Proof.
  rewrite <- mem_op_In. destruct (mem_op a s); split; intros H; congruence.
Qed.

Lemma control_inputs_update_op g o f c :
  control_inputs (update_op g o f) c =
  match nth_error g c with
  | Some n => if Nat.eqb c o then op_control_inputs (f n) else op_control_inputs n
  | None => []
  end.
Proof.
  unfold control_inputs. rewrite nth_error_update_op.
  destruct (nth_error g c); simpl; [|reflexivity].
  destruct (Nat.eqb c o); reflexivity.
Qed.

(** What [ge.add_control_inputs] does when it returns. *)
Lemma ge_add_control_inputs_ok g o cops g' :
  ge_add_control_inputs g o cops = Ok g' ->
  (forall c, c <> o -> control_inputs g' c = control_inputs g c) /\
  (control_inputs g' o = match nth_error g o with
                         | Some n => op_control_inputs n ++ cops
                         | None => []
                         end) /\
  (forall c, fanouts_in g' c = fanouts_in g c) /\
  (forall c, fanins_in g' c = fanins_in g c) /\
  List.length g' = List.length g.
Proof.
  unfold ge_add_control_inputs.
  destruct (existsb _ cops); [discriminate|]. intros H. inversion H; subst g'; clear H.
  repeat split.
  - intros c Hc. rewrite control_inputs_update_op. unfold control_inputs.
    destruct (nth_error g c); [|reflexivity].
    destruct (Nat.eqb_spec c o); [contradiction | reflexivity].
  - rewrite control_inputs_update_op. destruct (nth_error g o); [|reflexivity].
    rewrite Nat.eqb_refl. reflexivity.
  - intros c. apply fanouts_update_op; reflexivity.
  - intros c. apply fanins_update_op; reflexivity.
  - apply length_update_op.
Qed.

Lemma graph_of_set_graph g s : graph_of (set_graph g s) = g.
Proof. reflexivity. Qed.

(** ** The guarded control-edge insertion, [_add_control_inputs] *)

Lemma fanouts_run o self : _fanouts o self = Ok (fanouts_in (graph_of self) o, self).
Proof. reflexivity. Qed.

Lemma fanins_run o self : _fanins o self = Ok (fanins_in (graph_of self) o, self).
Proof. reflexivity. Qed.

(** The call either changes nothing and answers False, or appends [op2]
    to the control inputs of [op1] and answers True; it never raises. *)
Lemma add_control_inputs_cases op1 op2 self :
  let g := graph_of self in
  (_add_control_inputs op1 op2 self = Ok (false, self) /\
   (In op2 (control_inputs g op1) \/ In op1 (control_inputs g op2) \/
    In op2 (fanouts_in g op1))) \/
  (exists g',
     _add_control_inputs op1 op2 self = Ok (true, set_graph g' self) /\
     ge_add_control_inputs g op1 [op2] = Ok g' /\
     ~ In op2 (control_inputs g op1) /\ ~ In op1 (control_inputs g op2) /\
     ~ In op2 (fanouts_in g op1)).
Proof.
  intros g. unfold _add_control_inputs, bind, gets. fold g.
  destruct (mem_op op2 (control_inputs g op1)) eqn:E1.
  { left. split; [reflexivity|]. left. apply mem_op_In, E1. }
  destruct (mem_op op1 (control_inputs g op2)) eqn:E2.
  { left. split; [reflexivity|]. right; left. apply mem_op_In, E2. }
  rewrite fanouts_run. fold g.
  destruct (mem_op op2 (fanouts_in g op1)) eqn:E3.
  { left. split; [reflexivity|]. right; right. apply mem_op_In, E3. }
  right. unfold ge_add_control_inputs, lift, modify, ret. simpl existsb.
  rewrite E1. simpl.
  eexists. split; [reflexivity|]. split; [reflexivity|].
  repeat split; apply mem_op_false; assumption.
Qed.

(** C10. [_add_control_inputs(op1, op2)], the helper behind the
    producer-to-move-out edge and the trigger-to-move-in edge, answers
    False and leaves the object as it was whenever [op2] is already a
    control input of [op1], [op1] is a control input of [op2], or [op2]
    consumes an output of [op1].  In every case it returns: the control
    inputs of the other operations are kept, those of [op1] are kept or
    extended by the single new entry [op2], which was not there before;
    and for two distinct operations, a pair of opposite edges between them
    after the call means the edge op2 -> op1 was already there. *)
Theorem add_control_inputs_never_duplicates (op1 op2 : op) (self : LMS) :
  let g := graph_of self in
  (In op2 (control_inputs g op1) \/ In op1 (control_inputs g op2) \/
   In op2 (fanouts_in g op1) ->
   _add_control_inputs op1 op2 self = Ok (false, self)) /\
  exists b self',
    _add_control_inputs op1 op2 self = Ok (b, self') /\
    (forall c, c <> op1 ->
       control_inputs (graph_of self') c = control_inputs g c) /\
    (control_inputs (graph_of self') op1 = control_inputs g op1 \/
     (~ In op2 (control_inputs g op1) /\
      control_inputs (graph_of self') op1 = control_inputs g op1 ++ [op2])) /\
    (op1 <> op2 ->
     In op2 (control_inputs (graph_of self') op1) ->
     In op1 (control_inputs (graph_of self') op2) \/
     In op2 (fanouts_in (graph_of self') op1) ->
     In op2 (control_inputs g op1)).
Proof.
  intros g. pose proof (add_control_inputs_cases op1 op2 self) as Hc.
  cbv zeta in Hc. fold g in Hc. destruct Hc as [[Hrun Hg]|Hadd].
  - split; [intros _; exact Hrun|].
    exists false, self. split; [exact Hrun|]. fold g.
    split; [reflexivity|]. split; [left; reflexivity|].
    intros _ H _. exact H.
  - destruct Hadd as (g' & Hrun & Hge & N1 & N2 & N3).
    split.
    { intros [H|[H|H]]; contradiction. }
    exists true, (set_graph g' self). split; [exact Hrun|].
    rewrite graph_of_set_graph.
    destruct (ge_add_control_inputs_ok _ _ _ _ Hge) as (Hother & Hself & Hfo & _ & _).
    split; [exact Hother|]. split.
    + rewrite Hself. revert N1. unfold control_inputs.
      destruct (nth_error g op1); intros N1;
        [right; split; [exact N1 | reflexivity] | left; reflexivity].
    + intros Hne _ [H|H].
      * rewrite Hother in H by congruence. contradiction.
      * rewrite Hfo in H. contradiction.
Qed.

(** ** The auto strategy on an empty list of triples *)

(** Whatever the object, with no triple the auto strategy raises
    IndexError, and so does [_add_control_dependencies] when swapin_ahead
    is negative. *)
Lemma sequential_strategy_no_triples self :
  _ops_triples self = [] -> _sequential_strategy self = Raise IndexError.
Proof.
  intros Hx. unfold _sequential_strategy, bind, gets. rewrite Hx. reflexivity.
Qed.

Lemma add_control_dependencies_no_triples self :
  _swapin_ahead self < 0 -> _ops_triples self = [] ->
  _add_control_dependencies self = Raise IndexError.
Proof.
  intros Ha Hx. unfold _add_control_dependencies, bind at 1, gets.
  apply Z.ltb_lt in Ha. rewrite Ha. apply sequential_strategy_no_triples. exact Hx.
Qed.

Lemma LMS_default_object g : LMS_default g = Ok (LMS_object g).
Proof. reflexivity. Qed.

Lemma add_control_inputs_never_duplicates_witness :
  In 0%nat (control_inputs (graph_of (LMS_object ctrl_graph)) 1%nat) /\
  _add_control_inputs 1%nat 0%nat (LMS_object ctrl_graph)
  = Ok (false, LMS_object ctrl_graph).
Proof.
  split.
  - simpl. left. reflexivity.
  - apply (proj1 (add_control_inputs_never_duplicates 1%nat 0%nat (LMS_object ctrl_graph))).
    left. simpl. left. reflexivity.
Defined.

(** ** The built-in excluded types *)

(** C5 (the code departs from it).  Neither 'AssignSubVariableOp' nor
    'ResourceGather' is in the built-in list: the two literals are fused
    into one entry.  On the chain whose first operation is a
    ResourceGather, constructed with the defaults, [run] leaves that
    operation out of the excluded set and relocates its output: it is the
    source of the one triple. *)
Theorem resource_gather_is_relocated :
  mem_str "ResourceGather" _unused_types = false /\
  mem_str "AssignSubVariableOp" _unused_types = false /\
  mem_str "AssignSubVariableOpResourceGather" _unused_types = true /\
  exists self,
    run_on 6 (LMS_default (chain_graph "ResourceGather")) = Ok self /\
    type (graph_of self) 0%nat = "ResourceGather" /\
    mem_op 0%nat (_excl_ops self) = false /\
    _ops_triples self = [(0%nat, 5%nat, 7%nat)].
Proof.
  split; [reflexivity|]. split; [reflexivity|]. split; [reflexivity|].
  eexists. split.
  - vm_compute. reflexivity.
  - split; [reflexivity|]. split; reflexivity.
Qed.

(** ** Candidate selection: the first loop of [_insert_swap_nodes] *)

Lemma get_order_run self t o :
  _topo_sort self = Some t -> _get_order o self = Ok (get_order t o, self).
Proof. intros H. unfold _get_order. rewrite H. reflexivity. Qed.

Lemma bind_ok {A B} (m : M A) (k : A -> M B) s a s' :
  m s = Ok (a, s') -> bind m k s = k a s'.
Proof. intros H. unfold bind. rewrite H. reflexivity. Qed.

Lemma bind_raise {A B} (m : M A) (k : A -> M B) s e :
  m s = Raise e -> bind m k s = Raise e.
Proof. intros H. unfold bind. rewrite H. reflexivity. Qed.

Lemma is_cand_run self t rp c :
  _topo_sort self = Some t ->
  is_cand (Some rp) c self =
  match get_order t c with
  | Some rc => Ok (_swapout_threshold self <? rc - rp, self)
  | None => Raise TypeError
  end.
Proof.
  intros Ht. unfold is_cand.
  rewrite (bind_ok _ _ _ _ _ (get_order_run _ _ c Ht)).
  destruct (get_order t c); reflexivity.
Qed.

Lemma cands_ranked self t rp cs :
  _topo_sort self = Some t ->
  Forall (ranked t) cs ->
  filter_m (is_cand (Some rp)) cs self
  = Ok (far_consumers t (_swapout_threshold self) rp cs, self).
Proof.
  intros Ht Hall. induction Hall as [|c r Hc Hr IH]; [reflexivity|].
  simpl. unfold ranked in Hc.
  pose proof (is_cand_run self t rp c Ht) as Hrun.
  destruct (get_order t c) as [rc|]; [|congruence].
  rewrite (bind_ok _ _ _ _ _ Hrun), (bind_ok _ _ _ _ _ IH). reflexivity.
Qed.

Lemma cands_unranked self t rp cs c :
  _topo_sort self = Some t ->
  In c cs -> get_order t c = None ->
  filter_m (is_cand (Some rp)) cs self = Raise TypeError.
Proof.
  intros Ht Hin Hc. induction cs as [|a r IH]; [contradiction|].
  simpl. pose proof (is_cand_run self t rp a Ht) as Hrun.
  destruct (get_order t a) as [ra|] eqn:Ea.
  - rewrite (bind_ok _ _ _ _ _ Hrun).
    destruct Hin as [->|Hin]; [congruence|].
    rewrite (bind_raise _ _ _ _ (IH Hin)). reflexivity.
  - rewrite (bind_raise _ _ _ _ Hrun). reflexivity.
Qed.

(** Selection reads the object and never writes it: it returns, on the
    object as it was, or raises TypeError at a consumer without rank. *)
Lemma cands_cases self t rp cs :
  _topo_sort self = Some t ->
  (Forall (ranked t) cs /\
   filter_m (is_cand (Some rp)) cs self
   = Ok (far_consumers t (_swapout_threshold self) rp cs, self)) \/
  ((exists c, In c cs /\ get_order t c = None) /\
   filter_m (is_cand (Some rp)) cs self = Raise TypeError).
Proof.
  intros Ht.
  destruct (existsb (fun c => match get_order t c with
                              | Some _ => false
                              | None => true
                              end) cs) eqn:Ex.
  - right. apply existsb_exists in Ex. destruct Ex as (c & Hc & Hn).
    destruct (get_order t c) eqn:E; [discriminate|].
    split; [exists c; auto | eapply cands_unranked; eauto].
  - left. assert (Hall : Forall (ranked t) cs).
    { apply Forall_forall. intros c Hc. unfold ranked.
      destruct (get_order t c) eqn:E; [discriminate|]. exfalso.
      assert (Hf : existsb (fun c => match get_order t c with
                                     | Some _ => false
                                     | None => true
                                     end) cs = true).
      { apply existsb_exists. exists c. rewrite E. auto. }
      congruence. }
    split; [exact Hall | apply cands_ranked; assumption].
Qed.

Lemma filter_eq_is_cand src_op_order outs acc :
  _insert_swap_nodes_filter src_op_order outs acc =
  match outs with
  | [] => ret acc
  | ts :: r =>
      g <- gets graph_of ;;
      match ndims g ts with
      | None => _insert_swap_nodes_filter src_op_order r acc
      | Some n =>
          if n <=? 1 then _insert_swap_nodes_filter src_op_order r acc
          else
            cands <- filter_m (is_cand src_op_order) (ge_get_consuming_ops g [ts]) ;;
            match cands with
            | [] => _insert_swap_nodes_filter src_op_order r acc
            | _ => _insert_swap_nodes_filter src_op_order r (dict_set ts cands acc)
            end
      end
  end.
Proof. destruct outs; reflexivity. Qed.

Lemma filter_returns self t rp outs acc :
  _topo_sort self = Some t ->
  consumers_ranked (graph_of self) t outs ->
  _insert_swap_nodes_filter (Some rp) outs acc self
  = Ok (selected (graph_of self) t (_swapout_threshold self) rp outs acc, self).
Proof.
  intros Ht. revert acc. induction outs as [|ts r IH]; intros acc Hall; [reflexivity|].
  assert (Hr : consumers_ranked (graph_of self) t r).
  { intros u Hu. apply Hall. right. exact Hu. }
  rewrite filter_eq_is_cand. unfold bind at 1, gets.
  pose proof (Hall ts (or_introl eq_refl)) as Hts.
  simpl selected. unfold examined in *.
  destruct (ndims (graph_of self) ts) as [n|]; [|apply IH; exact Hr].
  destruct (n <=? 1); simpl; [apply IH; exact Hr|].
  rewrite (bind_ok _ _ _ _ _ (cands_ranked _ _ rp _ Ht (Hts eq_refl))).
  destruct (far_consumers _ _ _ _); apply IH; exact Hr.
Qed.

Lemma filter_raises self t rp outs acc ts c :
  _topo_sort self = Some t ->
  In ts outs -> examined (graph_of self) ts = true ->
  In c (ge_get_consuming_ops (graph_of self) [ts]) -> get_order t c = None ->
  _insert_swap_nodes_filter (Some rp) outs acc self = Raise TypeError.
Proof.
  intros Ht Hin Hex Hc Hnone. revert acc.
  induction outs as [|u r IH]; intros acc; [contradiction|].
  rewrite filter_eq_is_cand. unfold bind at 1, gets.
  destruct Hin as [->|Hin].
  - unfold examined in Hex. destruct (ndims (graph_of self) ts) as [n|]; [|discriminate].
    destruct (n <=? 1); [discriminate|].
    rewrite (bind_raise _ _ _ _ (cands_unranked _ _ _ _ _ Ht Hc Hnone)). reflexivity.
  - destruct (ndims (graph_of self) u) as [n|]; [|apply IH; exact Hin].
    destruct (n <=? 1); [apply IH; exact Hin|].
    destruct (cands_cases self t rp (ge_get_consuming_ops (graph_of self) [u]) Ht)
      as [[_ Hok]|[_ Hr]].
    + rewrite (bind_ok _ _ _ _ _ Hok).
      destruct (far_consumers _ _ _ _); apply IH; exact Hin.
    + rewrite (bind_raise _ _ _ _ Hr). reflexivity.
Qed.

Lemma tensor_eqb_eq a b : tensor_eqb a b = true <-> a = b.
Proof.
  unfold tensor_eqb. destruct a as [a1 a2], b as [b1 b2]. simpl.
  rewrite andb_true_iff, !Nat.eqb_eq. split.
  - intros [-> ->]. reflexivity.
  - intros H. inversion H. auto.
Qed.

Lemma tensor_eqb_refl a : tensor_eqb a a = true.
Proof. apply tensor_eqb_eq. reflexivity. Qed.

Lemma tensor_eqb_sym a b : tensor_eqb a b = tensor_eqb b a.
Proof.
  unfold tensor_eqb. rewrite (Nat.eqb_sym (fst a)), (Nat.eqb_sym (snd a)). reflexivity.
Qed.

Lemma mem_tensor_In t s : mem_tensor t s = true <-> In t s.
Proof.
  unfold mem_tensor. rewrite existsb_exists. split.
  - intros (u & Hu & E). apply tensor_eqb_eq in E. subst. exact Hu.
  - intros H. exists t. split; [exact H | apply tensor_eqb_refl].
Qed.

Lemma dict_get_set {V} k k0 (v : V) d :
  dict_get k (dict_set k0 v d) = if tensor_eqb k0 k then Some v else dict_get k d.
Proof.
  induction d as [|[k' v'] r IH]; simpl; [reflexivity|].
  destruct (tensor_eqb k' k0) eqn:E0; simpl.
  - apply tensor_eqb_eq in E0. subst k'. destruct (tensor_eqb k0 k); reflexivity.
  - destruct (tensor_eqb k' k) eqn:E1.
    + apply tensor_eqb_eq in E1. subst k'. rewrite tensor_eqb_sym, E0. reflexivity.
    + exact IH.
Qed.

(** An entry of [ts_dests] is exactly a tensor that was examined and has
    a distant consumer; its value is the list of its distant consumers. *)
Lemma selected_get g t threshold rp outs acc k :
  dict_get k (selected g t threshold rp outs acc) =
  if mem_tensor k outs && examined g k &&
     match far_consumers t threshold rp (ge_get_consuming_ops g [k]) with
     | [] => false
     | _ => true
     end
  then Some (far_consumers t threshold rp (ge_get_consuming_ops g [k]))
  else dict_get k acc.
Proof.
  revert acc. induction outs as [|ts r IH]; intros acc; [reflexivity|].
  cbn [selected mem_tensor existsb].
  destruct (tensor_eqb k ts) eqn:Ek.
  - apply tensor_eqb_eq in Ek. subst ts. simpl orb.
    destruct (examined g k); simpl andb.
    + destruct (far_consumers t threshold rp (ge_get_consuming_ops g [k])) eqn:Ef;
        rewrite IH.
      * destruct (mem_tensor k r); reflexivity.
      * rewrite dict_get_set, tensor_eqb_refl.
        destruct (mem_tensor k r); reflexivity.
    + rewrite IH. destruct (mem_tensor k r); reflexivity.
  - simpl orb.
    destruct (examined g ts);
      [destruct (far_consumers t threshold rp (ge_get_consuming_ops g [ts]))|];
      rewrite IH; try reflexivity.
    rewrite dict_get_set, tensor_eqb_sym, Ek. reflexivity.
Qed.

Lemma In_ge_get_consuming_ops g ts c :
  In c (ge_get_consuming_ops g [ts]) <-> In c (consumers g ts).
Proof.
  unfold ge_get_consuming_ops, py_set. rewrite nodup_In. simpl.
  rewrite app_nil_r. reflexivity.
Qed.

Lemma In_far_consumers t threshold rp cs c :
  In c (far_consumers t threshold rp cs) <->
  In c cs /\ exists rc, get_order t c = Some rc /\ threshold < rc - rp.
Proof.
  unfold far_consumers. rewrite filter_In. split.
  - intros [Hc H]. split; [exact Hc|].
    destruct (get_order t c) as [rc|]; [|discriminate].
    exists rc. split; [reflexivity | apply Z.ltb_lt; exact H].
  - intros [Hc (rc & E & H)]. split; [exact Hc|].
    rewrite E. apply Z.ltb_lt. exact H.
Qed.

(** ** Selection and consumers without rank *)

Lemma log_info_run msg level self :
  exists self',
    _log_info msg level self = Ok (tt, self') /\
    config self' = config self /\ graph_of self' = graph_of self /\
    _ops_dict self' = _ops_dict self.
Proof.
  unfold _log_info.
  destruct ((level =? 0) || (_debug self && (level <=? _debug_level self)));
    eexists; (split; [reflexivity|]); repeat split.
Qed.

Lemma config_topo_sort s s' : config s' = config s -> _topo_sort s' = _topo_sort s.
Proof. unfold config. intros H. inversion H. reflexivity. Qed.

Lemma insert_swap_nodes_raises self t p rp ts c :
  _topo_sort self = Some t ->
  get_order t p = Some rp ->
  In ts (outputs (graph_of self) p) -> examined (graph_of self) ts = true ->
  In c (consumers (graph_of self) ts) -> get_order t c = None ->
  _insert_swap_nodes p self = Raise TypeError.
Proof.
  intros Ht Hp Hts Hex Hc Hnone. unfold _insert_swap_nodes.
  destruct (log_info_run (InfoOperation p None) 2 self) as (s1 & Hlog & Hcfg & Hg & _).
  rewrite (bind_ok _ _ _ _ _ Hlog).
  assert (Ht1 : _topo_sort s1 = Some t) by (rewrite (config_topo_sort _ _ Hcfg); exact Ht).
  unfold bind at 1, ret.
  rewrite (bind_ok _ _ _ _ _ (get_order_run _ _ p Ht1)).
  unfold bind at 1, gets. rewrite Hp.
  rewrite <- Hg in Hts, Hex, Hc.
  apply bind_raise. apply filter_raises with (t := t) (ts := ts) (c := c);
    try assumption.
  apply In_ge_get_consuming_ops. exact Hc.
Qed.

(** C9. Selection for a ranked producer returns exactly when every
    consumer of every examined output tensor (shape rank above 1) has a
    rank; at a consumer without rank the subtraction of the ranks raises
    TypeError, out of the selection loop and out of
    [_insert_swap_nodes].  A producer without rank is passed over by the
    traversal without error, and a ranked producer that is not excluded
    goes to [_insert_swap_nodes] with no look at its consumers. *)
Theorem selection_needs_ranked_consumers (self : LMS) (t : TOPOS) (p : op) :
  _topo_sort self = Some t ->
  let g := graph_of self in
  (forall rp, get_order t p = Some rp ->
     ((exists r, _insert_swap_nodes_filter (Some rp) (outputs g p) [] self = Ok r) <->
      consumers_ranked g t (outputs g p)) /\
     (forall ts c,
        In ts (outputs g p) -> examined g ts = true ->
        In c (consumers g ts) -> get_order t c = None ->
        _insert_swap_nodes_filter (Some rp) (outputs g p) [] self = Raise TypeError /\
        _insert_swap_nodes p self = Raise TypeError) /\
     (mem_op p (_excl_ops self) = false -> _incl_ops self = [] ->
      _do_action_visit p self = _insert_swap_nodes p self)) /\
  (get_order t p = None -> _do_action_visit p self = Ok (tt, self)).
Proof.
  intros Ht g. split.
  - intros rp Hp. split; [split|split].
    + intros [r Hr] ts Hts Hex. apply Forall_forall. intros c Hc Hnone.
      rewrite (filter_raises self t rp _ [] ts c Ht Hts Hex Hc Hnone) in Hr.
      discriminate.
    + intros Hall. eexists. apply filter_returns; eassumption.
    + intros ts c Hts Hex Hc Hnone. split.
      * eapply filter_raises; try eassumption.
        apply In_ge_get_consuming_ops. exact Hc.
      * eapply insert_swap_nodes_raises; eassumption.
    + intros Hex Hincl. unfold _do_action_visit.
      unfold bind at 1, gets. rewrite Hex.
      rewrite (bind_ok _ _ _ _ _ (get_order_run _ _ p Ht)). rewrite Hp.
      unfold bind at 1, gets. rewrite Hincl. reflexivity.
  - intros Hp. unfold _do_action_visit. unfold bind at 1, gets.
    destruct (mem_op p (_excl_ops self)); [reflexivity|].
    rewrite (bind_ok _ _ _ _ _ (get_order_run _ _ p Ht)). rewrite Hp. reflexivity.
Qed.

Lemma selection_needs_ranked_consumers_witness :
  _insert_swap_nodes 0%nat unranked_LMS = Raise TypeError /\
  _do_action_visit 4%nat unranked_LMS = Ok (tt, unranked_LMS).
Proof.
  pose proof (selection_needs_ranked_consumers unranked_LMS unranked_topos) as H.
  split.
  - destruct (H 0%nat eq_refl) as [Hp _].
    destruct (Hp 10 eq_refl) as (_ & Hraise & _).
    apply (Hraise (0%nat, 0%nat) 4%nat).
    + simpl. left. reflexivity.
    + reflexivity.
    + simpl. right. right. right. left. reflexivity.
    + reflexivity.
  - destruct (H 4%nat eq_refl) as [_ Hskip]. apply Hskip. reflexivity.
Defined.

(** ** The trigger search, [_do_direct_order] *)

Lemma cache_only_refl s : cache_only s s.
Proof. repeat split. Qed.

Lemma cache_only_trans a b c : cache_only a b -> cache_only b c -> cache_only a c.
Proof.
  intros (H1 & H2 & H3) (K1 & K2 & K3). repeat split; congruence.
Qed.

Lemma cache_only_graph_of s s' : cache_only s s' -> graph_of s' = graph_of s.
Proof. intros (_ & H & _). unfold graph_of. rewrite H. reflexivity. Qed.

Lemma cache_only_topo s s' : cache_only s s' -> _topo_sort s' = _topo_sort s.
Proof. intros (H & _). apply config_topo_sort. exact H. Qed.

Lemma ops_dict_get_app k d o w :
  ops_dict_get k (d ++ [(o, w)]) =
  match ops_dict_get k d with
  | Some v => Some v
  | None => if Nat.eqb o k then Some w else None
  end.
Proof.
  induction d as [|[k' v'] r IH]; simpl; [reflexivity|].
  destruct (Nat.eqb k' k); [reflexivity | exact IH].
Qed.

Lemma get_forward_walk_ops_run o self :
  cache_coherent self ->
  exists self',
    _get_forward_walk_ops o true self
    = Ok (ge_get_forward_walk_ops (graph_of self) o, self') /\
    cache_only self self' /\ cache_coherent self'.
Proof.
  intros Hc. unfold _get_forward_walk_ops. unfold bind at 1, gets.
  destruct (ops_dict_get o (_ops_dict self)) as [walk|] eqn:E.
  - exists self. rewrite (Hc o walk E). split; [reflexivity|].
    split; [apply cache_only_refl | exact Hc].
  - eexists. split; [reflexivity|]. split; [repeat split|].
    intros k w. simpl. rewrite ops_dict_get_app.
    destruct (ops_dict_get k (_ops_dict self)) eqn:Ek.
    + intros H. inversion H; subst. apply (Hc k w Ek).
    + destruct (Nat.eqb_spec o k); [|discriminate].
      intros H. inversion H; subst. reflexivity.
Qed.

Lemma In_triggers_at g t src_op i o :
  In o (triggers_at g t src_op i) <-> is_trigger g t src_op i o.
Proof.
  unfold triggers_at, is_trigger. rewrite !filter_In, negb_true_iff, mem_op_In.
  unfold py_set. rewrite nodup_In. tauto.
Qed.

Lemma on_path_run src_op self cands :
  cache_coherent self ->
  exists self',
    filter_m (fun o => walk <- _get_forward_walk_ops o true ;;
                       ret (mem_op src_op (py_set walk))) cands self
    = Ok (filter (fun o => mem_op src_op
                             (py_set (ge_get_forward_walk_ops (graph_of self) o))) cands,
          self') /\
    cache_only self self' /\ cache_coherent self'.
Proof.
  revert self. induction cands as [|o r IH]; intros self Hc.
  - exists self. split; [reflexivity|]. split; [apply cache_only_refl | exact Hc].
  - destruct (get_forward_walk_ops_run o self Hc) as (s1 & Hrun & Hco & Hc1).
    destruct (IH s1 Hc1) as (s2 & Hrun2 & Hco2 & Hc2).
    exists s2. split.
    + simpl. unfold bind at 1. unfold bind at 1. rewrite Hrun. unfold ret at 1.
      rewrite (bind_ok _ _ _ _ _ Hrun2).
      rewrite (cache_only_graph_of _ _ Hco). reflexivity.
    + split; [eapply cache_only_trans; eassumption | exact Hc2].
Qed.

Lemma get_ops_by_order_run self t i :
  _topo_sort self = Some t -> _get_ops_by_order i self = Ok (get_ops t i, self).
Proof. intros H. unfold _get_ops_by_order. rewrite H. reflexivity. Qed.

Lemma do_direct_order_for_run src_op orders self t :
  _topo_sort self = Some t -> cache_coherent self ->
  exists self',
    _do_direct_order_for src_op orders self
    = Ok (first_trigger (triggers_at (graph_of self) t src_op) orders, self') /\
    cache_only self self' /\ cache_coherent self'.
Proof.
  revert self. induction orders as [|i r IH]; intros self Ht Hc.
  - exists self. split; [reflexivity|]. split; [apply cache_only_refl | exact Hc].
  - destruct (on_path_run src_op self (get_ops t i) Hc) as (s1 & Hrun & Hco & Hc1).
    assert (Ht1 : _topo_sort s1 = Some t) by (rewrite (cache_only_topo _ _ Hco); exact Ht).
    destruct (IH s1 Ht1 Hc1) as (s2 & Hrun2 & Hco2 & Hc2).
    simpl _do_direct_order_for.
    rewrite (bind_ok _ _ _ _ _ (get_ops_by_order_run _ _ i Ht)).
    rewrite (bind_ok _ _ _ _ _ Hrun).
    unfold bind at 1, gets. rewrite (cache_only_graph_of _ _ Hco).
    simpl first_trigger. fold (triggers_at (graph_of self) t src_op i).
    destruct (triggers_at (graph_of self) t src_op i) eqn:E.
    + exists s2. rewrite Hrun2, (cache_only_graph_of _ _ Hco).
      split; [reflexivity|]. split; [eapply cache_only_trans; eassumption | exact Hc2].
    + exists s1. split; [reflexivity|]. split; assumption.
Qed.

Lemma rev_range_S lb n :
  rev (map (fun k => lb + Z.of_nat k) (seq 0 (S n))) =
  (lb + Z.of_nat n) :: rev (map (fun k => lb + Z.of_nat k) (seq 0 n)).
Proof. rewrite seq_S, map_app, rev_app_distr. reflexivity. Qed.

(** Over the ranks lb + n - 1, ..., lb the loop stops at the highest
    rank that has a candidate. *)
Lemma first_trigger_desc cands_at lb n :
  let r := first_trigger cands_at (rev (map (fun k => lb + Z.of_nat k) (seq 0 n))) in
  (fst r = [] ->
   snd r = -1 /\ forall j, lb <= j < lb + Z.of_nat n -> cands_at j = []) /\
  (fst r <> [] ->
   lb <= snd r < lb + Z.of_nat n /\ fst r = cands_at (snd r) /\
   forall j, snd r < j < lb + Z.of_nat n -> cands_at j = []).
Proof.
  induction n as [|n IH].
  - simpl. split.
    + intros _. split; [reflexivity | intros j Hj; lia].
    + intros H. congruence.
  - rewrite rev_range_S. cbn [first_trigger].
    destruct (cands_at (lb + Z.of_nat n)) as [|c cs] eqn:E.
    + cbv zeta in IH. destruct IH as [IH0 IH1]. split.
      * intros H. destruct (IH0 H) as [Hs Hall]. split; [exact Hs|].
        intros j Hj. destruct (Z.eq_dec j (lb + Z.of_nat n)) as [->|Hne];
          [exact E | apply Hall; lia].
      * intros H. destruct (IH1 H) as (Hr & Hf & Hall).
        split; [lia|]. split; [exact Hf|].
        intros j Hj. destruct (Z.eq_dec j (lb + Z.of_nat n)) as [->|Hne];
          [exact E | apply Hall; lia].
    + cbn [fst snd]. split; [discriminate|]. intros _.
      split; [lia|]. split; [symmetry; exact E|]. intros j Hj. lia.
Qed.

Lemma do_direct_order_run self t fw_op src_op distance fw_order src_order :
  _topo_sort self = Some t -> cache_coherent self ->
  get_order t fw_op = Some fw_order -> get_order t src_op = Some src_order ->
  exists self',
    _do_direct_order fw_op src_op distance self
    = Ok (match fst (first_trigger (triggers_at (graph_of self) t src_op)
                       (rev (py_range (fw_order + 1) (src_order - distance)))) with
          | ctrld_op :: _ =>
              (Some ctrld_op,
               snd (first_trigger (triggers_at (graph_of self) t src_op)
                      (rev (py_range (fw_order + 1) (src_order - distance)))))
          | [] => (None, -1)
          end, self') /\
    cache_only self self' /\ cache_coherent self'.
Proof.
  intros Ht Hc Hfw Hsrc. unfold _do_direct_order.
  rewrite (bind_ok _ _ _ _ _ (get_order_run _ _ fw_op Ht)).
  rewrite (bind_ok _ _ _ _ _ (get_order_run _ _ src_op Ht)).
  rewrite Hfw, Hsrc. unfold py_sub, py_add, lift. unfold bind at 1. unfold bind at 1.
  destruct (do_direct_order_for_run src_op
              (rev (py_range (fw_order + 1) (src_order - distance))) self t Ht Hc)
    as (s1 & Hrun & Hco & Hc1).
  rewrite (bind_ok _ _ _ _ _ Hrun).
  exists s1. split; [|split; assumption].
  destruct (fst (first_trigger _ _)); reflexivity.
Qed.

(** C7. With producer [fw_op] and anchor consumer [src_op] both ranked,
    the search returns.  When it finds an operation, that operation has a
    rank strictly between rank(fw_op) and rank(src_op) - distance, it is
    of that rank, [src_op] is forward-reachable from it and its name has
    no "/cond/" part, and no rank above it in the window has such an
    operation.  When it finds none, no rank of the window has one, and
    [_add_control_dependency] then returns with the graph as it was and
    one more message for the log (kept when the debug level lets it
    through) instead of raising. *)
Theorem trigger_search_window (self : LMS) (t : TOPOS) (fw_op src_op swapin_op : op)
        (distance fw_order src_order : Z) :
  _topo_sort self = Some t -> cache_coherent self ->
  get_order t fw_op = Some fw_order -> get_order t src_op = Some src_order ->
  let g := graph_of self in
  exists re self',
    _do_direct_order fw_op src_op distance self = Ok (re, self') /\
    graph_of self' = g /\
    match fst re with
    | Some ctrld_op =>
        fw_order < snd re < src_order - distance /\
        is_trigger g t src_op (snd re) ctrld_op /\
        forall j o, snd re < j < src_order - distance -> ~ is_trigger g t src_op j o
    | None =>
        snd re = -1 /\
        (forall j o, fw_order < j < src_order - distance -> ~ is_trigger g t src_op j o) /\
        exists self'',
          _add_control_dependency fw_op src_op swapin_op distance self = Ok (tt, self'') /\
          graph_of self'' = g /\
          tf_logging self'' =
          tf_logging self ++
            (if _debug self && (1 <=? _debug_level self)
             then [(1, InfoNoControlDependency (name g fw_op))] else [])
    end.
Proof.
  intros Ht Hc Hfw Hsrc g.
  destruct (do_direct_order_run self t fw_op src_op distance fw_order src_order
              Ht Hc Hfw Hsrc) as (s1 & Hrun & Hco & Hc1).
  fold g in Hrun.
  pose proof (first_trigger_desc (triggers_at g t src_op) (fw_order + 1)
                (Z.to_nat (src_order - distance - (fw_order + 1)))) as Hft.
  cbv zeta in Hft. fold (py_range (fw_order + 1) (src_order - distance)) in Hft.
  set (r := first_trigger (triggers_at g t src_op)
              (rev (py_range (fw_order + 1) (src_order - distance)))) in *.
  destruct Hft as [Hnone Hsome].
  eexists. exists s1. split; [exact Hrun|].
  split; [apply cache_only_graph_of; exact Hco|].
  destruct (fst r) as [|c cs] eqn:Er; cbn [fst snd].
  - destruct (Hnone eq_refl) as [_ Hall]. split; [reflexivity|]. split.
    + intros j o Hj Ho. apply In_triggers_at in Ho. rewrite Hall in Ho by lia. exact Ho.
    + unfold _add_control_dependency. rewrite (bind_ok _ _ _ _ _ Hrun). cbn [fst].
      unfold bind at 1, gets. rewrite (cache_only_graph_of _ _ Hco). fold g.
      destruct Hco as (Hcfg & Hgr & Hlog).
      assert (Hd : _debug s1 = _debug self /\ _debug_level s1 = _debug_level self).
      { unfold config in Hcfg. inversion Hcfg. split; reflexivity. }
      destruct Hd as [Hd Hl].
      unfold _log_info. rewrite Hd, Hl. simpl orb.
      destruct (_debug self && (1 <=? _debug_level self)); eexists;
        (split; [reflexivity|]); split.
      * unfold graph_of, g. simpl. rewrite Hgr. reflexivity.
      * simpl. rewrite Hlog. reflexivity.
      * unfold graph_of, g. rewrite Hgr. reflexivity.
      * rewrite Hlog, app_nil_r. reflexivity.
  - destruct Hsome as (Hr & Hf & Hall); [discriminate|].
    assert (Hin : In c (triggers_at g t src_op (snd r))).
    { rewrite <- Hf. left. reflexivity. }
    split; [lia|]. split; [apply In_triggers_at; exact Hin|].
    intros j o Hj Ho. apply In_triggers_at in Ho. rewrite Hall in Ho by lia. exact Ho.
Qed.

Lemma trigger_search_window_witness :
  exists re self',
    _do_direct_order 0%nat 5%nat 3 chain_LMS = Ok (re, self') /\
    fst re = Some 1%nat /\ snd re = 1.
Proof.
  destruct (trigger_search_window chain_LMS
              (TOPOS_build (chain_graph "MatMul")
                           (ge_make_list_of_op (chain_graph "MatMul")))
              0%nat 5%nat 7%nat 3 0 5)
    as (re & self' & Hrun & _ & _).
  - reflexivity.
  - intros o walk H. discriminate H.
  - reflexivity.
  - reflexivity.
  - exists re, self'. split; [exact Hrun|].
    vm_compute in Hrun. inversion Hrun. split; reflexivity.
Defined.

(** ** The auto strategy, [_sequential_strategy] *)

Lemma keeps_get_forward_walk_ops o b : keeps_config (_get_forward_walk_ops o b).
Proof. unfold _get_forward_walk_ops, keeps_config. keeps. Qed.

Lemma keeps_do_direct_order_for src_op orders :
  keeps_config (_do_direct_order_for src_op orders).
Proof.
  unfold keeps_config. induction orders as [|i r IH]; simpl.
  - keeps.
  - keeps_step; [apply keeps_get_ops_by_order|].
    keeps_step.
    { keeps_step. keeps_step; [apply keeps_get_forward_walk_ops | keeps]. }
    keeps_step; [keeps|].
    destruct (filter _ _); [exact IH | keeps].
Qed.

Lemma keeps_do_direct_order fw_op src_op distance :
  keeps_config (_do_direct_order fw_op src_op distance).
Proof.
  unfold _do_direct_order, keeps_config.
  do 4 (keeps_step; [keeps|]).
  keeps_step; [apply keeps_do_direct_order_for | keeps].
Qed.

Lemma keeps_add_control_dependency src_op dest_op swapin_op ahead :
  keeps_config (_add_control_dependency src_op dest_op swapin_op ahead).
Proof.
  unfold _add_control_dependency, keeps_config.
  keeps_step; [apply keeps_do_direct_order|].
  destruct (fst _).
  - keeps_step; [apply keeps_add_control_inputs | keeps].
  - keeps.
Qed.

Lemma bind_ext {A B} (m : M A) (k k' : A -> M B) s :
  (forall a s1, m s = Ok (a, s1) -> k a s1 = k' a s1) ->
  bind m k s = bind m k' s.
Proof.
  intros H. unfold bind. destruct (m s) as [[a s1]|e] eqn:E; [|reflexivity].
  apply H. reflexivity.
Qed.

Lemma bind_ret_l {A B} (a : A) (k : A -> M B) s : bind (ret a) k s = k a s.
Proof. reflexivity. Qed.

Lemma bind_lift_ok {A B} (a : A) (k : A -> M B) s : bind (lift (Ok a)) k s = k a s.
Proof. reflexivity. Qed.

Lemma bind_gets {A B} (f : LMS -> A) (k : A -> M B) s : bind (gets f) k s = k (f s) s.
Proof. reflexivity. Qed.

Lemma bind_congr_l {A B} (m m' : M A) (k : A -> M B) s :
  m s = m' s -> bind m k s = bind m' k s.
Proof. intros H. unfold bind. rewrite H. reflexivity. Qed.

Lemma bind_assoc {A B C} (m : M A) (k : A -> M B) (h : B -> M C) s :
  bind (bind m k) h s = bind m (fun a => bind (k a) h) s.
Proof.
  unfold bind. destruct (m s) as [[a s1]|e]; reflexivity.
Qed.

Lemma for_each_app {A} (xs ys : list A) (body : A -> M unit) s :
  for_each (xs ++ ys) body s = bind (for_each xs body) (fun _ => for_each ys body) s.
Proof.
  revert s. induction xs as [|x r IH]; intros s; simpl; [reflexivity|].
  rewrite bind_assoc. apply bind_ext. intros a s1 _. apply IH.
Qed.

(** Sorting. *)
Lemma In_insert_by {A} (key : A -> Z) a x l :
  In x (insert_by key a l) <-> x = a \/ In x l.
Proof.
  induction l as [|b r IH]; simpl.
  - intuition.
  - destruct (key b <=? key a); simpl; rewrite ?IH; intuition.
Qed.

Lemma In_sorted_by {A} (key : A -> Z) x l : In x (sorted_by key l) <-> In x l.
Proof.
  induction l as [|a r IH]; simpl; [reflexivity|].
  rewrite In_insert_by, IH. intuition.
Qed.

Lemma insert_by_sorted {A} (key : A -> Z) a l :
  StronglySorted Z.le (map key l) ->
  StronglySorted Z.le (map key (insert_by key a l)).
Proof.
  induction l as [|b r IH]; simpl; intros H.
  - constructor; constructor.
  - inversion H as [|? ? Hr Hb]; subst.
    destruct (key b <=? key a) eqn:E; simpl.
    + constructor; [apply IH; exact Hr|].
      apply Forall_forall. intros z Hz. apply in_map_iff in Hz.
      destruct Hz as (x & <- & Hx). apply In_insert_by in Hx.
      destruct Hx as [->|Hx]; [apply Z.leb_le; exact E|].
      rewrite Forall_forall in Hb. apply Hb. apply in_map. exact Hx.
    + apply Z.leb_gt in E. constructor; [exact H|].
      constructor; [lia|].
      rewrite Forall_forall in *. intros z Hz. specialize (Hb z Hz). lia.
Qed.

Lemma sorted_by_sorted {A} (key : A -> Z) l :
  StronglySorted Z.le (map key (sorted_by key l)).
Proof.
  induction l as [|a r IH]; simpl; [constructor|].
  apply insert_by_sorted. exact IH.
Qed.

Lemma insert_by_map {A B} (h : A -> B) (key : B -> Z) a l :
  insert_by key (h a) (map h l) = map h (insert_by (fun x => key (h x)) a l).
Proof.
  induction l as [|b r IH]; simpl; [reflexivity|].
  destruct (key (h b) <=? key (h a)); simpl; [rewrite IH|]; reflexivity.
Qed.

Lemma sorted_by_map {A B} (h : A -> B) (key : B -> Z) l :
  sorted_by key (map h l) = map h (sorted_by (fun x => key (h x)) l).
Proof.
  induction l as [|a r IH]; simpl; [reflexivity|].
  rewrite IH, insert_by_map. reflexivity.
Qed.

Lemma length_insert_by {A} (key : A -> Z) a l :
  List.length (insert_by key a l) = S (List.length l).
Proof.
  induction l as [|b r IH]; simpl; [reflexivity|].
  destruct (key b <=? key a); simpl; [rewrite IH|]; reflexivity.
Qed.

Lemma length_sorted_by {A} (key : A -> Z) l :
  List.length (sorted_by key l) = List.length l.
Proof.
  induction l as [|a r IH]; simpl; [reflexivity|].
  rewrite length_insert_by, IH. reflexivity.
Qed.

Lemma anchor_order t tr :
  anchor_ranked t tr -> get_order t (snd (fst tr)) = Some (order_of t tr).
Proof.
  unfold anchor_ranked, order_of. destruct (get_order t (snd (fst tr))); congruence.
Qed.

Lemma keeps_topo {A} (m : M A) s a s' t :
  keeps_config m -> m s = Ok (a, s') -> _topo_sort s = Some t -> _topo_sort s' = Some t.
Proof.
  intros Hk Hrun Ht. rewrite (config_topo_sort _ _ (Hk _ _ _ Hrun)). exact Ht.
Qed.

Lemma sequential_first_run t o0 x :
  Forall (anchor_ranked t) x ->
  forall i k s, _topo_sort s = Some t ->
    _sequential_strategy_first (Some o0) x i k s =
    bind (for_each (combine (firstn (first_run o0 (map (order_of t) x)) x)
                            (repeat 3 (first_run o0 (map (order_of t) x))))
                   schedule_call)
         (fun _ => ret (if Nat.eqb (first_run o0 (map (order_of t) x)) 0 then k
                        else (i + first_run o0 (map (order_of t) x) - 1)%nat)) s.
Proof.
  induction 1 as [|tr r Htr Hr IH]; intros i k s Ht; [reflexivity|].
  cbn [_sequential_strategy_first map first_run].
  rewrite (bind_ok _ _ _ _ _ (get_order_run _ _ _ Ht)).
  rewrite (anchor_order _ _ Htr). cbn [py_eq].
  destruct (order_of t tr =? o0); [|reflexivity].
  cbn [firstn repeat combine for_each Nat.eqb].
  rewrite bind_assoc. apply bind_ext. intros a s1 Hrun.
  rewrite IH by (eapply keeps_topo; [apply keeps_add_control_dependency | exact Hrun | exact Ht]).
  apply bind_ext. intros _ s2 _. unfold ret. f_equal. f_equal.
  destruct (first_run o0 (map (order_of t) r)); simpl; lia.
Qed.

Lemma sequential_rest_run t x :
  Forall (anchor_ranked t) x ->
  forall lb last_order s, _topo_sort s = Some t ->
    _sequential_strategy_rest x (Some lb) (Some last_order) s =
    for_each (combine x (aheads_rest (map (order_of t) x) lb last_order)) schedule_call s.
Proof.
  induction 1 as [|tr r Htr Hr IH]; intros lb last_order s Ht; [reflexivity|].
  cbn [_sequential_strategy_rest map aheads_rest combine for_each].
  rewrite (bind_ok _ _ _ _ _ (get_order_run _ _ _ Ht)).
  rewrite (anchor_order _ _ Htr). cbn [py_eq].
  destruct (negb (order_of t tr =? last_order)); cbn [py_sub lift];
    unfold bind at 1; apply bind_ext; intros a s1 Hrun; apply IH;
    (eapply keeps_topo; [apply keeps_add_control_dependency | exact Hrun | exact Ht]).
Qed.

Lemma keyed_run {A} t (f : A -> op) (triples : list A) s :
  _topo_sort s = Some t ->
  map_m (fun tr => order <- _get_order (f tr) ;; ret (tr, order)) triples s
  = Ok (map (fun tr => (tr, get_order t (f tr))) triples, s).
Proof.
  intros Ht. induction triples as [|tr r IH]; [reflexivity|].
  cbn [map_m map]. rewrite bind_assoc.
  rewrite (bind_ok _ _ _ _ _ (get_order_run _ _ _ Ht)).
  rewrite bind_ret_l, (bind_ok _ _ _ _ _ IH). reflexivity.
Qed.

Lemma all_some_ranked {A} (key : A -> option Z) l :
  Forall (fun a => key a <> None) l -> all_some (map key l) <> None.
Proof.
  induction 1 as [|a r Ha Hr IH]; simpl; [discriminate|].
  destruct (key a); [|congruence].
  destruct (all_some (map key r)); [discriminate | congruence].
Qed.

Lemma py_sorted_key_long {A} (key : A -> option Z) (xs : list A) :
  (2 <= List.length xs)%nat ->
  py_sorted_key key xs =
  match all_some (map key xs) with
  | Some _ => Ok (sorted_by (fun a => match key a with
                                      | Some z => z
                                      | None => 0
                                      end) (rev xs))
  | None => Raise TypeError
  end.
Proof.
  destruct xs as [|a [|b r]]; simpl; intros H; try lia. reflexivity.
Qed.

(** On triples with ranked anchors [sorted] returns them by anchor rank,
    triples of one rank in their order of creation. *)
Lemma sorted_triples_run t triples :
  Forall (anchor_ranked t) triples ->
  exists sorted,
    py_sorted_key snd (map (fun tr => (tr, get_order t (snd (fst tr)))) triples)
    = Ok sorted /\
    map fst sorted = sorted_by (order_of t) (rev triples).
Proof.
  intros Hall.
  destruct (le_lt_dec 2 (List.length triples)) as [Hlen|Hlen].
  - rewrite py_sorted_key_long by (rewrite length_map; exact Hlen).
    assert (Hs : all_some (map snd (map (fun tr => (tr, get_order t (snd (fst tr))))
                                        triples)) <> None).
    { rewrite map_map. apply all_some_ranked. exact Hall. }
    destruct (all_some _); [|congruence].
    eexists. split; [reflexivity|].
    rewrite <- map_rev, sorted_by_map, map_map. cbn [fst snd].
    rewrite map_id. reflexivity.
  - destruct triples as [|a [|b r]]; simpl in Hlen; try lia.
    + exists []. split; reflexivity.
    + eexists. split; reflexivity.
Qed.

Lemma combine_app_same {A B} (l1 l2 : list A) (m1 m2 : list B) :
  List.length l1 = List.length m1 ->
  combine (l1 ++ l2) (m1 ++ m2) = combine l1 m1 ++ combine l2 m2.
Proof.
  revert m1. induction l1 as [|a r IH]; intros [|b m1] H; simpl in *; try discriminate.
  - reflexivity.
  - rewrite IH by congruence. reflexivity.
Qed.

Lemma first_run_le o0 os : (first_run o0 os <= List.length os)%nat.
Proof.
  induction os as [|o r IH]; simpl; [lia|].
  destruct (o =? o0); simpl; lia.
Qed.

(** [_sequential_strategy] is the schedule: the sorted triples, each with
    its lookahead, go to [_add_control_dependency] one after the other. *)
Lemma sequential_strategy_schedule self t :
  _topo_sort self = Some t ->
  _ops_triples self <> [] ->
  Forall (anchor_ranked t) (_ops_triples self) ->
  _sequential_strategy self =
  for_each (combine (sorted_by (order_of t) (rev (_ops_triples self)))
                    (sequential_aheads
                       (map (order_of t)
                            (sorted_by (order_of t) (rev (_ops_triples self))))))
           schedule_call self.
Proof.
  intros Ht Hne Hall. unfold _sequential_strategy.
  unfold bind at 1, gets.
  rewrite (bind_ok _ _ _ _ _ (keyed_run t (fun tr => snd (fst tr)) _ self Ht)).
  destruct (sorted_triples_run t _ Hall) as (sorted & Hsorted & Hx).
  rewrite Hsorted, bind_lift_ok, Hx.
  set (x := sorted_by (order_of t) (rev (_ops_triples self))).
  assert (Hxall : Forall (anchor_ranked t) x).
  { apply Forall_forall. intros tr Htr. unfold x in Htr.
    apply In_sorted_by in Htr. apply in_rev in Htr.
    rewrite Forall_forall in Hall. apply Hall. exact Htr. }
  destruct x as [|x0 xr] eqn:Ex.
  { exfalso. apply Hne. apply (f_equal (@List.length _)) in Ex.
    unfold x in Ex. rewrite length_sorted_by, length_rev in Ex.
    destruct (_ops_triples self); [reflexivity | discriminate]. }
  cbn [py_head]. rewrite bind_lift_ok.
  rewrite (bind_ok _ _ _ _ _ (get_order_run _ _ _ Ht)).
  assert (Hx0 : anchor_ranked t x0) by (inversion Hxall; assumption).
  rewrite (anchor_order _ _ Hx0).
  rewrite (bind_congr_l _ _ _ _
             (sequential_first_run t (order_of t x0) (x0 :: xr) Hxall 0%nat 0%nat self Ht)).
  rewrite bind_assoc.
  set (os := map (order_of t) (x0 :: xr)).
  set (n := first_run (order_of t x0) os).
  assert (Hn : (1 <= n <= List.length (x0 :: xr))%nat).
  { unfold n. split.
    - unfold os. cbn [map first_run]. rewrite Z.eqb_refl. lia.
    - rewrite <- (length_map (order_of t) (x0 :: xr)). apply first_run_le. }
  unfold sequential_aheads. fold os. unfold os at 1. cbn [map]. fold os. fold n.
  assert (Hsplit : forall R : list Z,
             combine (x0 :: xr) (repeat 3 n ++ R) =
             combine (firstn n (x0 :: xr)) (repeat 3 n) ++ combine (skipn n (x0 :: xr)) R).
  { intros R. rewrite <- (firstn_skipn n (x0 :: xr)) at 1.
    apply combine_app_same. rewrite repeat_length, length_firstn. lia. }
  rewrite Hsplit, for_each_app. apply bind_ext. intros u s1 Hrun.
  rewrite bind_ret_l.
  assert (Hk : ((if Nat.eqb n 0 then 0 else 0 + n - 1) + 1 = n)%nat).
  { destruct (Nat.eqb_spec n 0); lia. }
  rewrite Hk. unfold os. rewrite skipn_map.
  apply sequential_rest_run.
  - apply Forall_forall. intros tr Htr.
    rewrite Forall_forall in Hxall. apply Hxall.
    rewrite <- (firstn_skipn n (x0 :: xr)). apply in_or_app. right. exact Htr.
  - eapply keeps_topo; [| exact Hrun | exact Ht].
    apply (respects_for_each same_config same_config_refl same_config_trans).
    intros p. apply keeps_add_control_dependency.
Qed.

Lemma aheads_rest_props os :
  StronglySorted Z.le os ->
  forall seen lb last_order,
    Forall (fun o => last_order <= o) os ->
    (lb < last_order \/ (lb = last_order /\ Forall (fun o => last_order < o) os)) ->
    In last_order seen -> In lb seen ->
    (forall o, In o seen -> o <= last_order) ->
    (forall o, In o seen -> ~ (lb < o < last_order)) ->
    List.length (aheads_rest os lb last_order) = List.length os /\
    Forall (fun a => 1 <= a) (aheads_rest os lb last_order) /\
    Forall (fun p => gap_before (seen ++ os) (fst p) (snd p))
           (combine os (aheads_rest os lb last_order)) /\
    Forall (fun u => lb <= u)
           (map (fun p => fst p - snd p) (combine os (aheads_rest os lb last_order))) /\
    StronglySorted Z.le
           (map (fun p => fst p - snd p) (combine os (aheads_rest os lb last_order))).
Proof.
  induction 1 as [|c r Hr IH Hc]; intros seen lb last_order Hge Hlb Hlast Hlbin Hmax Hgap.
  - simpl. repeat split; constructor.
  - inversion Hge as [|? ? Hcl Hrl]; subst.
    cbn [aheads_rest].
    destruct (Z.eqb_spec c last_order) as [->|Hne]; cbn [negb].
    + assert (Hlt : lb < last_order).
      { destruct Hlb as [H|[_ H]]; [exact H|]. inversion H; lia. }
      destruct (IH (seen ++ [last_order]) lb last_order) as (L & A & G & U & S).
      * exact Hrl.
      * left. exact Hlt.
      * apply in_or_app. left. exact Hlast.
      * apply in_or_app. left. exact Hlbin.
      * intros o Ho. apply in_app_or in Ho. destruct Ho as [Ho|[<-|[]]]; [auto | lia].
      * intros o Ho. apply in_app_or in Ho. destruct Ho as [Ho|[<-|[]]]; [auto | lia].
      * rewrite <- app_assoc in G. cbn [app] in G.
        cbn [List.length combine map fst snd]. repeat split.
        -- rewrite L. reflexivity.
        -- constructor; [lia | exact A].
        -- constructor; [|exact G]. cbn [fst snd]. unfold gap_before.
           replace (last_order - (last_order - lb)) with lb by lia.
           split; [lia|]. split; [apply in_or_app; left; exact Hlbin|].
           intros o Ho. apply in_app_or in Ho. destruct Ho as [Ho|[<-|Ho]].
           ++ apply Hgap. exact Ho.
           ++ lia.
           ++ rewrite Forall_forall in Hrl. specialize (Hrl o Ho). lia.
        -- constructor; [lia | exact U].
        -- constructor; [exact S|].
           rewrite Forall_forall in *. intros u Hu. specialize (U u Hu). lia.
    + assert (Hlt : last_order < c) by lia.
      destruct (IH (seen ++ [c]) last_order c) as (L & A & G & U & S).
      * exact Hc.
      * left. exact Hlt.
      * apply in_or_app. right. left. reflexivity.
      * apply in_or_app. left. exact Hlast.
      * intros o Ho. apply in_app_or in Ho. destruct Ho as [Ho|[<-|[]]];
          [specialize (Hmax o Ho); lia | lia].
      * intros o Ho. apply in_app_or in Ho. destruct Ho as [Ho|[<-|[]]];
          [specialize (Hmax o Ho); lia | lia].
      * rewrite <- app_assoc in G. cbn [app] in G.
        assert (Hle : lb <= last_order) by (destruct Hlb as [H|[H _]]; lia).
        cbn [List.length combine map fst snd]. repeat split.
        -- rewrite L. reflexivity.
        -- constructor; [lia | exact A].
        -- constructor; [|exact G]. cbn [fst snd]. unfold gap_before.
           replace (c - (c - last_order)) with last_order by lia.
           split; [lia|]. split; [apply in_or_app; left; exact Hlast|].
           intros o Ho. apply in_app_or in Ho. destruct Ho as [Ho|[<-|Ho]].
           ++ specialize (Hmax o Ho). lia.
           ++ lia.
           ++ rewrite Forall_forall in Hc. specialize (Hc o Ho). lia.
        -- constructor; [lia|].
           rewrite Forall_forall in *. intros u Hu. specialize (U u Hu). lia.
        -- constructor; [exact S|].
           rewrite Forall_forall in *. intros u Hu. specialize (U u Hu). lia.
Qed.

Lemma first_run_split o0 os :
  StronglySorted Z.le os -> Forall (fun o => o0 <= o) os ->
  firstn (first_run o0 os) os = repeat o0 (first_run o0 os) /\
  Forall (fun o => o0 < o) (skipn (first_run o0 os) os) /\
  StronglySorted Z.le (skipn (first_run o0 os) os).
Proof.
  induction 1 as [|c r Hr IH Hc]; intros Hge.
  - simpl. repeat split; constructor.
  - inversion Hge as [|? ? Hc0 Hr0]; subst. cbn [first_run].
    destruct (Z.eqb_spec c o0) as [->|Hne].
    + destruct (IH Hr0) as (F & G & S). cbn [firstn skipn repeat].
      rewrite F. repeat split; assumption.
    + cbn [firstn skipn repeat]. repeat split.
      * constructor; [lia|]. rewrite Forall_forall in *. intros o Ho.
        specialize (Hc o Ho). lia.
      * constructor; assumption.
Qed.

(** The lookaheads over sorted anchor ranks: 3 at the lowest rank, the
    gap to the preceding distinct rank afterwards; rank minus lookahead
    never decreases. *)
Lemma sequential_aheads_props os :
  os <> [] -> StronglySorted Z.le os ->
  List.length (sequential_aheads os) = List.length os /\
  Forall (fun a => 1 <= a) (sequential_aheads os) /\
  Forall (fun p => (fst p = hd 0 os /\ snd p = 3) \/
                   (hd 0 os < fst p /\ gap_before os (fst p) (snd p)))
         (combine os (sequential_aheads os)) /\
  StronglySorted Z.le
    (map (fun p => fst p - snd p) (combine os (sequential_aheads os))).
Proof.
  intros Hne Hs. destruct os as [|o0 r]; [congruence|]. clear Hne.
  assert (Hge : Forall (fun o => o0 <= o) (o0 :: r)).
  { inversion Hs; subst. constructor; [lia | assumption]. }
  destruct (first_run_split o0 (o0 :: r) Hs Hge) as (F & G & S).
  unfold sequential_aheads. cbn [hd].
  set (os := o0 :: r) in *. set (n := first_run o0 os) in *.
  assert (Hn : (1 <= n <= List.length os)%nat).
  { split; [|apply first_run_le]. unfold n, os. cbn [first_run].
    rewrite Z.eqb_refl. lia. }
  assert (Hin0 : In o0 (firstn n os)).
  { rewrite F. destruct n; [lia | left; reflexivity]. }
  destruct (aheads_rest_props (skipn n os) S (firstn n os) o0 o0) as (L & A & P & U & T).
  - rewrite Forall_forall in *. intros o Ho. specialize (G o Ho). lia.
  - right. split; [reflexivity | exact G].
  - exact Hin0.
  - exact Hin0.
  - intros o Ho. rewrite F in Ho. apply repeat_spec in Ho. lia.
  - intros o Ho. lia.
  - rewrite firstn_skipn in P.
    assert (Hsplit : combine os (repeat 3 n ++ aheads_rest (skipn n os) o0 o0) =
                     combine (firstn n os) (repeat 3 n) ++
                     combine (skipn n os) (aheads_rest (skipn n os) o0 o0)).
    { rewrite <- (firstn_skipn n os) at 1. apply combine_app_same.
      rewrite repeat_length, length_firstn. lia. }
    assert (Hfirst : forall p, In p (combine (firstn n os) (repeat 3 n)) ->
                               fst p = o0 /\ snd p = 3).
    { intros [c a] Hp. split; cbn [fst snd].
      - apply in_combine_l in Hp. rewrite F in Hp. apply repeat_spec in Hp. exact Hp.
      - apply in_combine_r in Hp. apply repeat_spec in Hp. exact Hp. }
    repeat split.
    + rewrite length_app, repeat_length, L, length_skipn. lia.
    + apply Forall_app. split; [|exact A].
      apply Forall_forall. intros a Ha. apply repeat_spec in Ha. lia.
    + rewrite Hsplit. apply Forall_app. split.
      * apply Forall_forall. intros p Hp. left. apply Hfirst. exact Hp.
      * rewrite Forall_forall in *. intros p Hp. right. split; [|apply P; exact Hp].
        apply G. destruct p as [c a]. apply in_combine_l in Hp. exact Hp.
    + rewrite Hsplit, map_app.
      assert (Hpre : forall u, In u (map (fun p => fst p - snd p)
                                         (combine (firstn n os) (repeat 3 n))) ->
                               u = o0 - 3).
      { intros u Hu. apply in_map_iff in Hu. destruct Hu as (p & <- & Hp).
        destruct (Hfirst p Hp) as [-> ->]. reflexivity. }
      revert Hpre. generalize (map (fun p : Z * Z => fst p - snd p)
                                   (combine (firstn n os) (repeat 3 n))).
      intros l Hl. induction l as [|u l IHl]; [exact T|].
      cbn [app]. constructor.
      * apply IHl. intros v Hv. apply Hl. right. exact Hv.
      * apply Forall_app. split.
        -- apply Forall_forall. intros v Hv.
           rewrite (Hl u (or_introl eq_refl)), (Hl v (or_intror Hv)). lia.
        -- rewrite Forall_forall in *. intros v Hv. specialize (U v Hv).
           rewrite (Hl u (or_introl eq_refl)). lia.
Qed.

Lemma two_readers_triples :
  _ops_triples two_readers_swapped = [(0%nat, 4%nat, 7%nat); (0%nat, 5%nat, 8%nat)] /\
  _topo_sort two_readers_swapped = Some two_readers_topos /\
  map (order_of two_readers_topos) (_ops_triples two_readers_swapped) = [4; 5].
Proof. vm_compute. repeat split. Qed.

(** C3 as amended.  On triples with ranked anchors the auto strategy
    calls [_add_control_dependency] on the triples sorted by anchor rank,
    with these lookaheads: 3 for the triples of the lowest anchor rank,
    and for every later triple the gap between its anchor rank and the
    preceding distinct anchor rank, which is at least 1.  The anchor rank
    minus the lookahead, the upper end of the trigger window, never
    decreases along the sorted triples. *)
Theorem sequential_lookahead_is_rank_gap (self : LMS) (t : TOPOS) :
  _topo_sort self = Some t ->
  _ops_triples self <> [] ->
  Forall (anchor_ranked t) (_ops_triples self) ->
  let x := sorted_by (order_of t) (rev (_ops_triples self)) in
  let os := map (order_of t) x in
  let aheads := sequential_aheads os in
  _sequential_strategy self = for_each (combine x aheads) schedule_call self /\
  (forall tr, In tr x <-> In tr (_ops_triples self)) /\
  StronglySorted Z.le os /\
  List.length aheads = List.length x /\
  Forall (fun a => 1 <= a) aheads /\
  Forall (fun p => (fst p = hd 0 os /\ snd p = 3) \/
                   (hd 0 os < fst p /\ gap_before os (fst p) (snd p)))
         (combine os aheads) /\
  StronglySorted Z.le (map (fun p => fst p - snd p) (combine os aheads)).
Proof.
  intros Ht Hne Hall x os aheads.
  assert (Hs : StronglySorted Z.le os) by apply sorted_by_sorted.
  assert (Hos : os <> []).
  { intros E. apply Hne. apply (f_equal (@List.length _)) in E.
    unfold os, x in E. rewrite length_map, length_sorted_by, length_rev in E.
    destruct (_ops_triples self); [reflexivity | discriminate]. }
  destruct (sequential_aheads_props os Hos Hs) as (L & A & P & U).
  split; [apply sequential_strategy_schedule; assumption|].
  split.
  { intros tr. unfold x. rewrite In_sorted_by, <- in_rev. reflexivity. }
  split; [exact Hs|]. split.
  { unfold aheads. rewrite L. unfold os. apply length_map. }
  split; [exact A|]. split; assumption.
Qed.

Lemma sequential_lookahead_is_rank_gap_witness :
  _sequential_strategy two_readers_swapped =
  for_each [((0%nat, 4%nat, 7%nat), 3); ((0%nat, 5%nat, 8%nat), 1)]
           schedule_call two_readers_swapped.
Proof.
  destruct two_readers_triples as (Htr & Ht & _).
  destruct (sequential_lookahead_is_rank_gap two_readers_swapped two_readers_topos)
    as (Hrun & _).
  - exact Ht.
  - rewrite Htr. discriminate.
  - rewrite Htr. repeat constructor; discriminate.
  - rewrite Hrun, Htr. reflexivity.
Defined.

(** C3 as stated fails: for the anchor ranks 4 and 5 the auto strategy
    passes the lookaheads 3 and then 1. *)
Lemma lookahead_decreases_with_rank :
  map (order_of two_readers_topos) (_ops_triples two_readers_swapped) = [4; 5] /\
  _sequential_strategy two_readers_swapped =
  for_each [((0%nat, 4%nat, 7%nat), 3); ((0%nat, 5%nat, 8%nat), 1)]
           schedule_call two_readers_swapped /\
  ~ StronglySorted Z.le (sequential_aheads [4; 5]).
Proof.
  split; [apply two_readers_triples|]. split.
  - destruct two_readers_triples as (Htr & Ht & _).
    rewrite (sequential_strategy_schedule two_readers_swapped two_readers_topos Ht).
    + rewrite Htr. reflexivity.
    + rewrite Htr. discriminate.
    + rewrite Htr. repeat constructor; discriminate.
  - intros H. assert (E : sequential_aheads [4; 5] = [3; 1]) by reflexivity.
    rewrite E in H. inversion H as [|? ? _ Hf]. inversion Hf as [|? ? Hle _]. lia.
Qed.

(** ** The synchronous modes, [_sync_ops] *)

Lemma ctrl_grows_refl s : ctrl_grows s s.
Proof. repeat split; auto. Qed.

Lemma ctrl_grows_trans a b c : ctrl_grows a b -> ctrl_grows b c -> ctrl_grows a c.
Proof.
  intros (C1 & I1 & O1 & L1 & G1) (C2 & I2 & O2 & L2 & G2). repeat split.
  - eapply same_config_trans; eassumption.
  - intros x. rewrite I2. apply I1.
  - intros x. rewrite O2. apply O1.
  - congruence.
  - intros x y H. apply G2, G1, H.
Qed.

Lemma control_inputs_valid g o x :
  In x (control_inputs g o) -> (o < List.length g)%nat.
Proof.
  unfold control_inputs. destruct (nth_error g o) eqn:E; [|contradiction].
  intros _. apply nth_error_Some. congruence.
Qed.

Lemma add_control_inputs_call_ok op1 ops2 s u s' :
  add_control_inputs_call op1 ops2 s = Ok (u, s') ->
  ctrl_grows s s' /\
  ((op1 < List.length (graph_of s))%nat ->
   forall f, In f ops2 -> In f (control_inputs (graph_of s') op1)).
Proof.
  unfold add_control_inputs_call. rewrite bind_gets. unfold bind, lift, modify.
  destruct (ge_add_control_inputs (graph_of s) op1 ops2) as [g'|e] eqn:E; [|discriminate].
  intros H. inversion H; subst; clear H.
  destruct (ge_add_control_inputs_ok _ _ _ _ E) as (Hother & Hself & Hfo & Hfi & Hlen).
  unfold ctrl_grows. rewrite !graph_of_set_graph. split.
  - repeat split; try assumption.
    intros c x Hx. destruct (Nat.eq_dec c op1) as [->|Hne].
    + rewrite Hself. unfold control_inputs in Hx.
      destruct (nth_error (graph_of s) op1); [|contradiction].
      apply in_or_app. left. exact Hx.
    + rewrite Hother by exact Hne. exact Hx.
  - intros Hv f Hf. rewrite Hself.
    destruct (nth_error (graph_of s) op1) eqn:En.
    + apply in_or_app. right. exact Hf.
    + apply nth_error_None in En. lia.
Qed.

Lemma add_control_inputs_call_raises op1 ops2 s e :
  add_control_inputs_call op1 ops2 s = Raise e -> e = ValueError.
Proof.
  unfold add_control_inputs_call. rewrite bind_gets. unfold bind, lift, modify.
  unfold ge_add_control_inputs. destruct (existsb _ ops2); [|discriminate].
  intros H. inversion H. reflexivity.
Qed.

Lemma add_controls_eq ops1 ops2 :
  _add_controls ops1 ops2 = for_each ops1 (fun op1 => add_control_inputs_call op1 ops2).
Proof. reflexivity. Qed.

Lemma respects_add_controls ops1 ops2 : respects ctrl_grows (_add_controls ops1 ops2).
Proof.
  rewrite add_controls_eq.
  apply (respects_for_each ctrl_grows ctrl_grows_refl ctrl_grows_trans).
  intros op1 s u s' H. apply (add_control_inputs_call_ok _ _ _ _ _ H).
Qed.

Lemma add_controls_ok ops1 ops2 s u s' :
  _add_controls ops1 ops2 s = Ok (u, s') ->
  forall m f, In m ops1 -> (m < List.length (graph_of s))%nat -> In f ops2 ->
              In f (control_inputs (graph_of s') m).
Proof.
  rewrite add_controls_eq. revert s.
  induction ops1 as [|op1 r IH]; intros s H m f Hm Hv Hf; [contradiction|].
  cbn [for_each] in H. unfold bind in H.
  destruct (add_control_inputs_call op1 ops2 s) as [[u1 s1]|e] eqn:E; [|discriminate].
  destruct (add_control_inputs_call_ok _ _ _ _ _ E) as [Hg Hin].
  pose proof (respects_add_controls r ops2 s1 u s') as Hrest.
  rewrite add_controls_eq in Hrest. specialize (Hrest H).
  destruct Hm as [->|Hm].
  - destruct Hrest as (_ & _ & _ & _ & Hgrow). apply Hgrow. apply Hin; assumption.
  - apply (IH s1 H m f Hm); [|exact Hf].
    destruct Hg as (_ & _ & _ & Hlen & _). lia.
Qed.

Lemma raises_only_bind (E : error -> Prop) {A B} (m : M A) (k : A -> M B) :
  raises_only E m -> (forall a, raises_only E (k a)) -> raises_only E (bind m k).
Proof.
  intros Hm Hk s e H. unfold bind in H.
  destruct (m s) as [[a s1]|e1] eqn:E1.
  - apply (Hk a s1 e H).
  - inversion H; subst. apply (Hm s e E1).
Qed.

Lemma raises_only_for_each (E : error -> Prop) {A} (xs : list A) (body : A -> M unit) :
  (forall x, raises_only E (body x)) -> raises_only E (for_each xs body).
Proof.
  intros Hb. induction xs as [|x r IH]; cbn [for_each].
  - intros s e H. discriminate H.
  - apply raises_only_bind; [apply Hb | intros _; exact IH].
Qed.

Lemma raises_only_gets (E : error -> Prop) {A} (f : LMS -> A) : raises_only E (gets f).
Proof. intros s e H. discriminate H. Qed.

Lemma raises_only_ret (E : error -> Prop) {A} (a : A) : raises_only E (ret a).
Proof. intros s e H. discriminate H. Qed.

Lemma raises_only_add_controls ops1 ops2 :
  raises_only (fun e => e = ValueError) (_add_controls ops1 ops2).
Proof.
  rewrite add_controls_eq. apply raises_only_for_each.
  intros op1 s e H. apply (add_control_inputs_call_raises _ _ _ _ H).
Qed.

Lemma config_sets s s' :
  config s' = config s ->
  _swapin_ops s' = _swapin_ops s /\ _swapout_ops s' = _swapout_ops s /\
  _ops_triples s' = _ops_triples s /\ _excl_ops s' = _excl_ops s /\
  _incl_ops s' = _incl_ops s.
Proof. unfold config. intros H. inversion H. repeat split; reflexivity. Qed.

Lemma In_op_inter a s t : In a (op_inter s t) <-> In a s /\ In a t.
Proof. unfold op_inter. rewrite filter_In, mem_op_In. reflexivity. Qed.

Lemma In_op_diff a s t : In a (op_diff s t) <-> In a s /\ ~ In a t.
Proof. unfold op_diff. rewrite filter_In, negb_true_iff, mem_op_false. reflexivity. Qed.

Lemma In_py_set a s : In a (py_set s) <-> In a s.
Proof. unfold py_set. apply nodup_In. Qed.

(** A loop whose rounds respect [R] and each establish [Q] for their
    element, [Q] being stable under [R], establishes [Q] for all. *)
Lemma for_each_post {A} (R : LMS -> LMS -> Prop) (Q : A -> LMS -> Prop)
      (body : A -> M unit) :
  (forall s, R s s) -> (forall a b c, R a b -> R b c -> R a c) ->
  (forall x s u s', body x s = Ok (u, s') -> R s s' /\ Q x s') ->
  (forall x s s', R s s' -> Q x s -> Q x s') ->
  forall xs s u s', for_each xs body s = Ok (u, s') ->
                    R s s' /\ forall x, In x xs -> Q x s'.
Proof.
  intros Rrefl Rtrans Hbody Hstable. induction xs as [|x r IH]; intros s u s' H.
  - inversion H; subst. split; [apply Rrefl | contradiction].
  - cbn [for_each] in H. unfold bind in H.
    destruct (body x s) as [[u1 s1]|e] eqn:E; [|discriminate].
    destruct (Hbody _ _ _ _ E) as [R1 Q1]. destruct (IH _ _ _ H) as [R2 Q2].
    split; [eapply Rtrans; eassumption|].
    intros y [<-|Hy]; [eapply Hstable; eassumption | apply Q2; exact Hy].
Qed.

Lemma sync_ops_eq sync_mode :
  _sync_ops sync_mode =
  ((if existsb (Z.eqb sync_mode) [1; 3]
    then triples <- gets _ops_triples ;;
         for_each (py_set (map (fun t => snd (fst t)) triples)) sync_dest_body
    else ret tt) ;;;
   (if existsb (Z.eqb sync_mode) [2; 3]
    then triples <- gets _ops_triples ;;
         for_each (py_set (map (fun t => fst (fst t)) triples)) sync_src_body
    else ret tt)).
Proof. reflexivity. Qed.

Lemma swapins_wait_stable x s s' : ctrl_grows s s' -> swapins_wait x s -> swapins_wait x s'.
Proof.
  intros (C & I & O & L & G) H m f Hm Hs Hv Hf Hn.
  destruct (config_sets _ _ C) as (Ei & _).
  rewrite I in Hm, Hf. rewrite Ei in Hs, Hn. rewrite L in Hv.
  apply G. apply H; assumption.
Qed.

Lemma fanouts_wait_stable x s s' : ctrl_grows s s' -> fanouts_wait x s -> fanouts_wait x s'.
Proof.
  intros (C & I & O & L & G) H m f Hm Hs Hf Hn.
  destruct (config_sets _ _ C) as (_ & Eo & _).
  rewrite O in Hm, Hf. rewrite Eo in Hs, Hn.
  apply G. apply H; assumption.
Qed.

Lemma In_consumers_valid g t c : In c (consumers g t) -> (c < List.length g)%nat.
Proof.
  unfold consumers. rewrite filter_In, in_seq. lia.
Qed.

Lemma In_fanouts_valid g o c : In c (fanouts_in g o) -> (c < List.length g)%nat.
Proof.
  unfold fanouts_in, ge_get_consuming_ops. rewrite In_py_set, in_flat_map.
  intros (t & _ & Hc). eapply In_consumers_valid. exact Hc.
Qed.

Lemma sins_run x s :
  _sins x s = Ok (op_inter (py_set (fanins_in (graph_of s) x)) (_swapin_ops s), s).
Proof. reflexivity. Qed.

Lemma souts_run x s :
  _souts x s = Ok (op_inter (py_set (fanouts_in (graph_of s) x)) (_swapout_ops s), s).
Proof. reflexivity. Qed.

Lemma sync_dest_body_ok x s u s' :
  sync_dest_body x s = Ok (u, s') -> ctrl_grows s s' /\ swapins_wait x s'.
Proof.
  unfold sync_dest_body.
  rewrite (bind_ok _ _ _ _ _ (sins_run x s)), (bind_ok _ _ _ _ _ (fanins_run x s)).
  intros H. pose proof (respects_add_controls _ _ _ _ _ H) as Hg.
  split; [exact Hg|].
  destruct Hg as (C & I & O & L & G). destruct (config_sets _ _ C) as (Ei & _).
  intros m f Hm Hs Hv Hf Hn.
  rewrite I in Hm, Hf. rewrite Ei in Hs, Hn. rewrite L in Hv.
  apply (add_controls_ok _ _ _ _ _ H m f).
  - apply In_op_inter. split; [apply In_py_set; exact Hm | exact Hs].
  - exact Hv.
  - apply In_op_diff. split; [apply In_py_set; exact Hf|].
    intros Hx. apply In_op_inter in Hx. destruct Hx as [_ Hx]. contradiction.
Qed.

Lemma sync_src_body_ok x s u s' :
  sync_src_body x s = Ok (u, s') -> ctrl_grows s s' /\ fanouts_wait x s'.
Proof.
  unfold sync_src_body.
  rewrite (bind_ok _ _ _ _ _ (souts_run x s)), (bind_ok _ _ _ _ _ (fanouts_run x s)).
  intros H. pose proof (respects_add_controls _ _ _ _ _ H) as Hg.
  split; [exact Hg|].
  destruct Hg as (C & I & O & L & G). destruct (config_sets _ _ C) as (_ & Eo & _).
  intros m f Hm Hs Hf Hn.
  rewrite O in Hm, Hf. rewrite Eo in Hs, Hn.
  apply (add_controls_ok _ _ _ _ _ H f m).
  - apply In_op_diff. split; [apply In_py_set; exact Hf|].
    intros Hx. apply In_op_inter in Hx. destruct Hx as [_ Hx]. contradiction.
  - eapply In_fanouts_valid. exact Hf.
  - apply In_op_inter. split; [apply In_py_set; exact Hm | exact Hs].
Qed.

Lemma raises_only_sync_ops sync_mode :
  raises_only (fun e => e = ValueError) (_sync_ops sync_mode).
Proof.
  rewrite sync_ops_eq. apply raises_only_bind.
  - destruct (existsb _ _); [|apply raises_only_ret].
    apply raises_only_bind; [apply raises_only_gets | intros triples].
    apply raises_only_for_each. intros x. unfold sync_dest_body.
    intros s e H.
    rewrite (bind_ok _ _ _ _ _ (sins_run x s)), (bind_ok _ _ _ _ _ (fanins_run x s)) in H.
    apply (raises_only_add_controls _ _ _ _ H).
  - intros _. destruct (existsb _ _); [|apply raises_only_ret].
    apply raises_only_bind; [apply raises_only_gets | intros triples].
    apply raises_only_for_each. intros x. unfold sync_src_body.
    intros s e H.
    rewrite (bind_ok _ _ _ _ _ (souts_run x s)), (bind_ok _ _ _ _ _ (fanouts_run x s)) in H.
    apply (raises_only_add_controls _ _ _ _ H).
Qed.

Lemma mode_in sync_mode a b :
  existsb (Z.eqb sync_mode) [a; b] = true <-> sync_mode = a \/ sync_mode = b.
Proof.
  cbn [existsb]. rewrite orb_false_r, orb_true_iff, !Z.eqb_eq. reflexivity.
Qed.

Lemma sync_dest_phase sync_mode s u s1 :
  (if existsb (Z.eqb sync_mode) [1; 3]
   then triples <- gets _ops_triples ;;
        for_each (py_set (map (fun t => snd (fst t)) triples)) sync_dest_body
   else ret tt) s = Ok (u, s1) ->
  ctrl_grows s s1 /\
  (sync_mode = 1 \/ sync_mode = 3 ->
   forall tr, In tr (_ops_triples s) -> swapins_wait (snd (fst tr)) s1).
Proof.
  destruct (existsb (Z.eqb sync_mode) [1; 3]) eqn:E.
  - rewrite bind_gets. intros H.
    destruct (for_each_post ctrl_grows swapins_wait sync_dest_body
                ctrl_grows_refl ctrl_grows_trans sync_dest_body_ok
                swapins_wait_stable _ _ _ _ H) as [Hg Hq].
    split; [exact Hg|]. intros _ tr Htr. apply Hq.
    apply In_py_set. apply (in_map (fun t => snd (fst t))). exact Htr.
  - intros H. inversion H; subst. split; [apply ctrl_grows_refl|].
    intros Hm. apply mode_in in Hm. congruence.
Qed.

Lemma sync_src_phase sync_mode s u s1 :
  (if existsb (Z.eqb sync_mode) [2; 3]
   then triples <- gets _ops_triples ;;
        for_each (py_set (map (fun t => fst (fst t)) triples)) sync_src_body
   else ret tt) s = Ok (u, s1) ->
  ctrl_grows s s1 /\
  (sync_mode = 2 \/ sync_mode = 3 ->
   forall tr, In tr (_ops_triples s) -> fanouts_wait (fst (fst tr)) s1).
Proof.
  destruct (existsb (Z.eqb sync_mode) [2; 3]) eqn:E.
  - rewrite bind_gets. intros H.
    destruct (for_each_post ctrl_grows fanouts_wait sync_src_body
                ctrl_grows_refl ctrl_grows_trans sync_src_body_ok
                fanouts_wait_stable _ _ _ _ H) as [Hg Hq].
    split; [exact Hg|]. intros _ tr Htr. apply Hq.
    apply In_py_set. apply (in_map (fun t => fst (fst t))). exact Htr.
  - intros H. inversion H; subst. split; [apply ctrl_grows_refl|].
    intros Hm. apply mode_in in Hm. congruence.
Qed.

(** C2 as amended.  [_sync_ops] returns or raises the ValueError of
    [ge.add_control_inputs]; when it returns, data edges and the sets of
    swap nodes are as before, no control input is lost, and
    - in modes 1 and 3, for the consumer of every triple, each move-in
      among its fan-ins has every other fan-in of that consumer as a
      control input: the move-in waits on the consumer's other inputs;
    - in modes 2 and 3, for the producer of every triple, each fan-out
      of the producer that is no move-out has the producer's move-outs as
      control inputs: the other consumers wait on the move-out. *)
Theorem sync_ops_control_edges (sync_mode : Z) (self : LMS) :
  match _sync_ops sync_mode self with
  | Raise e => e = ValueError
  | Ok (_, self') =>
      ctrl_grows self self' /\
      (sync_mode = 1 \/ sync_mode = 3 ->
       forall tr, In tr (_ops_triples self) -> swapins_wait (snd (fst tr)) self') /\
      (sync_mode = 2 \/ sync_mode = 3 ->
       forall tr, In tr (_ops_triples self) -> fanouts_wait (fst (fst tr)) self')
  end.
Proof.
  destruct (_sync_ops sync_mode self) as [[u self']|e] eqn:E.
  - rewrite sync_ops_eq in E. unfold bind at 1 in E.
    match type of E with
    | match ?m self with _ => _ end = _ => destruct (m self) as [[u1 s1]|e1] eqn:E1
    end; [|discriminate].
    destruct (sync_dest_phase _ _ _ _ E1) as [G1 Q1].
    destruct (sync_src_phase _ _ _ _ E) as [G2 Q2].
    split; [eapply ctrl_grows_trans; eassumption|]. split.
    + intros Hm tr Htr. eapply swapins_wait_stable; [exact G2|]. apply Q1; assumption.
    + intros Hm tr Htr. apply Q2; [exact Hm|].
      destruct G1 as (C & _). destruct (config_sets _ _ C) as (_ & _ & Et & _).
      rewrite Et. exact Htr.
  - apply (raises_only_sync_ops sync_mode self e E).
Qed.

(** C2 as stated fails.  On the chain, [run] in synchronous mode 1
    leaves one triple, producer a (0), consumer f (5), move-in 7; the
    fan-ins of f are e (4) and the move-in.  The move-in gets e as its
    control input; e gets none, so it does not wait on the move-in. *)
Lemma sync_mode_1_other_fanin_does_not_wait :
  exists self',
    run_on 6 (LMS_sync (chain_graph "MatMul") 1) = Ok self' /\
    _ops_triples self' = [(0%nat, 5%nat, 7%nat)] /\
    _swapin_ops self' = [7%nat] /\
    fanins_in (graph_of self') 5%nat = [4%nat; 7%nat] /\
    control_inputs (graph_of self') 7%nat = [4%nat] /\
    ~ In 7%nat (control_inputs (graph_of self') 4%nat).
Proof.
  eexists. split; [vm_compute; reflexivity|].
  repeat split; try reflexivity. intros H. exact H.
Qed.

Lemma sync_ops_control_edges_witness :
  exists self',
    _sync_ops 3 two_readers_swapped = Ok (tt, self') /\
    swapins_wait 5%nat self' /\ fanouts_wait 0%nat self'.
Proof.
  pose proof (sync_ops_control_edges 3 two_readers_swapped) as H.
  destruct (_sync_ops 3 two_readers_swapped) as [[[] self']|e] eqn:E.
  - exists self'. split; [reflexivity|].
    destruct H as (_ & H1 & H2).
    destruct two_readers_triples as (Htr & _).
    split.
    + apply (H1 (or_intror eq_refl) (0%nat, 5%nat, 8%nat)).
      rewrite Htr. right. left. reflexivity.
    + apply (H2 (or_intror eq_refl) (0%nat, 5%nat, 8%nat)).
      rewrite Htr. right. left. reflexivity.
  - vm_compute in E. discriminate E.
Defined.

(** ** Created nodes are excluded *)

Lemma bind_inv {A B} (m : M A) (k : A -> M B) s b s' :
  bind m k s = Ok (b, s') -> exists a s1, m s = Ok (a, s1) /\ k a s1 = Ok (b, s').
Proof.
  unfold bind. destruct (m s) as [[a s1]|e]; [|discriminate].
  intros H. exists a, s1. split; [reflexivity | exact H].
Qed.

Lemma lift_inv {A} (r : result A) s a s' : lift r s = Ok (a, s') -> r = Ok a /\ s' = s.
Proof. unfold lift. destruct r; intros H; inversion H; auto. Qed.

Lemma same_size_refl s : same_size s s.
Proof. split; reflexivity. Qed.

Lemma same_size_trans a b c : same_size a b -> same_size b c -> same_size a c.
Proof.
  intros [C1 L1] [C2 L2]. split; [eapply same_config_trans; eassumption | congruence].
Qed.

Lemma same_size_set_graph g' s :
  List.length g' = List.length (graph_of s) -> same_size s (set_graph g' s).
Proof. intros H. split; [reflexivity | exact H]. Qed.

Lemma same_size_log_info msg level : respects same_size (_log_info msg level).
Proof.
  intros s u s' H. destruct (log_info_run msg level s) as (s1 & Hrun & C & G & _).
  rewrite Hrun in H. inversion H; subst. split; [exact C | rewrite G; reflexivity].
Qed.

Lemma same_size_get_order o : respects same_size (_get_order o).
Proof.
  intros s a s' H. unfold _get_order in H.
  destruct (_topo_sort s); inversion H; subst. apply same_size_refl.
Qed.

Lemma length_reroute_input g dest old new :
  List.length (reroute_input g dest old new) = List.length g.
Proof. apply length_update_op. Qed.

Lemma length_ge_connect g outs dest ins g' :
  ge_connect g outs dest ins = Ok g' -> List.length g' = List.length g.
Proof.
  unfold ge_connect. destruct (Nat.eqb _ _); [|discriminate].
  intros H. inversion H; subst; clear H.
  generalize (combine ins outs). intros l. revert g.
  induction l as [|p r IH]; intros g; [reflexivity|].
  cbn [fold_left]. rewrite IH. apply length_reroute_input.
Qed.

Lemma same_size_connect_ops a b ri ro idx : respects same_size (_connect_ops a b ri ro idx).
Proof.
  intros s u s' H. unfold _connect_ops in H. rewrite bind_gets in H.
  destruct (bind_inv _ _ _ _ _ H) as (src_sgv & s1 & H1 & H2). clear H.
  apply lift_inv in H1. destruct H1 as [_ ->].
  destruct (bind_inv _ _ _ _ _ H2) as (dest_sgv & s2 & H3 & H4). clear H2.
  apply lift_inv in H3. destruct H3 as [_ ->].
  destruct (bind_inv _ _ _ _ _ H4) as (g' & s3 & H5 & H6). clear H4.
  apply lift_inv in H5. destruct H5 as [Hc ->].
  inversion H6; subst. apply same_size_set_graph.
  apply (length_ge_connect _ _ _ _ _ Hc).
Qed.

Lemma same_size_add_control_inputs op1 op2 : respects same_size (_add_control_inputs op1 op2).
Proof.
  intros s b s' H.
  destruct (add_control_inputs_cases op1 op2 s) as [[Hrun _]|(g' & Hrun & Hge & _)];
    rewrite Hrun in H; inversion H; subst.
  - apply same_size_refl.
  - apply same_size_set_graph.
    apply (ge_add_control_inputs_ok _ _ _ _ Hge).
Qed.

Ltac sized_step :=
  first
    [ apply (respects_ret same_size same_size_refl)
    | apply (respects_gets same_size same_size_refl)
    | apply respects_raise
    | apply (respects_lift same_size same_size_refl)
    | apply same_size_log_info
    | apply same_size_get_order
    | apply same_size_connect_ops
    | apply same_size_add_control_inputs
    | apply (respects_bind same_size same_size_trans); [ | intros]
    | apply (respects_for_each same_size same_size_refl same_size_trans); intros
    | apply (respects_map_m same_size same_size_refl same_size_trans); intros
    | apply (respects_filter_m same_size same_size_refl same_size_trans); intros ].

(** The two creations: the new node is the next free position. *)
Lemma add_swapout_ok src_op ts0 s so s' :
  _add_swapout src_op ts0 s = Ok (so, s') ->
  same_config s s' /\ so = List.length (graph_of s) /\
  List.length (graph_of s') = S (List.length (graph_of s)).
Proof.
  unfold _add_swapout. rewrite !bind_gets. intros H.
  destruct (bind_inv _ _ _ _ _ H) as ([] & s1 & H1 & H2). clear H.
  inversion H1; subst s1; clear H1. rewrite bind_gets in H2.
  assert (Hlen : List.length (graph_of (set_graph
            (fst (array_ops_identity (graph_of s) ts0
                    (lms_name "lms/swapout_" (tensor_name (graph_of s) ts0))
                    (_cpu_device s))) s)) = S (List.length (graph_of s))).
  { rewrite graph_of_set_graph. cbn [array_ops_identity fst].
    rewrite length_app. cbn [List.length]. lia. }
  destruct (bind_inv _ _ _ _ _ H2) as (idx & s2 & H3 & H4). clear H2.
  apply lift_inv in H3. destruct H3 as [_ ->].
  destruct (bind_inv _ _ _ _ _ H4) as ([] & s3 & H5 & H6). clear H4.
  destruct (same_size_connect_ops _ _ _ _ _ _ _ _ H5) as [C3 L3].
  destruct (bind_inv _ _ _ _ _ H6) as ([] & s4 & H7 & H8). clear H6.
  destruct (same_size_log_info _ _ _ _ _ H7) as [C4 L4].
  inversion H8; subst. cbn [array_ops_identity snd].
  split; [|split; [reflexivity|]].
  - eapply same_config_trans; [|exact C4].
    eapply same_config_trans; [|exact C3]. reflexivity.
  - rewrite L4, L3. exact Hlen.
Qed.

Lemma add_swapin_ok swapout_op dest_ops ts0 s si s' :
  _add_swapin swapout_op dest_ops ts0 s = Ok (si, s') ->
  same_config s s' /\ si = List.length (graph_of s) /\
  List.length (graph_of s') = S (List.length (graph_of s)).
Proof.
  unfold _add_swapin. rewrite !bind_gets. intros H.
  destruct (bind_inv _ _ _ _ _ H) as ([] & s1 & H1 & H2). clear H.
  inversion H1; subst s1; clear H1.
  assert (Hlen : List.length (graph_of (set_graph
            (fst (array_ops_identity (graph_of s) ts0
                    (lms_name "lms/swapin_" (tensor_name (graph_of s) ts0))
                    (_cpu_device s))) s)) = S (List.length (graph_of s))).
  { rewrite graph_of_set_graph. cbn [array_ops_identity fst].
    rewrite length_app. cbn [List.length]. lia. }
  destruct (bind_inv _ _ _ _ _ H2) as ([] & s2 & H3 & H4). clear H2.
  destruct (same_size_connect_ops _ _ _ _ _ _ _ _ H3) as [C2 L2].
  destruct (bind_inv _ _ _ _ _ H4) as ([] & s3 & H5 & H6). clear H4.
  assert (Hloop : same_size s2 s3).
  { revert H5. apply (respects_for_each same_size same_size_refl same_size_trans).
    intros dest_op. repeat sized_step. }
  destruct Hloop as [C3 L3].
  inversion H6; subst. cbn [array_ops_identity snd].
  split; [|split; [reflexivity|]].
  - eapply same_config_trans; [|exact C3].
    eapply same_config_trans; [|exact C2]. reflexivity.
  - rewrite L3, L2. exact Hlen.
Qed.

Lemma same_size_groupby ops limit : respects same_size (_groupby ops limit).
Proof. unfold _groupby. repeat sized_step. Qed.

Lemma same_size_filter src_op_order outs acc :
  respects same_size (_insert_swap_nodes_filter src_op_order outs acc).
Proof.
  revert acc. induction outs as [|ts r IH]; intros acc; cbn [_insert_swap_nodes_filter].
  - sized_step.
  - sized_step; [sized_step|].
    destruct (ndims a ts) as [n|]; [|apply IH].
    destruct (n <=? 1); [apply IH|].
    sized_step; [repeat sized_step|].
    destruct a0; apply IH.
Qed.

Lemma insert_swap_nodes_for_ts_eq src_op ts targets :
  _insert_swap_nodes_for_ts src_op ts targets =
  (swapout_op <- _add_swapout src_op ts ;;
   _add_control_inputs swapout_op src_op ;;;
   dest_sin <- fold_left (swapin_step swapout_op ts) targets (ret []) ;;
   ret (swapout_op, dest_sin)).
Proof. reflexivity. Qed.

Lemma In_pair_add p s :
  In (snd p) (map snd (pair_add p s)) /\
  forall o, In o (map snd s) -> In o (map snd (pair_add p s)).
Proof.
  unfold pair_add.
  destruct (existsb (fun q => Nat.eqb (fst q) (fst p) && Nat.eqb (snd q) (snd p)) s) eqn:E.
  - split; [|auto]. apply existsb_exists in E. destruct E as (q & Hq & Heq).
    apply andb_true_iff in Heq. destruct Heq as [_ Hs]. apply Nat.eqb_eq in Hs.
    rewrite <- Hs. apply in_map. exact Hq.
  - rewrite map_app. split.
    + apply in_or_app. right. left. reflexivity.
    + intros o Ho. apply in_or_app. left. exact Ho.
Qed.

Lemma swapin_fold_ok swapout_op ts targets :
  forall acc s r s',
    fold_left (swapin_step swapout_op ts) targets acc s = Ok (r, s') ->
    exists r0 s0,
      acc s = Ok (r0, s0) /\ same_config s0 s' /\
      (List.length (graph_of s0) <= List.length (graph_of s'))%nat /\
      (forall o, In o (map snd r0) -> In o (map snd r)) /\
      (forall o, (List.length (graph_of s0) <= o < List.length (graph_of s'))%nat ->
                 In o (map snd r)).
Proof.
  induction targets as [|t r IH]; intros acc s res s' H.
  - exists res, s'. cbn [fold_left] in H. repeat split; auto. intros o Ho. lia.
  - cbn [fold_left] in H.
    destruct (IH _ _ _ _ H) as (r1 & s1 & Hstep & C1 & L1 & I1 & N1).
    unfold swapin_step in Hstep.
    destruct (bind_inv _ _ _ _ _ Hstep) as (r0 & s0 & Hacc & H2). clear Hstep.
    destruct (bind_inv _ _ _ _ _ H2) as (si & sa & Hin & H3). clear H2.
    destruct (add_swapin_ok _ _ _ _ _ _ Hin) as (Ca & Esi & La).
    destruct (bind_inv _ _ _ _ _ H3) as (ops_ords & sb & Hm & H4). clear H3.
    assert (Hb : same_size sa sb).
    { revert Hm. apply (respects_map_m same_size same_size_refl same_size_trans).
      intros o. repeat sized_step. }
    destruct Hb as [Cb Lb].
    destruct (bind_inv _ _ _ _ _ H4) as (sorted & sc & H5 & H6). clear H4.
    apply lift_inv in H5. destruct H5 as [_ ->].
    destruct (bind_inv _ _ _ _ _ H6) as (x & sd & H7 & H8). clear H6.
    apply lift_inv in H7. destruct H7 as [_ ->].
    destruct (bind_inv _ _ _ _ _ H8) as (dest_op & se & H9 & H10). clear H8.
    apply lift_inv in H9. destruct H9 as [_ ->].
    inversion H10; subst r1 s1; clear H10.
    destruct (In_pair_add (dest_op, si) r0) as [Hsi Hr0]. cbn [snd] in Hsi.
    exists r0, s0. split; [exact Hacc|]. split.
    { eapply same_config_trans; [|exact C1].
      eapply same_config_trans; [exact Ca | exact Cb]. }
    split; [lia|]. split.
    { intros o Ho. apply I1, Hr0, Ho. }
    intros o Ho. destruct (Nat.eq_dec o (List.length (graph_of s0))) as [->|Hne].
    + apply I1. rewrite <- Esi. exact Hsi.
    + apply N1. lia.
Qed.

Lemma insert_swap_nodes_for_ts_ok src_op ts targets s r s' :
  _insert_swap_nodes_for_ts src_op ts targets s = Ok (r, s') ->
  same_config s s' /\
  (List.length (graph_of s) <= List.length (graph_of s'))%nat /\
  forall o, (List.length (graph_of s) <= o < List.length (graph_of s'))%nat ->
            o = fst r \/ In o (map snd (snd r)).
Proof.
  rewrite insert_swap_nodes_for_ts_eq. intros H.
  destruct (bind_inv _ _ _ _ _ H) as (so & s1 & H1 & H2). clear H.
  destruct (add_swapout_ok _ _ _ _ _ H1) as (C1 & Eso & L1).
  destruct (bind_inv _ _ _ _ _ H2) as (b & s2 & H3 & H4). clear H2.
  destruct (same_size_add_control_inputs _ _ _ _ _ H3) as [C2 L2].
  destruct (bind_inv _ _ _ _ _ H4) as (dest_sin & s3 & H5 & H6). clear H4.
  destruct (swapin_fold_ok _ _ _ _ _ _ _ H5) as (r0 & s0 & Hacc & C3 & L3 & _ & N3).
  inversion Hacc; subst r0 s0; clear Hacc.
  inversion H6; subst r s'; clear H6. cbn [fst snd].
  split; [|split; [lia|]].
  - eapply same_config_trans; [|exact C3].
    eapply same_config_trans; [exact C1 | exact C2].
  - intros o Ho. destruct (Nat.eq_dec o (List.length (graph_of s))) as [->|Hne].
    + left. symmetry. exact Eso.
    + right. apply N3. lia.
Qed.

Lemma inserts_refl s : inserts s s.
Proof. repeat split; auto. intros o Ho. lia. Qed.

Lemma inserts_trans a b c : inserts a b -> inserts b c -> inserts a c.
Proof.
  intros (E1 & L1 & N1) (E2 & L2 & N2). repeat split.
  - intros o Ho. apply E2, E1, Ho.
  - lia.
  - intros o Ho.
    destruct (le_lt_dec (List.length (graph_of b)) o) as [Hge|Hlt].
    + apply N2. lia.
    + apply E2, N1. lia.
Qed.

Lemma same_size_inserts s s' : same_size s s' -> inserts s s'.
Proof.
  intros [C L]. destruct (config_sets _ _ C) as (_ & _ & _ & Ee & _).
  repeat split.
  - intros o Ho. rewrite Ee. exact Ho.
  - lia.
  - intros o Ho. lia.
Qed.

Lemma respects_weaken (R R' : LMS -> LMS -> Prop) {A} (m : M A) :
  (forall s s', R s s' -> R' s s') -> respects R m -> respects R' m.
Proof. intros H Hm s a s' Hrun. apply H. eapply Hm. exact Hrun. Qed.

Lemma In_op_add x a s : In x (op_add a s) <-> x = a \/ In x s.
Proof.
  unfold op_add. destruct (mem_op a s) eqn:E.
  - apply mem_op_In in E. split; [auto | intros [->|H]; assumption].
  - rewrite in_app_iff. cbn [In]. intuition.
Qed.

Lemma excl_grows_refl s : excl_grows s s.
Proof. split; auto. Qed.

Lemma excl_grows_trans a b c : excl_grows a b -> excl_grows b c -> excl_grows a c.
Proof. intros [G1 E1] [G2 E2]. split; [congruence | auto]. Qed.

Lemma record_swapin_ok src_op ds s u s' :
  record_swapin src_op ds s = Ok (u, s') ->
  excl_grows s s' /\ In (snd ds) (_excl_ops s').
Proof.
  unfold record_swapin, bind, modify. intros H. inversion H; subst; clear H.
  cbn. split; [split; [reflexivity|] |]; intros; apply In_op_add; auto.
Qed.

Lemma record_swaps_ok src_op r s u s' :
  record_swaps src_op r s = Ok (u, s') ->
  excl_grows s s' /\ In (fst r) (_excl_ops s') /\
  forall o, In o (map snd (snd r)) -> In o (_excl_ops s').
Proof.
  unfold record_swaps. intros H.
  destruct (bind_inv _ _ _ _ _ H) as ([] & s1 & H1 & H2). clear H.
  inversion H1; subst s1; clear H1.
  destruct (bind_inv _ _ _ _ _ H2) as ([] & s2 & H3 & H4). clear H2.
  inversion H3; subst s2; clear H3.
  destruct (for_each_post excl_grows (fun ds s => In (snd ds) (_excl_ops s))
              (record_swapin src_op) excl_grows_refl excl_grows_trans
              (record_swapin_ok src_op)
              (fun x a b Hg Hq => proj2 Hg _ Hq) _ _ _ _ H4) as [[G E] Q].
  split; [split|split].
  - rewrite G. reflexivity.
  - intros o Ho. apply E. cbn. apply In_op_add. right. exact Ho.
  - apply E. cbn. apply In_op_add. left. reflexivity.
  - intros o Ho. apply in_map_iff in Ho. destruct Ho as (ds & <- & Hds).
    apply Q. exact Hds.
Qed.

Lemma insert_swap_nodes_eq src_op :
  _insert_swap_nodes src_op =
  (_log_info (InfoOperation src_op None) 2 ;;;
   ts_dests0 <- ret [] ;;
   src_op_order <- _get_order src_op ;;
   g <- gets graph_of ;;
   ts_dests <- _insert_swap_nodes_filter src_op_order (outputs g src_op) ts_dests0 ;;
   match ts_dests with
   | [] => ret tt
   | _ =>
       order <- _get_order src_op ;;
       _log_info (InfoOperation src_op order) 1 ;;;
       for_each ts_dests (fun entry =>
         limit <- gets _swapin_groupby ;;
         dests_grp <- _groupby (snd entry) limit ;;
         r <- _insert_swap_nodes_for_ts src_op (fst entry) dests_grp ;;
         record_swaps src_op r)
   end).
Proof. reflexivity. Qed.

Lemma inserts_for_tensor src_op entry :
  respects inserts
    (limit <- gets _swapin_groupby ;;
     dests_grp <- _groupby (snd entry) limit ;;
     r <- _insert_swap_nodes_for_ts src_op (fst entry) dests_grp ;;
     record_swaps src_op r).
Proof.
  intros s u s' H. rewrite bind_gets in H.
  destruct (bind_inv _ _ _ _ _ H) as (grp & s1 & H1 & H2). clear H.
  destruct (same_size_groupby _ _ _ _ _ H1) as [C1 L1].
  destruct (bind_inv _ _ _ _ _ H2) as (r & s2 & H3 & H4). clear H2.
  destruct (insert_swap_nodes_for_ts_ok _ _ _ _ _ _ H3) as (C2 & L2 & N2).
  destruct (record_swaps_ok _ _ _ _ _ H4) as ([G3 E3] & Hout & Hins).
  destruct (config_sets _ _ C1) as (_ & _ & _ & Ee1 & _).
  destruct (config_sets _ _ C2) as (_ & _ & _ & Ee2 & _).
  repeat split.
  - intros o Ho. apply E3. rewrite Ee2, Ee1. exact Ho.
  - rewrite G3. lia.
  - intros o Ho. rewrite G3 in Ho.
    destruct (N2 o) as [->|Hin]; [lia | exact Hout | apply Hins; exact Hin].
Qed.

Lemma inserts_insert_swap_nodes src_op : respects inserts (_insert_swap_nodes src_op).
Proof.
  rewrite insert_swap_nodes_eq.
  apply (respects_bind inserts inserts_trans).
  { apply (respects_weaken same_size); [apply same_size_inserts | apply same_size_log_info]. }
  intros _. apply (respects_bind inserts inserts_trans).
  { apply (respects_ret inserts inserts_refl). }
  intros ts_dests0. apply (respects_bind inserts inserts_trans).
  { apply (respects_weaken same_size); [apply same_size_inserts | apply same_size_get_order]. }
  intros order. apply (respects_bind inserts inserts_trans).
  { apply (respects_gets inserts inserts_refl). }
  intros g. apply (respects_bind inserts inserts_trans).
  { apply (respects_weaken same_size); [apply same_size_inserts | apply same_size_filter]. }
  intros ts_dests. destruct ts_dests as [|e r].
  { apply (respects_ret inserts inserts_refl). }
  apply (respects_bind inserts inserts_trans).
  { apply (respects_weaken same_size); [apply same_size_inserts | apply same_size_get_order]. }
  intros order'. apply (respects_bind inserts inserts_trans).
  { apply (respects_weaken same_size); [apply same_size_inserts | apply same_size_log_info]. }
  intros _. apply (respects_for_each inserts inserts_refl inserts_trans).
  intros entry. apply inserts_for_tensor.
Qed.

Lemma do_action_visit_excluded src_op s :
  In src_op (_excl_ops s) -> _do_action_visit src_op s = Ok (tt, s).
Proof.
  intros H. unfold _do_action_visit. rewrite bind_gets.
  apply mem_op_In in H. rewrite H. reflexivity.
Qed.

Lemma inserts_do_action_visit src_op : respects inserts (_do_action_visit src_op).
Proof.
  unfold _do_action_visit.
  apply (respects_bind inserts inserts_trans); [apply (respects_gets inserts inserts_refl)|].
  intros excl_ops. destruct (mem_op src_op excl_ops).
  { apply (respects_ret inserts inserts_refl). }
  apply (respects_bind inserts inserts_trans).
  { apply (respects_weaken same_size); [apply same_size_inserts | apply same_size_get_order]. }
  intros [z|]; [|apply (respects_ret inserts inserts_refl)].
  apply (respects_bind inserts inserts_trans); [apply (respects_gets inserts inserts_refl)|].
  intros [|i incl_ops]; [apply inserts_insert_swap_nodes|].
  destruct (mem_op src_op (i :: incl_ops));
    [apply inserts_insert_swap_nodes | apply (respects_ret inserts inserts_refl)].
Qed.

Lemma visited_from_first s0 src_op u s1 s' :
  _do_action_visit src_op s0 = Ok (u, s1) -> visited_from s1 s' -> visited_from s0 s'.
Proof.
  intros H0 H. induction H as [|s src' u' s' Hs IH Hv].
  - eapply visited_step; [apply visited_start | exact H0].
  - eapply visited_step; [exact IH | exact Hv].
Qed.

Lemma do_action_while_visits fuel :
  forall open_set closed_set s u s',
    _do_action_while fuel open_set closed_set s = Ok (u, s') -> visited_from s s'.
Proof.
  induction fuel as [|fuel IH]; intros open_set closed_set s u s' H.
  - destruct open_set; [|discriminate]. inversion H; subst. apply visited_start.
  - destruct open_set as [|src_op queue].
    { inversion H; subst. apply visited_start. }
    cbn [_do_action_while] in H.
    rewrite (bind_ok _ _ _ _ _ (fanouts_run src_op s)) in H.
    destruct (bind_inv _ _ _ _ _ H) as (u1 & s1 & Hv & Hrest).
    eapply visited_from_first; [exact Hv | eapply IH; exact Hrest].
Qed.

Lemma visited_from_inserts s0 s : visited_from s0 s -> inserts s0 s.
Proof.
  induction 1 as [|s src_op u s' Hs IH Hv]; [apply inserts_refl|].
  eapply inserts_trans; [exact IH|]. eapply inserts_do_action_visit. exact Hv.
Qed.

(** C8. Across a call of [_insert_swap_nodes] the excluded set only
    grows and every operation the call has added to the graph, move-out
    or move-in, is in it when the call returns; the traversal does
    nothing for an excluded operation.  Hence, through all the visits of
    one traversal, every operation created since its start is excluded,
    stays excluded, and a visit of it never reaches
    [_insert_swap_nodes]: it returns at once with the object as it was. *)
Theorem created_nodes_are_excluded (s0 : LMS) :
  (forall src_op u s', _insert_swap_nodes src_op s0 = Ok (u, s') -> inserts s0 s') /\
  (forall src_op, In src_op (_excl_ops s0) -> _do_action_visit src_op s0 = Ok (tt, s0)) /\
  (forall fuel src_ops u s',
     _do_action fuel src_ops s0 = Ok (u, s') -> visited_from s0 s') /\
  (forall s, visited_from s0 s ->
     inserts s0 s /\
     forall src_op,
       (List.length (graph_of s0) <= src_op < List.length (graph_of s))%nat ->
       In src_op (_excl_ops s) /\ _do_action_visit src_op s = Ok (tt, s)).
Proof.
  split; [intros src_op u s' H; eapply inserts_insert_swap_nodes; exact H|].
  split; [intros src_op H; apply do_action_visit_excluded; exact H|].
  split.
  { intros fuel src_ops u s' H. eapply do_action_while_visits. exact H. }
  intros s Hs. pose proof (visited_from_inserts _ _ Hs) as Hi.
  split; [exact Hi|]. intros src_op Hsrc.
  destruct Hi as (_ & _ & Hnew). specialize (Hnew src_op Hsrc).
  split; [exact Hnew | apply do_action_visit_excluded; exact Hnew].
Qed.

Lemma created_nodes_are_excluded_witness :
  In 7%nat (_excl_ops two_readers_swapped) /\
  _do_action_visit 7%nat two_readers_swapped = Ok (tt, two_readers_swapped).
Proof.
  destruct (created_nodes_are_excluded two_readers_LMS) as (_ & _ & Hrun & Hvisit).
  assert (E : _do_action 6 (ge_make_list_of_op two_readers_graph) two_readers_LMS
              = Ok (tt, two_readers_swapped)).
  { unfold two_readers_swapped.
    destruct (_do_action 6 (ge_make_list_of_op two_readers_graph) two_readers_LMS)
      as [[[] s]|e] eqn:E; [reflexivity | vm_compute in E; discriminate E]. }
  destruct (Hvisit _ (Hrun _ _ _ _ E)) as [_ Hskip].
  apply Hskip. split; [apply Nat.leb_le | apply Nat.ltb_lt]; vm_compute; reflexivity.
Defined.

(** ** What a visited producer selects *)

Lemma selected_keys g t threshold rp outs k :
  ~ In k outs -> dict_get k (selected g t threshold rp outs []) = None.
Proof.
  intros H. rewrite selected_get.
  replace (mem_tensor k outs) with false; [reflexivity|].
  symmetry. destruct (mem_tensor k outs) eqn:E; [|reflexivity].
  apply mem_tensor_In in E. contradiction.
Qed.

(** C6. A visit of [_do_action] to a producer [p] that is not excluded,
    has a rank [rp] and is in the inclusion set when there is one, is
    the call [_insert_swap_nodes p].  When the examined outputs of [p]
    have ranked consumers, that call builds, without changing the
    object, the dictionary [ts_dests] and goes on to swap exactly its
    entries.  A tensor [ts] is bound to [C] in [ts_dests] exactly when
    [ts] is an output of [p], the shape rank of [ts] is known and above
    1, [C] is the list of the consumers [c] of [ts] with rank(c) - rp
    strictly above swapout_threshold, and [C] is not empty.  With
    producer rank 10, threshold 3 and consumers at ranks 11, 12, 15, 20
    the two consumers at ranks 15 and 20 are selected, and they alone
    are made to read the swap-in operation. *)
Theorem candidates_selected_iff :
  (forall (self : LMS) (t : TOPOS) (p : op) (rp : Z),
     _topo_sort self = Some t ->
     get_order t p = Some rp ->
     consumers_ranked (graph_of self) t (outputs (graph_of self) p) ->
     let g := graph_of self in
     let far ts := far_consumers t (_swapout_threshold self) rp (ge_get_consuming_ops g [ts]) in
     exists ts_dests s1,
       _insert_swap_nodes_filter (Some rp) (outputs g p) [] self = Ok (ts_dests, self) /\
       _log_info (InfoOperation p None) 2 self = Ok (tt, s1) /\
       _insert_swap_nodes p self = swap_selected p ts_dests s1 /\
       (~ In p (_excl_ops self) -> _incl_ops self = [] \/ In p (_incl_ops self) ->
        _do_action_visit p self = _insert_swap_nodes p self) /\
       (forall ts C, dict_get ts ts_dests = Some C <->
                     In ts (outputs g p) /\
                     (exists n, ndims g ts = Some n /\ 1 < n) /\ C = far ts /\ C <> []) /\
       (forall ts c, In c (far ts) <->
                     In c (consumers g ts) /\
                     exists rc, get_order t c = Some rc /\
                                _swapout_threshold self < rc - rp)) /\
  _insert_swap_nodes_filter (Some 10) (outputs distance_graph 0%nat) [] distance_LMS
  = Ok ([((0%nat, 0%nat), [3%nat; 4%nat])], distance_LMS) /\
  exists self',
    _do_action_visit 0%nat distance_LMS = Ok (tt, self') /\
    _ops_triples self' = [(0%nat, 3%nat, 6%nat)] /\
    map (inputs (graph_of self')) [1; 2; 3; 4]%nat
    = [[(0%nat, 0%nat)]; [(0%nat, 0%nat)]; [(6%nat, 0%nat)]; [(6%nat, 0%nat)]].
Proof.
  split; [|split; [reflexivity|]].
  - intros self t p rp Ht Hp Hall g far.
    destruct (log_info_run (InfoOperation p None) 2 self) as (s1 & Hlog & C1 & G1 & _).
    assert (Ht1 : _topo_sort s1 = Some t) by (rewrite (config_topo_sort _ _ C1); exact Ht).
    assert (Hth : _swapout_threshold s1 = _swapout_threshold self).
    { unfold config in C1. inversion C1. reflexivity. }
    exists (selected g t (_swapout_threshold self) rp (outputs g p) []), s1.
    split; [apply filter_returns; assumption|]. split; [exact Hlog|].
    assert (Hrun : _insert_swap_nodes p self
                   = swap_selected p (selected g t (_swapout_threshold self) rp
                                               (outputs g p) []) s1).
    { rewrite insert_swap_nodes_eq. rewrite (bind_ok _ _ _ _ _ Hlog), bind_ret_l.
      rewrite (bind_ok _ _ _ _ _ (get_order_run _ _ p Ht1)), Hp, bind_gets.
      assert (Hf : _insert_swap_nodes_filter (Some rp) (outputs (graph_of s1) p) [] s1
                   = Ok (selected g t (_swapout_threshold self) rp (outputs g p) [], s1)).
      { rewrite (filter_returns s1 t rp _ [] Ht1) by (rewrite G1; exact Hall).
        rewrite G1, Hth. reflexivity. }
      rewrite (bind_ok _ _ _ _ _ Hf). reflexivity. }
    split; [exact Hrun|]. split; [|split].
    + intros Hx Hi. unfold _do_action_visit. rewrite bind_gets.
      replace (mem_op p (_excl_ops self)) with false
        by (symmetry; apply mem_op_false; exact Hx).
      rewrite (bind_ok _ _ _ _ _ (get_order_run _ _ p Ht)), Hp, bind_gets.
      destruct (_incl_ops self) as [|i r] eqn:Ei; [reflexivity|].
      destruct Hi as [Hi|Hi]; [discriminate|].
      apply mem_op_In in Hi. rewrite Hi. reflexivity.
    + intros ts C. destruct (mem_tensor ts (outputs g p)) eqn:Hts.
      * rewrite selected_get, Hts. apply mem_tensor_In in Hts.
        simpl andb. fold (far ts). unfold examined. split.
        -- destruct (ndims g ts) as [n|]; [|discriminate].
           destruct (n <=? 1) eqn:En; [discriminate|]. simpl.
           destruct (far ts) eqn:Ef; [discriminate|].
           intros H. inversion H; subst C. split; [exact Hts|].
           split; [exists n; split; [reflexivity | apply Z.leb_gt; exact En]|].
           split; [reflexivity | discriminate].
        -- intros [_ [(n & En & Hn) [-> Hne]]]. rewrite En.
           apply Z.leb_gt in Hn. rewrite Hn. simpl.
           destruct (far ts); [congruence | reflexivity].
      * assert (Hnot : ~ In ts (outputs g p)).
        { intros H. apply mem_tensor_In in H. congruence. }
        rewrite (selected_keys _ _ _ _ _ _ Hnot). split; [discriminate|].
        intros [H _]. contradiction.
    + intros ts c. unfold far. rewrite In_far_consumers, In_ge_get_consuming_ops. reflexivity.
  - destruct (_do_action_visit 0%nat distance_LMS) as [[[] self']|e] eqn:E;
      [|vm_compute in E; discriminate E].
    exists self'. split; [reflexivity|].
    vm_compute in E. inversion E. split; reflexivity.
Qed.

Lemma candidates_selected_iff_witness :
  exists ts_dests s1,
    _log_info (InfoOperation 0%nat None) 2 distance_LMS = Ok (tt, s1) /\
    _do_action_visit 0%nat distance_LMS = swap_selected 0%nat ts_dests s1 /\
    dict_get (0%nat, 0%nat) ts_dests = Some [3%nat; 4%nat].
Proof.
  destruct (proj1 candidates_selected_iff distance_LMS distance_topos 0%nat 10)
    as (ts_dests & s1 & _ & Hlog & Hrun & Hvisit & Hget & _).
  - reflexivity.
  - reflexivity.
  - intros ts Hts _. apply Forall_forall. intros c Hc.
    apply In_ge_get_consuming_ops in Hc.
    destruct Hts as [<-|[]]. simpl in Hc.
    unfold ranked. destruct Hc as [<-|[<-|[<-|[<-|[]]]]]; discriminate.
  - exists ts_dests, s1. split; [exact Hlog|]. split.
    + rewrite <- Hrun. apply Hvisit; [intros [] | left; reflexivity].
    + apply (proj2 (Hget (0%nat, 0%nat) [3%nat; 4%nat])).
      split; [left; reflexivity|].
      split; [exists 2; split; [reflexivity | lia]|].
      split; [reflexivity | discriminate].
Defined.

(** ** The consumer grouper, [_groupby] *)

Lemma removelast_map {A B} (f : A -> B) l : removelast (map f l) = map f (removelast l).
Proof.
  induction l as [|a [|b r] IH]; try reflexivity.
  cbn [map removelast] in *. rewrite IH. reflexivity.
Qed.

Lemma groupby_merge_known limit ys curr :
  ys <> [] ->
  _groupby_merge limit (map some_pair ys) (some_pair curr)
  = Ok (map some_pair (merge_z limit ys curr)).
Proof.
  intros Hne. unfold _groupby_merge, merge_z. rewrite <- map_rev.
  destruct (rev ys) as [|last r] eqn:E.
  { exfalso. apply Hne. apply (f_equal (@rev _)) in E. rewrite rev_involutive in E.
    exact E. }
  cbn [map some_pair fst snd py_sub rbind].
  destruct (fst curr - snd last <=? limit).
  - rewrite removelast_map, map_app. reflexivity.
  - rewrite map_app. reflexivity.
Qed.

Lemma merge_z_nonempty limit ys curr : ys <> [] -> merge_z limit ys curr <> [].
Proof.
  intros Hne. unfold merge_z. destruct (rev ys); [exact Hne|].
  destruct (_ <=? _); intros E; apply app_eq_nil in E; destruct E; discriminate.
Qed.

Lemma groupby_ys_known limit rest :
  forall ys, ys <> [] ->
    _groupby_ys limit (map some_pair ys) (map some_pair rest)
    = Ok (map some_pair (fold_left (merge_z limit) rest ys)).
Proof.
  induction rest as [|curr r IH]; intros ys Hne; [reflexivity|].
  cbn [map _groupby_ys fold_left]. rewrite groupby_merge_known by exact Hne.
  cbn [rbind]. apply IH. apply merge_z_nonempty. exact Hne.
Qed.

Lemma groupby_gs_known t ops y :
  Forall (ranked t) ops ->
  _groupby_gs (map (fun o => (o, get_order t o)) ops) (some_pair y)
  = Ok (filter (fun o => (fst y <=? rank_of t o) && (rank_of t o <=? snd y)) ops).
Proof.
  induction 1 as [|o r Ho Hr IH]; [reflexivity|].
  cbn [map _groupby_gs filter some_pair fst snd]. rewrite IH.
  unfold ranked in Ho. unfold rank_of.
  destruct (get_order t o) as [z|]; [|congruence].
  cbn [py_le rbind]. destruct (fst y <=? z); cbn [rbind py_le andb];
    [destruct (z <=? snd y)|]; reflexivity.
Qed.

Lemma groupby_zs_known t ops ys :
  Forall (ranked t) ops ->
  _groupby_zs (map (fun o => (o, get_order t o)) ops) (map some_pair ys)
  = Ok (map (band t ops) ys).
Proof.
  intros Hall. induction ys as [|y r IH]; [reflexivity|].
  cbn [map _groupby_zs]. rewrite (groupby_gs_known t ops y Hall), IH. reflexivity.
Qed.

Lemma sorted_by_short {A} (key : A -> Z) (l : list A) :
  (List.length l <= 1)%nat -> sorted_by key (rev l) = l.
Proof.
  destruct l as [|a [|b r]]; simpl; intros H; try reflexivity. lia.
Qed.

Lemma sorted_ranks_known t ops :
  Forall (ranked t) ops ->
  py_sorted_key (fun i => i) (map snd (map (fun o => (o, get_order t o)) ops))
  = Ok (map Some (sorted_by (fun z => z) (rev (map (rank_of t) ops)))).
Proof.
  intros Hall.
  assert (E : map snd (map (fun o => (o, get_order t o)) ops)
              = map Some (map (rank_of t) ops)).
  { rewrite !map_map. apply map_ext_in. intros o Ho. cbn [snd].
    rewrite Forall_forall in Hall. specialize (Hall o Ho).
    unfold ranked in Hall. unfold rank_of.
    destruct (get_order t o); congruence. }
  rewrite E. generalize (map (rank_of t) ops). intros zs.
  destruct (le_lt_dec 2 (List.length zs)) as [Hlen|Hlen].
  - rewrite py_sorted_key_long by (rewrite length_map; exact Hlen).
    assert (Hs : all_some (map (fun i : option Z => i) (map Some zs)) <> None).
    { apply all_some_ranked. apply Forall_forall. intros a Ha.
      apply in_map_iff in Ha. destruct Ha as (z & <- & _). discriminate. }
    destruct (all_some _); [|congruence].
    rewrite <- map_rev, sorted_by_map. reflexivity.
  - rewrite sorted_by_short by lia.
    destruct zs as [|a [|b r]]; simpl in Hlen; try lia; reflexivity.
Qed.

(** On a non-empty list of ranked operations [_groupby] returns the
    bands and leaves the object as it was. *)
Lemma groupby_run t ops limit s :
  _topo_sort s = Some t -> ops <> [] -> Forall (ranked t) ops ->
  _groupby ops limit s = Ok (bands t ops limit, s).
Proof.
  intros Ht Hne Hall. unfold _groupby.
  rewrite (bind_ok _ _ _ _ _ (keyed_run t (fun o => o) ops s Ht)).
  rewrite sorted_ranks_known by exact Hall. rewrite bind_lift_ok.
  unfold bands, intervals.
  destruct (sorted_by (fun z => z) (rev (map (rank_of t) ops))) as [|x0 r] eqn:E.
  { exfalso. apply Hne. apply (f_equal (@List.length _)) in E.
    rewrite length_sorted_by, length_rev, length_map in E.
    destruct ops; [reflexivity | discriminate]. }
  cbn [map py_head tl]. rewrite bind_lift_ok.
  change [(Some x0, Some x0)] with (map some_pair [(x0, x0)]).
  replace (map (fun i => (i, i)) (map Some r))
    with (map some_pair (map (fun i => (i, i)) r))
    by (rewrite !map_map; reflexivity).
  rewrite groupby_ys_known by discriminate. rewrite bind_lift_ok.
  rewrite groupby_zs_known by exact Hall. reflexivity.
Qed.

Lemma fold_merge_z limit rest :
  forall done lo hi,
    fold_left (merge_z limit) (map (fun i => (i, i)) rest) (done ++ [(lo, hi)])
    = done ++ intervals_from limit lo hi rest.
Proof.
  induction rest as [|c r IH]; intros done lo hi; [reflexivity|].
  cbn [map fold_left intervals_from]. unfold merge_z at 2.
  rewrite rev_app_distr. cbn [rev app fst snd].
  destruct (c - hi <=? limit).
  - rewrite removelast_last. apply IH.
  - rewrite (IH (done ++ [(lo, hi)]) c c), <- app_assoc. reflexivity.
Qed.

Lemma intervals_eq limit x0 r :
  intervals limit (x0 :: r) = intervals_from limit x0 x0 r.
Proof. unfold intervals. apply (fold_merge_z limit r [] x0 x0). Qed.

Lemma intervals_from_props limit :
  0 <= limit ->
  forall rest lo hi seen,
    StronglySorted Z.le rest -> Forall (fun c => hi <= c) rest ->
    In lo seen -> In hi seen -> (forall c, In c seen -> lo <= c <= hi) ->
    (forall c, In c seen -> c = lo \/ exists c', In c' seen /\ c' < c /\ c - c' <= limit) ->
    (forall c, In c (seen ++ rest) -> covered (intervals_from limit lo hi rest) c) /\
    (forall y, In y (intervals_from limit lo hi rest) -> chained limit (seen ++ rest) y) /\
    (forall y, In y (intervals_from limit lo hi rest) ->
               lo <= fst y /\ fst y <= snd y /\ In (fst y) (seen ++ rest)) /\
    StronglySorted (fun a b => snd a + limit < fst b) (intervals_from limit lo hi rest).
Proof.
  intros Hlimit. induction rest as [|c r IH]; intros lo hi seen Hs Hge Hlo Hhi Hb Hch.
  - cbn [intervals_from]. rewrite app_nil_r. repeat split.
    + intros c Hc. exists (lo, hi). split; [left; reflexivity | apply Hb; exact Hc].
    + intros y [<-|[]] c Hc Hr. cbn [fst snd] in *.
      destruct (Hch c Hc) as [->|(c' & Hc' & Hlt & Hd)]; [left; reflexivity|].
      right. exists c'. specialize (Hb c' Hc'). repeat split; try assumption; lia.
    + destruct H as [<-|[]]. cbn [fst]. lia.
    + destruct H as [<-|[]]. cbn [fst snd]. specialize (Hb lo Hlo). lia.
    + destruct H as [<-|[]]. exact Hlo.
    + constructor; constructor.
  - inversion Hs as [|? ? Hsr Hcr]; subst. inversion Hge as [|? ? Hhc Hhr]; subst.
    pose proof (Hb lo Hlo) as Hlohi.
    cbn [intervals_from]. destruct (c - hi <=? limit) eqn:E.
    + apply Z.leb_le in E.
      destruct (IH lo c (seen ++ [c])) as (A & B & C & D); try assumption.
      * apply in_or_app. left. exact Hlo.
      * apply in_or_app. right. left. reflexivity.
      * intros d Hd. apply in_app_or in Hd. destruct Hd as [Hd|[<-|[]]];
          [specialize (Hb d Hd); lia | lia].
      * intros d Hd. apply in_app_or in Hd. destruct Hd as [Hd|[<-|[]]].
        -- destruct (Hch d Hd) as [->|(c' & Hc' & Hlt & Hdd)]; [left; reflexivity|].
           right. exists c'. split; [apply in_or_app; left; exact Hc' | split; assumption].
        -- destruct (Z.eq_dec c hi) as [->|Hne].
           ++ destruct (Hch hi Hhi) as [->|(c' & Hc' & Hlt & Hdd)]; [left; reflexivity|].
              right. exists c'. split; [apply in_or_app; left; exact Hc' | split; assumption].
           ++ right. exists hi. split; [apply in_or_app; left; exact Hhi | lia].
      * rewrite <- app_assoc in A, B, C. cbn [app] in A, B, C.
        repeat split; try assumption; apply C; assumption.
    + apply Z.leb_gt in E.
      destruct (IH c c [c]) as (A & B & C & D); try assumption.
      * left. reflexivity.
      * left. reflexivity.
      * intros d [<-|[]]. lia.
      * intros d [<-|[]]. left. reflexivity.
      * cbn [app] in A, B, C.
        assert (Hrest : forall d, In d (c :: r) -> hi < d).
        { intros d [<-|Hd]; [lia|]. rewrite Forall_forall in Hcr.
          specialize (Hcr d Hd). lia. }
        repeat split.
        -- intros d Hd. apply in_app_or in Hd. destruct Hd as [Hd|Hd].
           ++ exists (lo, hi). split; [left; reflexivity | apply Hb; exact Hd].
           ++ destruct (A d Hd) as (y & Hy & Hr). exists y. split; [right; exact Hy | exact Hr].
        -- intros y [<-|Hy] d Hd Hr; cbn [fst snd] in *.
           ++ apply in_app_or in Hd. destruct Hd as [Hd|Hd].
              ** destruct (Hch d Hd) as [->|(c' & Hc' & Hlt & Hdd)]; [left; reflexivity|].
                 right. exists c'. specialize (Hb c' Hc').
                 split; [apply in_or_app; left; exact Hc' | lia].
              ** specialize (Hrest d Hd). lia.
           ++ destruct (C y Hy) as (Hcy & _ & _).
              apply in_app_or in Hd. destruct Hd as [Hd|Hd].
              ** specialize (Hb d Hd). lia.
              ** destruct (B y Hy d Hd Hr) as [->|(c' & Hc' & Hlt & Hdd)];
                   [left; reflexivity|].
                 right. exists c'. split; [apply in_or_app; right; exact Hc' | lia].
        -- destruct H as [<-|Hy]; [cbn [fst]; lia|]. destruct (C y Hy) as (Hcy & _ & _). lia.
        -- destruct H as [<-|Hy]; [cbn [fst snd]; lia|]. apply (C y Hy).
        -- destruct H as [<-|Hy]; [apply in_or_app; left; exact Hlo|].
           apply in_or_app. right. apply (C y Hy).
        -- constructor; [exact D|]. apply Forall_forall. intros y Hy.
           destruct (C y Hy) as (Hcy & _ & _). cbn [snd]. lia.
Qed.

Lemma intervals_props limit x :
  0 <= limit -> x <> [] -> StronglySorted Z.le x ->
  (forall c, In c x -> covered (intervals limit x) c) /\
  (forall y, In y (intervals limit x) -> chained limit x y) /\
  (forall y, In y (intervals limit x) -> fst y <= snd y /\ In (fst y) x) /\
  StronglySorted (fun a b => snd a + limit < fst b) (intervals limit x).
Proof.
  intros Hlimit Hne Hs. destruct x as [|x0 r]; [congruence|].
  rewrite intervals_eq. inversion Hs as [|? ? Hsr Hx0]; subst.
  destruct (intervals_from_props limit Hlimit r x0 x0 [x0]) as (A & B & C & D);
    try assumption.
  - left. reflexivity.
  - left. reflexivity.
  - intros c [<-|[]]. lia.
  - intros c [<-|[]]. left. reflexivity.
  - cbn [app] in A, B, C. repeat split; try assumption; apply C; assumption.
Qed.

Lemma In_band t ops y o :
  In o (band t ops y) <-> In o ops /\ fst y <= rank_of t o <= snd y.
Proof.
  unfold band. rewrite In_py_set, filter_In, andb_true_iff, !Z.leb_le. tauto.
Qed.

Lemma In_sorted_ranks t ops c :
  In c (sorted_by (fun z => z) (rev (map (rank_of t) ops))) <->
  exists o, In o ops /\ rank_of t o = c.
Proof.
  rewrite In_sorted_by, <- in_rev, in_map_iff. split.
  - intros (o & E & Ho). exists o. auto.
  - intros (o & Ho & E). exists o. auto.
Qed.

(** What the bands are, for a limit that is not negative. *)
Lemma bands_props t ops limit :
  0 <= limit -> ops <> [] ->
  (forall o, In o ops <-> exists b, In b (bands t ops limit) /\ In o b) /\
  (forall b, In b (bands t ops limit) ->
     b <> [] /\ NoDup b /\
     exists lo hi, forall o, In o b <-> In o ops /\ lo <= rank_of t o <= hi) /\
  StronglySorted
    (fun b1 b2 => forall o1 o2, In o1 b1 -> In o2 b2 ->
                                rank_of t o1 + limit < rank_of t o2)
    (bands t ops limit) /\
  (forall b, In b (bands t ops limit) -> forall o, In o b ->
     (forall o', In o' b -> rank_of t o <= rank_of t o') \/
     exists o', In o' b /\ rank_of t o' < rank_of t o /\
                rank_of t o - rank_of t o' <= limit).
Proof.
  intros Hlimit Hne. unfold bands.
  set (x := sorted_by (fun z => z) (rev (map (rank_of t) ops))).
  assert (Hx : x <> []).
  { intros E. apply Hne. apply (f_equal (@List.length _)) in E. unfold x in E.
    rewrite length_sorted_by, length_rev, length_map in E.
    destruct ops; [reflexivity | discriminate]. }
  assert (Hs : StronglySorted Z.le x).
  { unfold x. rewrite <- (map_id (sorted_by _ _)). apply sorted_by_sorted. }
  destruct (intervals_props limit x Hlimit Hx Hs) as (A & B & C & D).
  split; [|split; [|split]].
  - intros o. split.
    + intros Ho. destruct (A (rank_of t o)) as (y & Hy & Hr).
      { apply In_sorted_ranks. exists o. auto. }
      exists (band t ops y). split; [apply in_map; exact Hy | apply In_band; auto].
    + intros (b & Hb & Hob). apply in_map_iff in Hb. destruct Hb as (y & <- & _).
      apply In_band in Hob. apply Hob.
  - intros b Hb. apply in_map_iff in Hb. destruct Hb as (y & <- & Hy).
    destruct (C y Hy) as [Hle Hin]. apply In_sorted_ranks in Hin.
    destruct Hin as (o & Ho & Eo). split; [|split].
    + intros E. assert (Hob : In o (band t ops y)) by (apply In_band; split; [exact Ho | lia]).
      rewrite E in Hob. exact Hob.
    + unfold band, py_set. apply NoDup_nodup.
    + exists (fst y), (snd y). intros o'. apply In_band.
  - clear A B C. induction D as [|y ys Hys IH Hy]; cbn [map]; constructor; [exact IH|].
    apply Forall_forall. intros b Hb. apply in_map_iff in Hb.
    destruct Hb as (y' & <- & Hy'). rewrite Forall_forall in Hy. specialize (Hy y' Hy').
    intros o1 o2 H1 H2. apply In_band in H1, H2. lia.
  - intros b Hb o Hob. apply in_map_iff in Hb. destruct Hb as (y & <- & Hy).
    apply In_band in Hob. destruct Hob as [Ho Hr].
    destruct (B y Hy (rank_of t o)) as [E|(c' & Hc' & Hlt & Hd)].
    + apply In_sorted_ranks. exists o. auto.
    + exact Hr.
    + left. intros o' Ho'. apply In_band in Ho'. lia.
    + right. apply In_sorted_ranks in Hc'. destruct Hc' as (o' & Ho' & Eo').
      exists o'. split; [apply In_band; split; [exact Ho' | lia] | lia].
Qed.

(** C4 as amended.  For every non-empty list of ranked consumers and
    every limit that is not negative [_groupby] returns an ordered list
    of bands such that: the consumers of the bands together are exactly
    the consumers given; every band is non-empty, holds no consumer twice
    and is the set of the given consumers whose rank lies in an interval;
    each band lies wholly below the next, more than [limit] apart, so no
    consumer is in two bands; and in a band every rank but the lowest is
    at most [limit] above a lower rank of the band.  For the ranks 1, 2,
    10, 11, 12, 20 and limit 5 the bands are the consumers of ranks
    {1, 2}, {10, 11, 12} and {20}. *)
Theorem groupby_partitions_into_bands :
  (forall (self : LMS) (t : TOPOS) (ops : list op) (limit : Z),
     _topo_sort self = Some t -> ops <> [] -> Forall (ranked t) ops -> 0 <= limit ->
     exists zs,
       _groupby ops limit self = Ok (zs, self) /\
       (forall o, In o ops <-> exists b, In b zs /\ In o b) /\
       (forall b, In b zs ->
          b <> [] /\ NoDup b /\
          exists lo hi, forall o, In o b <-> In o ops /\ lo <= rank_of t o <= hi) /\
       StronglySorted
         (fun b1 b2 => forall o1 o2, In o1 b1 -> In o2 b2 ->
                                     rank_of t o1 + limit < rank_of t o2) zs /\
       (forall b, In b zs -> forall o, In o b ->
          (forall o', In o' b -> rank_of t o <= rank_of t o') \/
          exists o', In o' b /\ rank_of t o' < rank_of t o /\
                     rank_of t o - rank_of t o' <= limit)) /\
  _groupby [0; 1; 2; 3; 4; 5]%nat 5 (LMS_with_ranks grouping_ranks)
  = Ok ([[0; 1]; [2; 3; 4]; [5]]%nat, LMS_with_ranks grouping_ranks).
Proof.
  split; [|reflexivity].
  intros self t ops limit Ht Hne Hall Hlimit.
  exists (bands t ops limit). split; [apply groupby_run; assumption|].
  apply bands_props; assumption.
Qed.

Lemma groupby_partitions_into_bands_witness :
  exists zs,
    _groupby [2; 0; 1]%nat 5 (LMS_with_ranks grouping_ranks)
    = Ok (zs, LMS_with_ranks grouping_ranks) /\
    forall o, In o [2; 0; 1]%nat <-> exists b, In b zs /\ In o b.
Proof.
  destruct (proj1 groupby_partitions_into_bands (LMS_with_ranks grouping_ranks)
              (mkTOPOS (rank_in grouping_ranks)
                       (fun i => map fst (filter (fun p => snd p =? i) grouping_ranks))
                       21)
              [2; 0; 1]%nat 5) as (zs & Hrun & Hcover & _).
  - reflexivity.
  - discriminate.
  - repeat constructor; discriminate.
  - lia.
  - exists zs. split; assumption.
Defined.

(** C4 as stated fails for a negative limit: two consumers of rank 5
    grouped with limit -1 come back in two bands, each holding both. *)
Lemma groupby_negative_limit_duplicates :
  _groupby [0; 1]%nat (-1) (LMS_with_ranks [(0%nat, 5); (1%nat, 5)])
  = Ok ([[0; 1]; [0; 1]]%nat, LMS_with_ranks [(0%nat, 5); (1%nat, 5)]).
Proof. reflexivity. Qed.

(** ** The bound on the traversal *)

Lemma bind_more {A B} (m : M A) (k k' : A -> M B) s (e0 : error) :
  (forall a s1, m s = Ok (a, s1) -> k a s1 <> Raise e0 -> k' a s1 = k a s1) ->
  bind m k s <> Raise e0 -> bind m k' s = bind m k s.
Proof.
  unfold bind. destruct (m s) as [[a s1]|e]; [|reflexivity].
  intros H Hne. apply H; [reflexivity | exact Hne].
Qed.

Lemma bind_more_l {A B} (m m' : M A) (k : A -> M B) s (e0 : error) :
  (m s <> Raise e0 -> m' s = m s) ->
  bind m k s <> Raise e0 -> bind m' k s = bind m k s.
Proof.
  unfold bind. intros H Hne.
  rewrite H; [reflexivity|]. intros E. rewrite E in Hne. apply Hne. reflexivity.
Qed.

Ltac more_fuel :=
  repeat (apply (bind_more _ _ _ _ OutOfFuel); intros ? ? _; cbv beta).

(** A traversal that did not run out of rounds does the same with one
    round more. *)
Lemma do_action_while_more_fuel fuel :
  forall open_set closed_set s,
    _do_action_while fuel open_set closed_set s <> Raise OutOfFuel ->
    _do_action_while (S fuel) open_set closed_set s
    = _do_action_while fuel open_set closed_set s.
Proof.
  induction fuel as [|fuel IH]; intros open_set closed_set s H.
  - destruct open_set; [reflexivity|]. exfalso. apply H. reflexivity.
  - destruct open_set as [|src_op queue]; [reflexivity|].
    change (_do_action_while (S (S fuel)) (src_op :: queue) closed_set s)
      with ((fo <- _fanouts src_op ;;
             _do_action_visit src_op ;;;
             _do_action_while (S fuel)
               (fold_left (fun q o => if mem_op o closed_set then q
                                      else if mem_op o q then q else q ++ [o])
                          (py_set fo) queue)
               (op_add src_op closed_set)) s).
    change (_do_action_while (S fuel) (src_op :: queue) closed_set s)
      with ((fo <- _fanouts src_op ;;
             _do_action_visit src_op ;;;
             _do_action_while fuel
               (fold_left (fun q o => if mem_op o closed_set then q
                                      else if mem_op o q then q else q ++ [o])
                          (py_set fo) queue)
               (op_add src_op closed_set)) s) in H |- *.
    revert H. more_fuel. apply IH.
Qed.

Lemma run_more_fuel fuel graph s :
  run fuel graph s <> Raise OutOfFuel -> run (S fuel) graph s = run fuel graph s.
Proof.
  unfold run. more_fuel.
  match goal with
  | |- context [match ?x with Some _ => _ | None => raise ValueError end] =>
      destruct x as [g|]; [|reflexivity]
  end.
  more_fuel.
  apply (bind_more_l _ _ _ _ OutOfFuel). unfold _do_action.
  apply do_action_while_more_fuel.
Qed.

Lemma run_enough_fuel fuel n graph s :
  run fuel graph s <> Raise OutOfFuel -> run (n + fuel) graph s = run fuel graph s.
Proof.
  intros H. induction n as [|n IH]; [reflexivity|].
  cbn [Nat.add]. rewrite run_more_fuel; rewrite IH; [reflexivity | exact H].
Qed.

(** C1 (the code departs from it).  On a graph whose tensors are all
    vectors, with every argument of [LMS] at its default (asynchronous
    mode, auto swapin_ahead), the traversal ends within its three rounds
    and creates no triple; [run] then raises IndexError, whatever the
    bound on the rounds from three on: [_sequential_strategy] reads
    [x[0]] of the empty sorted list. *)
Theorem run_raises_without_triples (fuel : nat) :
  (3 <= fuel)%nat ->
  run_on fuel (LMS_default vector_graph) = Raise IndexError.
Proof.
  intros H. replace fuel with ((fuel - 3) + 3)%nat by lia.
  unfold run_on. rewrite LMS_default_object.
  rewrite run_enough_fuel; [vm_compute; reflexivity|].
  vm_compute. discriminate.
Qed.

Lemma run_raises_without_triples_witness :
  run_on 3 (LMS_default vector_graph) = Raise IndexError.
Proof. apply (run_raises_without_triples 3). lia. Defined.

(** ** The reachability cache through the schedule *)

Lemma forward_walk_same g g' :
  List.length g' = List.length g ->
  (forall t, consumers g' t = consumers g t) ->
  (forall o, outputs g' o = outputs g o) ->
  forall o, ge_get_forward_walk_ops g' o = ge_get_forward_walk_ops g o.
Proof.
  intros Hlen Hc Ho o. unfold ge_get_forward_walk_ops. rewrite Hlen.
  generalize (List.length g) as fuel. generalize [o] at 1 3 as result.
  generalize [o] as wave. intros wave result fuel. revert wave result.
  induction fuel as [|fuel IH]; intros wave result; [reflexivity|].
  cbn [forward_walk].
  assert (E : flat_map (fun o0 => flat_map (consumers g') (outputs g' o0)) wave
              = flat_map (fun o0 => flat_map (consumers g) (outputs g o0)) wave).
  { apply flat_map_ext. intros a. rewrite Ho. apply flat_map_ext. intros t. apply Hc. }
  rewrite E. destruct (filter _ _); [reflexivity | apply IH].
Qed.

Lemma forward_walk_add_control_inputs g o cops g' :
  ge_add_control_inputs g o cops = Ok g' ->
  forall c, ge_get_forward_walk_ops g' c = ge_get_forward_walk_ops g c.
Proof.
  unfold ge_add_control_inputs. destruct (existsb _ cops); [discriminate|].
  intros H. inversion H; subst g'; clear H.
  apply forward_walk_same.
  - apply length_update_op.
  - intros t. apply consumers_update_op. reflexivity.
  - intros c. apply outputs_update_op. reflexivity.
Qed.

Lemma cache_kept_refl s : cache_kept s s.
Proof. intros H. exact H. Qed.

Lemma cache_kept_trans a b c : cache_kept a b -> cache_kept b c -> cache_kept a c.
Proof. intros H1 H2 H. apply H2, H1, H. Qed.

Lemma cache_kept_get_forward_walk_ops o b : respects cache_kept (_get_forward_walk_ops o b).
Proof.
  intros s walk s' H Hc. unfold _get_forward_walk_ops in H. rewrite bind_gets in H.
  destruct (ops_dict_get o (_ops_dict s)) eqn:E.
  - destruct b; inversion H; subst; exact Hc.
  - rewrite bind_gets in H.
    assert (Es : s' = set_ops_dict
                        (_ops_dict s ++ [(o, ge_get_forward_walk_ops (graph_of s) o)]) s).
    { destruct b; inversion H; reflexivity. }
    subst s'. intros k w. cbn. rewrite ops_dict_get_app.
    destruct (ops_dict_get k (_ops_dict s)) eqn:Ek.
    + intros Hw. inversion Hw; subst. apply (Hc k w Ek).
    + destruct (Nat.eqb_spec o k); [|discriminate].
      intros Hw. inversion Hw; subst. reflexivity.
Qed.

Lemma cache_kept_add_control_inputs op1 op2 : respects cache_kept (_add_control_inputs op1 op2).
Proof.
  intros s b s' H Hc.
  destruct (add_control_inputs_cases op1 op2 s) as [[Hrun _]|(g' & Hrun & Hge & _)];
    rewrite Hrun in H; inversion H; subst; [exact Hc|].
  intros k w Hk. rewrite graph_of_set_graph.
  rewrite (forward_walk_add_control_inputs _ _ _ _ Hge). apply Hc. exact Hk.
Qed.

Lemma cache_kept_log_info msg level : respects cache_kept (_log_info msg level).
Proof.
  intros s u s' H Hc. destruct (log_info_run msg level s) as (s1 & Hrun & _ & G & D).
  rewrite Hrun in H. inversion H; subst. intros k w Hk. rewrite G. apply Hc.
  rewrite <- D. exact Hk.
Qed.

Lemma cache_kept_get_order o : respects cache_kept (_get_order o).
Proof.
  intros s a s' H. unfold _get_order in H.
  destruct (_topo_sort s); inversion H; subst. apply cache_kept_refl.
Qed.

Lemma cache_kept_get_ops_by_order i : respects cache_kept (_get_ops_by_order i).
Proof.
  intros s a s' H. unfold _get_ops_by_order in H.
  destruct (_topo_sort s); inversion H; subst. apply cache_kept_refl.
Qed.

Ltac cached_step :=
  first
    [ apply (respects_ret cache_kept cache_kept_refl)
    | apply (respects_gets cache_kept cache_kept_refl)
    | apply (respects_lift cache_kept cache_kept_refl)
    | apply cache_kept_log_info
    | apply cache_kept_get_order
    | apply cache_kept_get_ops_by_order
    | apply cache_kept_get_forward_walk_ops
    | apply cache_kept_add_control_inputs
    | apply (respects_bind cache_kept cache_kept_trans); [ | intros]
    | apply (respects_filter_m cache_kept cache_kept_refl cache_kept_trans); intros ].

Lemma cache_kept_do_direct_order_for src_op orders :
  respects cache_kept (_do_direct_order_for src_op orders).
Proof.
  induction orders as [|i r IH]; cbn [_do_direct_order_for]; [cached_step|].
  do 3 (cached_step; [repeat cached_step|]).
  destruct (filter _ _); [exact IH | cached_step].
Qed.

(** Every call of the schedule leaves the cache coherent for the next. *)
Lemma cache_kept_add_control_dependency src_op dest_op swapin_op ahead :
  respects cache_kept (_add_control_dependency src_op dest_op swapin_op ahead).
Proof.
  unfold _add_control_dependency, _do_direct_order.
  cached_step.
  { do 4 (cached_step; [repeat cached_step|]).
    cached_step; [apply cache_kept_do_direct_order_for|].
    destruct (fst _); cached_step. }
  destruct (fst _); repeat cached_step.
Qed.

(** * Further properties of the methods *)

(** ** Scheduling with nothing to schedule *)

(** X1. With no triple recorded, the user-defined-ahead strategy and
    [_sync_ops] in every mode return with the object as it was: their
    loops run over the empty list.  (The auto strategy is the one path
    that does not return on the empty list.) *)
Theorem no_triples_nothing_to_schedule (self : LMS) :
  _ops_triples self = [] ->
  (0 <= _swapin_ahead self -> _add_control_dependencies self = Ok (tt, self)) /\
  (forall sync_mode, _sync_ops sync_mode self = Ok (tt, self)).
Proof.
  intros Hx. split.
  - intros Ha. unfold _add_control_dependencies. rewrite bind_gets.
    assert (E : (_swapin_ahead self <? 0) = false) by (apply Z.ltb_ge; exact Ha).
    rewrite E, bind_gets, Hx. reflexivity.
  - intros sync_mode. rewrite sync_ops_eq. unfold bind at 1.
    destruct (existsb (Z.eqb sync_mode) [1; 3]);
      destruct (existsb (Z.eqb sync_mode) [2; 3]);
      rewrite ?bind_gets, ?Hx; cbn [map py_set nodup for_each]; unfold ret;
      rewrite ?bind_gets, ?Hx; reflexivity.
Qed.

Lemma no_triples_nothing_to_schedule_witness :
  _sync_ops 3 two_readers_LMS = Ok (tt, two_readers_LMS).
Proof.
  apply (proj2 (no_triples_nothing_to_schedule two_readers_LMS eq_refl)).
Defined.

(** ** The trigger search at its bounds *)

Lemma py_range_empty lb ub : ub <= lb -> py_range lb ub = [].
Proof.
  intros H. unfold py_range. replace (Z.to_nat (ub - lb)) with O by lia. reflexivity.
Qed.

(** X2. [_do_direct_order] needs both ranks: when the producer [fw_op]
    or the anchor consumer [src_op] has no rank, the arithmetic on None
    raises TypeError.  When both are ranked and the window is empty,
    rank(src_op) - distance <= rank(fw_op) + 1, it answers (None, -1)
    without a look at the graph or the cache, and
    [_add_control_dependency] leaves the graph as it was. *)
Theorem direct_order_bounds (self : LMS) (t : TOPOS) (fw_op src_op swapin_op : op)
        (distance : Z) :
  _topo_sort self = Some t ->
  (get_order t fw_op = None \/ get_order t src_op = None ->
   _do_direct_order fw_op src_op distance self = Raise TypeError) /\
  (forall fw_order src_order,
     get_order t fw_op = Some fw_order -> get_order t src_op = Some src_order ->
     src_order - distance <= fw_order + 1 ->
     _do_direct_order fw_op src_op distance self = Ok ((None, -1), self) /\
     exists self',
       _add_control_dependency fw_op src_op swapin_op distance self = Ok (tt, self') /\
       graph_of self' = graph_of self /\ _ops_dict self' = _ops_dict self).
Proof.
  intros Ht. split.
  - intros H. unfold _do_direct_order.
    rewrite (bind_ok _ _ _ _ _ (get_order_run _ _ fw_op Ht)).
    rewrite (bind_ok _ _ _ _ _ (get_order_run _ _ src_op Ht)).
    destruct (get_order t src_op) as [so|]; [|reflexivity].
    destruct H as [H|H]; [|discriminate]. rewrite H. reflexivity.
  - intros fw_order src_order Hfw Hsrc Hw.
    assert (Hrun : _do_direct_order fw_op src_op distance self = Ok ((None, -1), self)).
    { unfold _do_direct_order.
      rewrite (bind_ok _ _ _ _ _ (get_order_run _ _ fw_op Ht)).
      rewrite (bind_ok _ _ _ _ _ (get_order_run _ _ src_op Ht)).
      rewrite Hfw, Hsrc. cbn [py_sub py_add]. rewrite !bind_lift_ok.
      rewrite py_range_empty by exact Hw. reflexivity. }
    split; [exact Hrun|].
    unfold _add_control_dependency. rewrite (bind_ok _ _ _ _ _ Hrun). cbn [fst].
    rewrite bind_gets.
    destruct (log_info_run (InfoNoControlDependency (name (graph_of self) fw_op)) 1 self)
      as (s1 & Hlog & _ & G & D).
    exists s1. split; [exact Hlog|]. split; assumption.
Qed.

Lemma direct_order_bounds_witness :
  _do_direct_order 0%nat 5%nat 4 chain_LMS = Ok ((None, -1), chain_LMS).
Proof.
  destruct (direct_order_bounds chain_LMS
              (TOPOS_build (chain_graph "MatMul")
                           (ge_make_list_of_op (chain_graph "MatMul")))
              0%nat 5%nat 7%nat 4 eq_refl) as [_ H].
  destruct (H 0 5 eq_refl eq_refl) as [Hrun _]; [lia | exact Hrun].
Defined.

(** ** The consumer grouper on lists it cannot group *)

Lemma all_some_none {A} (xs : list (option A)) : In None xs -> all_some xs = None.
Proof.
  induction xs as [|[a|] r IH]; simpl; intros H.
  - destruct H.
  - destruct H as [H|H]; [discriminate|]. rewrite (IH H). reflexivity.
  - reflexivity.
Qed.

(** X3. [_groupby] cannot group an empty list: [xs[0]] raises IndexError.
    A list with an operation that has no rank raises TypeError, in the
    sort when the list has two operations or more, in the comparison
    with the interval when it has one. *)
Theorem groupby_rejects (self : LMS) (t : TOPOS) (limit : Z) :
  _topo_sort self = Some t ->
  _groupby [] limit self = Raise IndexError /\
  (forall ops o, In o ops -> get_order t o = None ->
                 _groupby ops limit self = Raise TypeError).
Proof.
  intros Ht. split; [reflexivity|].
  intros ops o Hin Ho. unfold _groupby.
  rewrite (bind_ok _ _ _ _ _ (keyed_run t (fun o => o) ops self Ht)).
  rewrite map_map. cbn [snd].
  destruct ops as [|a [|b r]].
  - destruct Hin.
  - destruct Hin as [<-|[]]. cbn. rewrite Ho. reflexivity.
  - rewrite py_sorted_key_long by (rewrite length_map; simpl; lia).
    rewrite map_id, all_some_none; [reflexivity|].
    rewrite <- Ho. apply in_map. exact Hin.
Qed.

Lemma groupby_rejects_witness :
  _groupby [3; 4]%nat 5 unranked_LMS = Raise TypeError.
Proof.
  apply (proj2 (groupby_rejects unranked_LMS unranked_topos 5 eq_refl) [3; 4]%nat 4%nat).
  - simpl. auto.
  - reflexivity.
Defined.

(** ** Selecting operations by scope and type *)

Lemma mem_str_In a s : mem_str a s = true <-> In a s.
Proof.
  unfold mem_str. rewrite existsb_exists. split.
  - intros [x [Hin Hx]]. apply String.eqb_eq in Hx. subst. exact Hin.
  - intros H. exists a. split; [exact H | apply String.eqb_refl].
Qed.

Lemma NoDup_op_add a s : NoDup s -> NoDup (op_add a s).
Proof.
  intros H. unfold op_add. destruct (mem_op a s) eqn:E; [exact H|].
  apply mem_op_false in E.
  apply NoDup_app; [exact H | repeat constructor; intros [] | ].
  intros x Hx [<-|[]]. exact (E Hx).
Qed.

Lemma In_op_union x s t : In x (op_union s t) <-> In x s \/ In x t.
Proof.
  unfold op_union. revert s. induction t as [|a r IH]; intros s; simpl.
  - tauto.
  - rewrite IH, In_op_add. split; intros H; intuition (subst; auto).
Qed.

Lemma NoDup_op_union s t : NoDup s -> NoDup (op_union s t).
Proof.
  unfold op_union. revert s. induction t as [|a r IH]; intros s H; simpl.
  - exact H.
  - apply IH. apply NoDup_op_add. exact H.
Qed.

Lemma In_scope_ops g ops scope o :
  In o (scope_ops g ops scope) <-> In o ops /\ in_scope g o scope = true.
Proof. unfold scope_ops. apply filter_In. Qed.

Lemma name_scope_ops_plain g ops scope :
  plain_scope scope -> ge_get_name_scope_ops g ops scope = Ok (scope_ops g ops scope).
Proof.
  unfold plain_scope, ge_get_name_scope_ops. cbv zeta. intros ->. reflexivity.
Qed.

Lemma name_scope_ops_not_plain g ops scope :
  regex_plain (strip_slash scope) = false ->
  ge_get_name_scope_ops g ops scope = Raise OutOfModel.
Proof. unfold ge_get_name_scope_ops. cbv zeta. intros ->. reflexivity. Qed.

Lemma scopes_fold g within_ops scopes : forall acc,
  let ops := fold_left (fun acc scope => op_union acc (py_set (scope_ops g within_ops scope)))
                       scopes acc in
  (NoDup acc -> NoDup ops) /\
  forall o, In o ops <->
            In o acc \/ (In o within_ops /\ exists scope, In scope scopes /\ in_scope g o scope = true).
Proof.
  induction scopes as [|sc r IH]; intros acc; simpl.
  - split; [auto|]. intros o. split; [auto|]. intros [H|[_ [s [[] _]]]]. exact H.
  - destruct (IH (op_union acc (py_set (scope_ops g within_ops sc)))) as [Hn Hi].
    split.
    + intros H. apply Hn. apply NoDup_op_union. exact H.
    + intros o. rewrite Hi, In_op_union, In_py_set, In_scope_ops. split.
      * intros [[H|[H1 H2]]|[H1 [s [H2 H3]]]]; [left; exact H | right | right].
        -- split; [exact H1|]. exists sc. split; [left; reflexivity | exact H2].
        -- split; [exact H1|]. exists s. split; [right; exact H2 | exact H3].
      * intros [H|[H1 [s [[<-|H2] H3]]]].
        -- left; left; exact H.
        -- left; right; split; assumption.
        -- right. split; [exact H1|]. exists s. split; assumption.
Qed.

(** The loop over the scopes returns exactly when every scope is one
    the model covers. *)
Lemma scopes_fold_raise g within_ops scopes e :
  fold_left (fun acc scope =>
               rbind acc (fun ops =>
               rbind (ge_get_name_scope_ops g within_ops scope) (fun found =>
               Ok (op_union ops (py_set found)))))
            scopes (Raise e) = Raise e.
Proof. induction scopes as [|sc r IH]; [reflexivity | exact IH]. Qed.

Lemma scopes_fold_run g within_ops scopes : forall acc,
  Forall plain_scope scopes ->
  fold_left (fun acc scope =>
               rbind acc (fun ops =>
               rbind (ge_get_name_scope_ops g within_ops scope) (fun found =>
               Ok (op_union ops (py_set found)))))
            scopes (Ok acc)
  = Ok (fold_left (fun acc scope => op_union acc (py_set (scope_ops g within_ops scope)))
                  scopes acc).
Proof.
  induction scopes as [|sc r IH]; intros acc H; [reflexivity|].
  inversion H as [|x l Hsc Hr]; subst. cbn [fold_left rbind].
  rewrite (name_scope_ops_plain g within_ops sc Hsc). cbn [rbind]. apply IH. exact Hr.
Qed.

Lemma scopes_fold_inv g within_ops scopes : forall acc ops,
  fold_left (fun acc scope =>
               rbind acc (fun ops =>
               rbind (ge_get_name_scope_ops g within_ops scope) (fun found =>
               Ok (op_union ops (py_set found)))))
            scopes (Ok acc) = Ok ops ->
  Forall plain_scope scopes.
Proof.
  induction scopes as [|sc r IH]; intros acc ops H; [constructor|].
  cbn [fold_left rbind] in H.
  destruct (regex_plain (strip_slash sc)) eqn:E.
  - rewrite (name_scope_ops_plain g within_ops sc E) in H. cbn [rbind] in H.
    constructor; [exact E | exact (IH _ _ H)].
  - rewrite (name_scope_ops_not_plain g within_ops sc E) in H. cbn [rbind] in H.
    rewrite scopes_fold_raise in H. discriminate.
Qed.

Lemma filter_scopes_and_types_run within_ops scopes types self :
  Forall plain_scope scopes ->
  _filter_scopes_and_types within_ops scopes types self
  = Ok (selected_ops (graph_of self) within_ops scopes types, self).
Proof.
  intros H. unfold _filter_scopes_and_types. rewrite bind_gets.
  rewrite (scopes_fold_run _ _ _ [] H), bind_lift_ok. reflexivity.
Qed.

Lemma filter_scopes_and_types_inv within_ops scopes types self ops self' :
  _filter_scopes_and_types within_ops scopes types self = Ok (ops, self') ->
  Forall plain_scope scopes /\ self' = self /\
  ops = selected_ops (graph_of self) within_ops scopes types.
Proof.
  intros H.
  assert (P : Forall plain_scope scopes).
  { unfold _filter_scopes_and_types in H. rewrite bind_gets in H.
    destruct (fold_left _ scopes (Ok [])) as [found|e] eqn:E.
    - exact (scopes_fold_inv _ _ _ _ _ E).
    - discriminate. }
  rewrite (filter_scopes_and_types_run _ _ _ _ P) in H. inversion H. auto.
Qed.

Lemma NoDup_selected_ops g within_ops scopes types :
  NoDup (selected_ops g within_ops scopes types).
Proof.
  destruct (scopes_fold g within_ops scopes []) as [Hn _]. cbv zeta in Hn.
  apply NoDup_op_union. apply Hn. constructor.
Qed.

Lemma In_selected_ops g within_ops scopes types o :
  In o (selected_ops g within_ops scopes types) <->
  In o within_ops /\ selects g scopes types o.
Proof.
  destruct (scopes_fold g within_ops scopes []) as [_ Hi]. cbv zeta in Hi.
  unfold selected_ops, selects. rewrite In_op_union, Hi, filter_In, mem_str_In. split.
  - intros [[[]|[H1 H2]]|[H1 H2]]; split; auto.
  - intros [H1 [H2|H2]]; [left; right | right]; split; assumption.
Qed.

(** X4. On scopes that hold no character a regular expression gives a
    meaning to, [_filter_scopes_and_types] returns, without a change to
    the object, a set (no operation twice) that holds exactly the
    operations of [within_ops] whose name the expression of one of the
    scopes finds (the name is the scope, or the scope, a "/" and more)
    or whose type is one of the types.  With no scope and no type the
    set is empty. *)
Theorem filter_scopes_and_types_selects (within_ops : list op) (scopes types : list string)
        (self : LMS) :
  Forall plain_scope scopes ->
  let g := graph_of self in
  exists ops,
    _filter_scopes_and_types within_ops scopes types self = Ok (ops, self) /\
    NoDup ops /\
    (forall o, In o ops <->
               In o within_ops /\
               ((exists scope, In scope scopes /\ in_scope g o scope = true) \/
                In (type g o) types)) /\
    (scopes = [] -> types = [] -> ops = []).
Proof.
  intros Hplain g. exists (selected_ops g within_ops scopes types).
  split; [apply filter_scopes_and_types_run; exact Hplain|].
  split; [apply NoDup_selected_ops|]. split; [intros o; apply In_selected_ops|].
  intros -> ->. unfold selected_ops. simpl.
  induction within_ops as [|a r IH]; [reflexivity | exact IH].
Qed.

Lemma filter_scopes_and_types_selects_witness :
  exists ops,
    _filter_scopes_and_types [0; 1; 2; 3; 4; 5; 6; 7; 8]%nat ["lms/"] ["MatMul"]
                             two_readers_swapped = Ok (ops, two_readers_swapped) /\
    NoDup ops /\ In 8%nat ops.
Proof.
  assert (Hplain : Forall plain_scope ["lms/"]) by (repeat constructor).
  destruct (filter_scopes_and_types_selects [0; 1; 2; 3; 4; 5; 6; 7; 8]%nat ["lms/"]
              ["MatMul"] two_readers_swapped Hplain) as (ops & Hrun & Hnd & Hin & _).
  exists ops. split; [exact Hrun|]. split; [exact Hnd|].
  apply Hin. split; [simpl; tauto|].
  left. exists "lms/". split; [left; reflexivity | reflexivity].
Defined.

(** ** Fan-ins and fan-outs *)

Lemma In_inputs_valid g c t : In t (inputs g c) -> (c < List.length g)%nat.
Proof.
  unfold inputs. intros H. apply nth_error_Some.
  destruct (nth_error g c); [discriminate | destruct H].
Qed.

Lemma In_outputs g o t : In t (outputs g o) -> fst t = o.
Proof.
  unfold outputs. destruct (nth_error g o); [|intros []].
  intros H. apply in_map_iff in H. destruct H as [i [<- _]]. reflexivity.
Qed.

Lemma In_fanouts_in g o c :
  In c (fanouts_in g o) <-> exists t, In t (outputs g o) /\ In t (inputs g c).
Proof.
  unfold fanouts_in, ge_get_consuming_ops. rewrite In_py_set, in_flat_map.
  split; intros [t [H1 H2]]; exists t; (split; [exact H1|]).
  - unfold consumers in H2. apply filter_In in H2. apply mem_tensor_In. apply H2.
  - unfold consumers. apply filter_In. split.
    + apply in_seq. pose proof (In_inputs_valid _ _ _ H2). lia.
    + apply mem_tensor_In. exact H2.
Qed.

(** X5. [_fanouts] and [_fanins] read the graph and leave the object as
    it is.  The fan-outs of [o] are the operations that read an output
    of [o], each once; the fan-ins of [c] are the producers of the
    tensors [c] reads.  A fan-out of [o] has [o] among its fan-ins, and
    on a graph whose operations read only tensors their producers have,
    the converse holds. *)
Theorem fanouts_fanins_dual (self : LMS) (o c : op) :
  let g := graph_of self in
  exists fo fi,
    _fanouts o self = Ok (fo, self) /\ _fanins c self = Ok (fi, self) /\
    NoDup fo /\
    (In c fo <-> exists t, In t (outputs g o) /\ In t (inputs g c)) /\
    (In o fi <-> exists i, In (o, i) (inputs g c)) /\
    (In c fo -> In o fi) /\
    (well_formed g -> In o fi -> In c fo).
Proof.
  intros g. exists (fanouts_in g o), (fanins_in g c).
  assert (Hfi : In o (fanins_in g c) <-> exists i, In (o, i) (inputs g c)).
  { unfold fanins_in, ge_get_generating_ops. rewrite in_map_iff. split.
    - intros [[o' i] [E H]]. simpl in E. subst. exists i. exact H.
    - intros [i H]. exists (o, i). split; [reflexivity | exact H]. }
  split; [apply fanouts_run|]. split; [apply fanins_run|].
  split; [apply NoDup_nodup|]. split; [apply In_fanouts_in|]. split; [exact Hfi|].
  split.
  - intros H. apply In_fanouts_in in H. destruct H as [[o' i] [H1 H2]].
    pose proof (In_outputs _ _ _ H1) as E. simpl in E. subst o'.
    apply Hfi. exists i. exact H2.
  - intros Hwf H. apply Hfi in H. destruct H as [i H].
    apply In_fanouts_in. exists (o, i). split; [apply (Hwf c (o, i) H) | exact H].
Qed.

(** ** The constructor *)

Lemma In_str_union x s t : In x (str_union s t) <-> In x s \/ In x t.
Proof.
  unfold str_union. revert s. induction t as [|a r IH]; intros s; simpl.
  - tauto.
  - rewrite IH. destruct (mem_str a s) eqn:E.
    + apply mem_str_In in E. split; intros H; intuition (subst; auto).
    + rewrite in_app_iff. simpl. split; intros H; intuition (subst; auto).
Qed.

(** X6. The constructor accepts the sync modes 0, 1, 2 and 3 and raises
    ValueError on every other.  The object it returns excludes the types
    the caller gave and the built-in ones, has no swap recorded, and has
    no topological order yet: a rank query on it raises AttributeError. *)
Theorem init_validates (graph : option Graph)
        (excl_scopes incl_scopes excl_types incl_types : list string)
        (swapout_threshold swapin_groupby swapin_ahead sync_mode : Z)
        (debug : bool) (debug_level : Z) (cpu_device : string) :
  let new := __init__ graph excl_scopes incl_scopes excl_types incl_types
                      swapout_threshold swapin_groupby swapin_ahead sync_mode
                      debug debug_level cpu_device in
  (sync_mode < 0 \/ 3 < sync_mode -> new = Raise ValueError) /\
  (0 <= sync_mode <= 3 ->
   exists self,
     new = Ok self /\
     (forall ty, In ty (_excl_types self) <-> In ty excl_types \/ In ty _unused_types) /\
     _sync_mode self = sync_mode /\
     _excl_ops self = [] /\ _incl_ops self = [] /\
     _swapout_ops self = [] /\ _swapin_ops self = [] /\
     _ops_dict self = [] /\ _ops_triples self = [] /\
     forall o, _get_order o self = Raise AttributeError).
Proof.
  intros new. subst new. unfold __init__. split.
  - intros H.
    assert (E : existsb (Z.eqb sync_mode) [0; 1; 2; 3] = false).
    { simpl. repeat (rewrite orb_false_iff; split); try reflexivity; apply Z.eqb_neq; lia. }
    rewrite E. reflexivity.
  - intros H.
    assert (E : existsb (Z.eqb sync_mode) [0; 1; 2; 3] = true).
    { apply existsb_exists. exists sync_mode. split; [simpl; lia | apply Z.eqb_refl]. }
    rewrite E. simpl negb. cbv iota. eexists. split; [reflexivity|]. cbn [_excl_types
      _sync_mode _excl_ops _incl_ops _swapout_ops _swapin_ops _ops_dict _ops_triples].
    split; [intros ty; apply In_str_union|].
    repeat (split; [reflexivity|]). intros o. reflexivity.
Qed.

(** ** The reachability cache on its own *)

(** X7. [_get_forward_walk_ops] always returns.  The first query for an
    operation walks the graph and stores the walk; from then on the
    stored walk is the answer, with no change to the object, whatever
    the graph has become.  The entries of the other operations stay.
    The non-inclusive answer is the stored walk as a set, without the
    operation itself. *)
Theorem forward_walk_is_memoised (o : op) (self : LMS) :
  exists walk self',
    _get_forward_walk_ops o true self = Ok (walk, self') /\
    ops_dict_get o (_ops_dict self') = Some walk /\
    (ops_dict_get o (_ops_dict self) = None ->
     walk = ge_get_forward_walk_ops (graph_of self) o) /\
    (forall o', o' <> o ->
                ops_dict_get o' (_ops_dict self') = ops_dict_get o' (_ops_dict self)) /\
    (forall g', _get_forward_walk_ops o true (set_graph g' self')
                = Ok (walk, set_graph g' self')) /\
    (forall g', exists r,
        _get_forward_walk_ops o false (set_graph g' self') = Ok (r, set_graph g' self') /\
        NoDup r /\ forall x, In x r <-> In x walk /\ x <> o).
Proof.
  assert (Hhit : forall s walk, ops_dict_get o (_ops_dict s) = Some walk ->
            (forall g', _get_forward_walk_ops o true (set_graph g' s)
                        = Ok (walk, set_graph g' s)) /\
            (forall g', exists r,
                _get_forward_walk_ops o false (set_graph g' s) = Ok (r, set_graph g' s) /\
                NoDup r /\ forall x, In x r <-> In x walk /\ x <> o)).
  { intros s walk E. split; intros g'.
    - unfold _get_forward_walk_ops. rewrite bind_gets.
      change (_ops_dict (set_graph g' s)) with (_ops_dict s). rewrite E. reflexivity.
    - exists (op_diff (py_set walk) [o]). split; [|split].
      + unfold _get_forward_walk_ops. rewrite bind_gets.
        change (_ops_dict (set_graph g' s)) with (_ops_dict s). rewrite E. reflexivity.
      + apply NoDup_filter. apply NoDup_nodup.
      + intros x. rewrite In_op_diff, In_py_set. simpl. intuition congruence. }
  destruct (ops_dict_get o (_ops_dict self)) as [w|] eqn:E.
  - exists w, self. split.
    { unfold _get_forward_walk_ops. rewrite bind_gets, E. reflexivity. }
    split; [exact E|]. split; [discriminate|]. split; [reflexivity|].
    apply Hhit. exact E.
  - set (walk := ge_get_forward_walk_ops (graph_of self) o).
    set (self' := set_ops_dict (_ops_dict self ++ [(o, walk)]) self).
    assert (E' : ops_dict_get o (_ops_dict self') = Some walk).
    { unfold self'. cbn [_ops_dict set_ops_dict]. rewrite ops_dict_get_app, E.
      rewrite Nat.eqb_refl. reflexivity. }
    exists walk, self'. split.
    { unfold _get_forward_walk_ops. rewrite bind_gets, E. reflexivity. }
    split; [exact E'|]. split; [reflexivity|]. split.
    + intros o' Hne. unfold self'. cbn [_ops_dict set_ops_dict].
      rewrite ops_dict_get_app.
      destruct (ops_dict_get o' (_ops_dict self)); [reflexivity|].
      destruct (Nat.eqb o o') eqn:En; [|reflexivity].
      apply Nat.eqb_eq in En. congruence.
    + apply Hhit. exact E'.
Qed.

(** ** A producer with nothing to move *)

Lemma selected_nothing g t threshold rp outs : forall acc,
  (forall ts, In ts outs -> examined g ts = true ->
              far_consumers t threshold rp (ge_get_consuming_ops g [ts]) = []) ->
  selected g t threshold rp outs acc = acc.
Proof.
  induction outs as [|ts r IH]; intros acc H; simpl; [reflexivity|].
  destruct (examined g ts) eqn:E.
  - rewrite (H ts (or_introl eq_refl) E). apply IH. intros ts' Hin. apply H. right. exact Hin.
  - apply IH. intros ts' Hin. apply H. right. exact Hin.
Qed.

(** X8. When every consumer of every tensor the selection examines (a
    tensor of [p] with a known shape rank above 1) is ranked and no
    further than [swapout_threshold] from [p], [_insert_swap_nodes]
    returns and moves nothing: the graph, the settings, the swap sets,
    the triples and the cache are as before. *)
Theorem insert_swap_nodes_nothing_to_move (self : LMS) (t : TOPOS) (p : op) (rp : Z) :
  _topo_sort self = Some t -> get_order t p = Some rp ->
  (forall ts c, In ts (outputs (graph_of self) p) -> examined (graph_of self) ts = true ->
                In c (consumers (graph_of self) ts) ->
                exists rc, get_order t c = Some rc /\ rc - rp <= _swapout_threshold self) ->
  exists self',
    _insert_swap_nodes p self = Ok (tt, self') /\
    graph_of self' = graph_of self /\ config self' = config self /\
    _ops_dict self' = _ops_dict self.
Proof.
  intros Ht Hp Hnear.
  destruct (log_info_run (InfoOperation p None) 2 self) as (s1 & Hlog & C1 & G1 & D1).
  assert (Ht1 : _topo_sort s1 = Some t).
  { rewrite (config_topo_sort _ _ C1). exact Ht. }
  assert (Hth : _swapout_threshold s1 = _swapout_threshold self).
  { unfold config in C1. congruence. }
  exists s1. split; [|repeat split; assumption].
  rewrite insert_swap_nodes_eq. rewrite (bind_ok _ _ _ _ _ Hlog), bind_ret_l.
  rewrite (bind_ok _ _ _ _ _ (get_order_run _ _ p Ht1)), Hp, bind_gets.
  assert (Hranked : consumers_ranked (graph_of s1) t (outputs (graph_of s1) p)).
  { intros ts Hin Hex. apply Forall_forall. intros c Hc.
    rewrite G1 in Hin, Hex, Hc. apply In_ge_get_consuming_ops in Hc.
    destruct (Hnear ts c Hin Hex Hc) as [rc [Hrc _]]. unfold ranked. congruence. }
  rewrite (bind_ok _ _ _ _ _ (filter_returns s1 t rp _ [] Ht1 Hranked)).
  rewrite selected_nothing; [reflexivity|].
  intros ts Hin Hex.
  destruct (far_consumers t (_swapout_threshold s1) rp
              (ge_get_consuming_ops (graph_of s1) [ts])) as [|c r] eqn:E; [reflexivity|].
  assert (Hc : In c (far_consumers t (_swapout_threshold s1) rp
                       (ge_get_consuming_ops (graph_of s1) [ts]))).
  { rewrite E. left; reflexivity. }
  apply In_far_consumers in Hc. destruct Hc as [Hc [rc [Hrc Hfar]]].
  apply In_ge_get_consuming_ops in Hc. rewrite G1 in Hin, Hex, Hc.
  destruct (Hnear ts c Hin Hex Hc) as [rc' [Hrc' Hle]]. rewrite Hth in Hfar.
  assert (rc' = rc) by congruence. lia.
Qed.

Lemma insert_swap_nodes_nothing_to_move_witness :
  exists self',
    _insert_swap_nodes 1%nat two_readers_LMS = Ok (tt, self') /\
    graph_of self' = two_readers_graph.
Proof.
  destruct (insert_swap_nodes_nothing_to_move two_readers_LMS two_readers_topos 1%nat 1
              eq_refl eq_refl) as (self' & Hrun & Hg & _).
  - intros ts c Hin _ Hc. vm_compute in Hin. destruct Hin as [<-|[]].
    vm_compute in Hc. destruct Hc as [<-|[]]. exists 2. split; [reflexivity | vm_compute; discriminate].
  - exists self'. split; [exact Hrun | exact Hg].
Defined.

(** ** The swap-out node *)

Lemma nth_error_last {A} (l : list A) (x : A) : nth_error (l ++ [x]) (List.length l) = Some x.
Proof. rewrite nth_error_app2 by lia. rewrite Nat.sub_diag. reflexivity. Qed.

Lemma update_op_same g o f :
  (forall n, nth_error g o = Some n -> f n = n) -> update_op g o f = g.
Proof.
  intros H. apply nth_error_ext. intros i. rewrite nth_error_update_op.
  destruct (nth_error g i) as [n|] eqn:E; [|reflexivity]. simpl.
  destruct (Nat.eqb i o) eqn:Ei; [|reflexivity].
  apply Nat.eqb_eq in Ei. subst i. rewrite (H n E). reflexivity.
Qed.

Lemma update_op_last g x f : update_op (g ++ [x]) (List.length g) f = g ++ [f x].
Proof.
  apply nth_error_ext. intros i. rewrite nth_error_update_op.
  destruct (Nat.lt_trichotomy i (List.length g)) as [H|[H|H]].
  - rewrite !nth_error_app1 by exact H.
    destruct (nth_error g i); [|reflexivity]. simpl.
    replace (Nat.eqb i (List.length g)) with false; [reflexivity|].
    symmetry. apply Nat.eqb_neq. lia.
  - subst i. rewrite !nth_error_last. simpl. rewrite Nat.eqb_refl. reflexivity.
  - assert (E : forall y, nth_error (g ++ [y]) i = None).
    { intros y. apply nth_error_None. rewrite length_app. simpl. lia. }
    rewrite !E. reflexivity.
Qed.

Lemma map_reroute_same (t : Tensor) l :
  map (fun x => if tensor_eqb x t then t else x) l = l.
Proof.
  induction l as [|a r IH]; simpl; [reflexivity|]. rewrite IH.
  destruct (tensor_eqb a t) eqn:E; [|reflexivity].
  apply tensor_eqb_eq in E. subst. reflexivity.
Qed.

Lemma reroute_input_same g dest t : reroute_input g dest t t = g.
Proof.
  unfold reroute_input. apply update_op_same. intros [nm ty ins outs ctrl dev] _.
  cbn. rewrite map_reroute_same. reflexivity.
Qed.

Lemma index_of_In t ts :
  In t ts -> exists i, index_of t ts = Ok i /\ nth_error ts i = Some t.
Proof.
  induction ts as [|u r IH]; intros H; [destruct H|]. simpl.
  destruct (tensor_eqb u t) eqn:E.
  - apply tensor_eqb_eq in E. subst. exists O. split; reflexivity.
  - destruct H as [H|H]; [subst; rewrite tensor_eqb_refl in E; discriminate|].
    destruct (IH H) as [i [Hi Hn]]. exists (S i). rewrite Hi. split; [reflexivity | exact Hn].
Qed.

Lemma index_of_not_In t ts : ~ In t ts -> index_of t ts = Raise AttributeError.
Proof.
  induction ts as [|u r IH]; intros H; [reflexivity|]. simpl.
  destruct (tensor_eqb u t) eqn:E.
  - apply tensor_eqb_eq in E. subst. exfalso. apply H. left; reflexivity.
  - rewrite IH; [reflexivity|]. intros Hin. apply H. right; exact Hin.
Qed.

Lemma outputs_app g l o : (o < List.length g)%nat -> outputs (g ++ l) o = outputs g o.
Proof. intros H. unfold outputs. rewrite nth_error_app1 by exact H. reflexivity. Qed.

Lemma inputs_app g l o : (o < List.length g)%nat -> inputs (g ++ l) o = inputs g o.
Proof. intros H. unfold inputs. rewrite nth_error_app1 by exact H. reflexivity. Qed.

Lemma In_outputs_valid g o t : In t (outputs g o) -> (o < List.length g)%nat.
Proof.
  unfold outputs. intros H. apply nth_error_Some.
  destruct (nth_error g o); [discriminate | destruct H].
Qed.

Lemma connect_ops_run src_op dest_op (ri ro : bool) (idx : option nat) self outs ins g' :
  (if ro then match idx with
              | Some i => remap i (sgv_outputs (graph_of self) src_op)
              | None => Raise TypeError
              end
   else Ok (sgv_outputs (graph_of self) src_op)) = Ok outs ->
  (if ri then match idx with
              | Some i => remap i (sgv_inputs (graph_of self) dest_op)
              | None => Raise TypeError
              end
   else Ok (sgv_inputs (graph_of self) dest_op)) = Ok ins ->
  ge_connect (graph_of self) outs dest_op ins = Ok g' ->
  _connect_ops src_op dest_op ri ro idx self = Ok (tt, set_graph g' self).
Proof.
  intros Ho Hi Hc. unfold _connect_ops. rewrite bind_gets. cbv zeta.
  rewrite Ho, bind_lift_ok, Hi, bind_lift_ok, Hc, bind_lift_ok. reflexivity.
Qed.

Lemma lower_app (a b : string) : lower (a ++ b) = (lower a ++ lower b)%string.
Proof. induction a as [|c r IH]; simpl; [reflexivity | rewrite IH; reflexivity]. Qed.

Lemma lower_string_of_uint d :
  lower (NilEmpty.string_of_uint d) = NilEmpty.string_of_uint d.
Proof. induction d; simpl; try rewrite IHd; reflexivity. Qed.

Lemma string_app_inv_head (a b c : string) : (a ++ b = a ++ c)%string -> b = c.
Proof.
  induction a as [|x r IH]; simpl; intros H; [exact H|].
  injection H as H. exact (IH H).
Qed.

Lemma str_of_nat_inj i j : str_of_nat i = str_of_nat j -> i = j.
Proof.
  unfold str_of_nat. intros H. apply Unsigned.to_uint_inj.
  pose proof (NilEmpty.usu (Nat.to_uint i)) as Hi. rewrite H, NilEmpty.usu in Hi.
  congruence.
Qed.

(** The candidates [nm_1], [nm_2], ... are in use under distinct keys. *)
Lemma candidate_key_inj nm i j :
  lower (nm ++ "_" ++ str_of_nat i) = lower (nm ++ "_" ++ str_of_nat j) -> i = j.
Proof.
  rewrite !lower_app. intros H. apply string_app_inv_head in H.
  apply string_app_inv_head in H. unfold str_of_nat in H.
  rewrite !lower_string_of_uint in H. apply str_of_nat_inj. exact H.
Qed.

Lemma name_in_use_In g nm :
  name_in_use g nm = true <-> In (lower nm) (map (fun n => lower (op_name n)) g).
Proof.
  unfold name_in_use. rewrite existsb_exists, in_map_iff. split.
  - intros [n [Hn E]]. apply String.eqb_eq in E. exists n. split; assumption.
  - intros [n [E Hn]]. exists n. split; [exact Hn | apply String.eqb_eq; exact E].
Qed.

Lemma first_free_free g nm fuel : forall i,
  (exists j, (i <= j <= i + fuel)%nat /\
             name_in_use g (nm ++ "_" ++ str_of_nat j) = false) ->
  name_in_use g (first_free g nm fuel i) = false.
Proof.
  induction fuel as [|fuel IH]; intros i [j [Hj Hfree]]; cbn [first_free]; cbv zeta.
  - replace i with j by lia. exact Hfree.
  - destruct (name_in_use g (nm ++ "_" ++ str_of_nat i)) eqn:E; [|exact E].
    apply IH. exists j. split; [|exact Hfree].
    assert (j <> i) by (intros ->; congruence). lia.
Qed.

Lemma NoDup_map_inj {A B} (f : A -> B) l :
  (forall x y, f x = f y -> x = y) -> NoDup l -> NoDup (map f l).
Proof.
  intros Hf H. induction H as [|a r Ha Hr IH]; simpl; constructor; [|exact IH].
  intros Hin. apply in_map_iff in Hin. destruct Hin as [x [E Hx]].
  apply Hf in E. subst x. exact (Ha Hx).
Qed.

Lemma forallb_false_In {A} (f : A -> bool) l :
  forallb f l = false -> exists x, In x l /\ f x = false.
Proof.
  induction l as [|a r IH]; simpl; [discriminate|].
  destruct (f a) eqn:E; simpl; intros H.
  - destruct (IH H) as [x [Hx Hf]]. exists x. split; [right; exact Hx | exact Hf].
  - exists a. split; [left; reflexivity | exact E].
Qed.

(** No more candidates are in use than the graph has operations. *)
Lemma candidate_free g nm :
  exists j, (1 <= j <= 1 + List.length g)%nat /\
            name_in_use g (nm ++ "_" ++ str_of_nat j) = false.
Proof.
  set (cands := seq 1 (S (List.length g))).
  destruct (forallb (fun j => name_in_use g (nm ++ "_" ++ str_of_nat j)) cands) eqn:E.
  - exfalso. rewrite forallb_forall in E.
    assert (Hnd : NoDup (map (fun j => lower (nm ++ "_" ++ str_of_nat j)) cands)).
    { apply NoDup_map_inj; [|apply seq_NoDup].
      intros i j H. apply (candidate_key_inj nm). exact H. }
    assert (Hincl : incl (map (fun j => lower (nm ++ "_" ++ str_of_nat j)) cands)
                         (map (fun n => lower (op_name n)) g)).
    { intros k Hk. apply in_map_iff in Hk. destruct Hk as [j [<- Hj]].
      apply name_in_use_In. apply E. exact Hj. }
    pose proof (NoDup_incl_length Hnd Hincl) as Hlen.
    unfold cands in Hlen. rewrite !length_map, length_seq in Hlen. lia.
  - destruct (forallb_false_In _ _ E) as [j [Hj Hfree]].
    apply in_seq in Hj. exists j. split; [lia | exact Hfree].
Qed.

(** The name TensorFlow gives is the name of no operation of the graph. *)
Lemma unique_name_free g nm : name_in_use g (unique_name g nm) = false.
Proof.
  unfold unique_name. destruct (name_in_use g nm) eqn:E; [|exact E].
  apply first_free_free. apply candidate_free.
Qed.

Lemma prefix_app (s t : string) : prefix s (s ++ t) = true.
Proof.
  induction s as [|c r IH]; simpl; [destruct t; reflexivity|].
  destruct (ascii_dec c c) as [_|N]; [exact IH | exfalso; apply N; reflexivity].
Qed.

Lemma prefix_refl (s : string) : prefix s s = true.
Proof.
  induction s as [|c r IH]; simpl; [reflexivity|].
  destruct (ascii_dec c c) as [_|N]; [exact IH | exfalso; apply N; reflexivity].
Qed.

Lemma prefix_first_free g nm fuel : forall i, prefix nm (first_free g nm fuel i) = true.
Proof.
  induction fuel as [|fuel IH]; intros i; cbn [first_free]; cbv zeta.
  - apply prefix_app.
  - destruct (name_in_use g _); [apply IH | apply prefix_app].
Qed.

(** The name TensorFlow gives begins with the name asked for. *)
Lemma prefix_unique_name g nm : prefix nm (unique_name g nm) = true.
Proof.
  unfold unique_name. destruct (name_in_use g nm);
    [apply prefix_first_free | apply prefix_refl].
Qed.

Lemma swap_node_is_swap_node self kind ts0 ins :
  is_swap_node self kind ts0 ins (swap_node self kind ts0 ins).
Proof.
  unfold is_swap_node, swap_node. cbn.
  split; [apply prefix_unique_name|]. split; [apply unique_name_free | repeat split].
Qed.

Lemma add_swapout_run (self : LMS) (src_op : op) (ts0 : Tensor) :
  let g := graph_of self in
  (In ts0 (outputs g src_op) ->
   exists self',
     _add_swapout src_op ts0 self = Ok (List.length g, self') /\
     graph_of self' = g ++ [swap_node self "lms/swapout_" ts0 [ts0]] /\
     In (List.length g) (consumers (graph_of self') ts0) /\
     config self' = config self /\ _ops_dict self' = _ops_dict self) /\
  ((src_op < List.length g)%nat -> ~ In ts0 (outputs g src_op) ->
   _add_swapout src_op ts0 self = Raise AttributeError).
Proof.
  intros g.
  set (node := swap_node self "lms/swapout_" ts0 [ts0]).
  set (s1 := set_graph (g ++ [node]) self).
  assert (Hstart :
            _add_swapout src_op ts0 self =
            (src_out_idx <- lift (index_of ts0 (sgv_outputs (g ++ [node]) src_op)) ;;
             _connect_ops src_op (List.length g) false true (Some src_out_idx) ;;;
             _log_info (InfoSwapOut (tensor_name (g ++ [node]) ts0) (_cpu_device self)) 1 ;;;
             ret (List.length g)) s1).
  { reflexivity. }
  split.
  - intros Hin.
    pose proof (In_outputs_valid _ _ _ Hin) as Hlt.
    assert (Hout : sgv_outputs (g ++ [node]) src_op = outputs g src_op).
    { unfold sgv_outputs. apply outputs_app. exact Hlt. }
    destruct (index_of_In _ _ Hin) as [i [Hi Hn]].
    assert (Hconn : _connect_ops src_op (List.length g) false true (Some i) s1
                    = Ok (tt, s1)).
    { replace s1 with (set_graph (g ++ [node]) s1) at 2 by reflexivity.
      apply (connect_ops_run _ _ _ _ _ _ [ts0] [ts0]).
      - unfold s1. rewrite graph_of_set_graph, Hout. unfold remap. rewrite Hn. reflexivity.
      - unfold s1. rewrite graph_of_set_graph. unfold sgv_inputs, inputs.
        rewrite nth_error_last. reflexivity.
      - unfold s1. rewrite graph_of_set_graph. unfold ge_connect. simpl.
        rewrite reroute_input_same. reflexivity. }
    destruct (log_info_run (InfoSwapOut (tensor_name (g ++ [node]) ts0) (_cpu_device self))
                1 s1) as (s2 & Hlog & C2 & G2 & D2).
    exists s2. rewrite Hstart, Hout, Hi, bind_lift_ok.
    rewrite (bind_ok _ _ _ _ _ Hconn), (bind_ok _ _ _ _ _ Hlog).
    assert (Gs : graph_of s2 = g ++ [node]).
    { rewrite G2. unfold s1. apply graph_of_set_graph. }
    split; [reflexivity|]. split; [exact Gs|]. split; [|split].
    + rewrite Gs. unfold consumers. apply filter_In. split.
      * apply in_seq. rewrite length_app. simpl. lia.
      * unfold inputs. rewrite nth_error_last. simpl.
        rewrite tensor_eqb_refl. reflexivity.
    + rewrite C2. reflexivity.
    + rewrite D2. reflexivity.
  - intros Hlt Hnot.
    rewrite Hstart. unfold sgv_outputs.
    rewrite outputs_app by exact Hlt. rewrite index_of_not_In by exact Hnot.
    reflexivity.
Qed.

(** X9. [_add_swapout] on a tensor [ts0] that [src_op] produces appends
    one operation to the graph and returns it: an Identity created under
    [ops.device(cpu_device)] that reads [ts0], has the shape of [ts0]
    and no control input; its name begins with "lms/swapout_" and the
    name of [ts0], its "/" and ":" made "_" (TensorFlow may add a suffix
    to make the name unique), and no operation the graph had bears it.
    Every operation the graph had is as it was, and so are the fields of
    the object.  On a tensor that [src_op], an operation of the graph,
    does not produce, the call ends in AttributeError, from
    [output_index]. *)
Theorem add_swapout_appends_identity (self : LMS) (src_op : op) (ts0 : Tensor) :
  let g := graph_of self in
  (In ts0 (outputs g src_op) ->
   exists self' node,
     _add_swapout src_op ts0 self = Ok (List.length g, self') /\
     graph_of self' = g ++ [node] /\
     is_swap_node self "lms/swapout_" ts0 [ts0] node /\
     In (List.length g) (consumers (graph_of self') ts0) /\
     config self' = config self /\ _ops_dict self' = _ops_dict self) /\
  ((src_op < List.length g)%nat -> ~ In ts0 (outputs g src_op) ->
   _add_swapout src_op ts0 self = Raise AttributeError).
Proof.
  intros g. destruct (add_swapout_run self src_op ts0) as [Hok Herr]. split.
  - intros Hin. destruct (Hok Hin) as (self' & Hrun & Hg & Hc & C & D).
    exists self', (swap_node self "lms/swapout_" ts0 [ts0]).
    split; [exact Hrun|]. split; [exact Hg|].
    split; [apply swap_node_is_swap_node|]. split; [exact Hc|]. split; assumption.
  - exact Herr.
Qed.

Lemma add_swapout_appends_identity_witness :
  exists self',
    _add_swapout 0%nat (0%nat, 0%nat) two_readers_LMS = Ok (6%nat, self') /\
    type (graph_of self') 6%nat = "Identity".
Proof.
  destruct (proj1 (add_swapout_appends_identity two_readers_LMS 0%nat (0%nat, 0%nat)))
    as (self' & node & Hrun & Hg & (_ & _ & Hty & _) & _).
  - vm_compute. left; reflexivity.
  - exists self'. split; [exact Hrun|]. rewrite Hg. unfold type. simpl. exact Hty.
Defined.

(** ** The swap-in node *)

Lemma In_dedup_tensors t l : In t (dedup_tensors l) <-> In t l.
Proof.
  induction l as [|a r IH]; simpl; [tauto|].
  rewrite filter_In, IH. split.
  - intros [H|[H _]]; auto.
  - intros [H|H]; [left; exact H|].
    destruct (tensor_eqb t a) eqn:E.
    + apply tensor_eqb_eq in E. left. congruence.
    + right. split; [exact H | reflexivity].
Qed.

Lemma nth_error_reroute_input g d old new c :
  nth_error (reroute_input g d old new) c =
  option_map (fun n => if Nat.eqb c d
                       then mkOperation (op_name n) (op_type n)
                                        (rerouted old new (op_inputs n))
                                        (op_out_ndims n) (op_control_inputs n) (op_device_scope n)
                       else n) (nth_error g c).
Proof. unfold reroute_input. apply nth_error_update_op. Qed.

Lemma inputs_reroute_input g d old new c :
  inputs (reroute_input g d old new) c =
  if Nat.eqb c d then rerouted old new (inputs g c) else inputs g c.
Proof.
  unfold inputs. rewrite nth_error_reroute_input.
  destruct (nth_error g c); simpl; destruct (Nat.eqb c d); reflexivity.
Qed.

Lemma outputs_reroute_input g d old new c :
  outputs (reroute_input g d old new) c = outputs g c.
Proof. unfold reroute_input. apply outputs_update_op. reflexivity. Qed.

Lemma control_inputs_reroute_input g d old new c :
  control_inputs (reroute_input g d old new) c = control_inputs g c.
Proof.
  unfold control_inputs. rewrite nth_error_reroute_input.
  destruct (nth_error g c); simpl; destruct (Nat.eqb c d); reflexivity.
Qed.

Lemma reroute_fold old new dests : forall g,
  let g' := fold_left (fun g d => reroute_input g d old new) dests g in
  List.length g' = List.length g /\
  (forall c, ~ In c dests -> nth_error g' c = nth_error g c) /\
  (forall c, control_inputs g' c = control_inputs g c) /\
  (NoDup dests -> forall c, In c dests -> inputs g' c = rerouted old new (inputs g c)).
Proof.
  induction dests as [|d r IH]; intros g; simpl.
  - repeat split; auto. intros _ c [].
  - destruct (IH (reroute_input g d old new)) as (L & N & C & I).
    split; [|split; [|split]].
    + rewrite L. apply length_reroute_input.
    + intros c Hc. rewrite N by tauto. rewrite nth_error_reroute_input.
      replace (Nat.eqb c d) with false.
      * destruct (nth_error g c); reflexivity.
      * symmetry. apply Nat.eqb_neq. intros ->. apply Hc. left; reflexivity.
    + intros c. rewrite C. apply control_inputs_reroute_input.
    + intros Hnd c Hc. inversion Hnd as [|? ? Hnot Hnd']; subst.
      destruct Hc as [<-|Hc].
      * unfold inputs at 1. rewrite (N d Hnot). fold (inputs (reroute_input g d old new) d).
        rewrite inputs_reroute_input, Nat.eqb_refl. reflexivity.
      * rewrite (I Hnd' c Hc), inputs_reroute_input.
        replace (Nat.eqb c d) with false; [reflexivity|].
        symmetry. apply Nat.eqb_neq. intros ->. exact (Hnot Hc).
Qed.

Lemma swapin_loop t ts0 n : forall dest_ops self,
  _topo_sort self = Some t ->
  outputs (graph_of self) n = [(n, 0%nat)] ->
  NoDup dest_ops ->
  (forall d, In d dest_ops -> In ts0 (inputs (graph_of self) d)) ->
  exists self',
    for_each dest_ops (fun dest_op =>
      g1 <- gets graph_of ;;
      input_idx <- lift (index_of ts0 (sgv_inputs g1 dest_op)) ;;
      _connect_ops n dest_op true false (Some input_idx) ;;;
      g2 <- gets graph_of ;;
      order <- _get_order dest_op ;;
      _log_info (InfoSwapIn (tensor_name g2 ts0) (name g2 dest_op) order) 1) self
    = Ok (tt, self') /\
    graph_of self' = fold_left (fun g d => reroute_input g d ts0 (n, 0%nat)) dest_ops
                               (graph_of self) /\
    config self' = config self /\ _ops_dict self' = _ops_dict self.
Proof.
  induction dest_ops as [|d r IH]; intros self Ht Hout Hnd Hin.
  - exists self. repeat split; reflexivity.
  - inversion Hnd as [|? ? Hnot Hnd']; subst.
    set (g := graph_of self) in *.
    assert (Hd : In ts0 (sgv_inputs g d)).
    { apply In_dedup_tensors. apply Hin. left; reflexivity. }
    destruct (index_of_In _ _ Hd) as [i [Hi Hn]].
    set (s1 := set_graph (reroute_input g d ts0 (n, 0%nat)) self).
    assert (Hconn : _connect_ops n d true false (Some i) self = Ok (tt, s1)).
    { apply (connect_ops_run _ _ _ _ _ _ [(n, 0%nat)] [ts0]).
      - unfold sgv_outputs. fold g. rewrite Hout. reflexivity.
      - fold g. unfold remap. rewrite Hn. reflexivity.
      - reflexivity. }
    assert (G1 : graph_of s1 = reroute_input g d ts0 (n, 0%nat)).
    { apply graph_of_set_graph. }
    destruct (log_info_run (InfoSwapIn (tensor_name (graph_of s1) ts0)
                                       (name (graph_of s1) d) (get_order t d)) 1 s1)
      as (s2 & Hlog & C2 & G2 & D2).
    destruct (IH s2) as (s3 & Hrun & G3 & C3 & D3).
    + rewrite (config_topo_sort _ _ C2). exact Ht.
    + rewrite G2, G1, outputs_reroute_input. exact Hout.
    + exact Hnd'.
    + intros d' Hd'. rewrite G2, G1, inputs_reroute_input.
      replace (Nat.eqb d' d) with false; [apply Hin; right; exact Hd'|].
      symmetry. apply Nat.eqb_neq. intros ->. exact (Hnot Hd').
    + exists s3. split; [|split; [|split]].
      * cbn [for_each].
        match goal with
        | |- bind ?m _ self = _ => assert (Hbody : m self = Ok (tt, s2))
        end.
        { cbv beta. rewrite bind_gets. fold g.
          rewrite Hi, bind_lift_ok, (bind_ok _ _ _ _ _ Hconn), bind_gets.
          rewrite (bind_ok _ _ _ _ _ (get_order_run s1 t d Ht)). exact Hlog. }
        rewrite (bind_ok _ _ _ _ _ Hbody). exact Hrun.
      * rewrite G3, G2, G1. reflexivity.
      * rewrite C3, C2. reflexivity.
      * rewrite D3, D2. reflexivity.
Qed.

Lemma add_swapin_run (self : LMS) (t : TOPOS) (swapout_op : op)
        (dest_ops : list op) (ts0 : Tensor) :
  _topo_sort self = Some t ->
  outputs (graph_of self) swapout_op = [(swapout_op, 0%nat)] ->
  NoDup dest_ops ->
  (forall d, In d dest_ops -> In ts0 (inputs (graph_of self) d)) ->
  let g := graph_of self in
  let n := List.length g in
  exists self',
    _add_swapin swapout_op dest_ops ts0 self = Ok (n, self') /\
    config self' = config self /\ _ops_dict self' = _ops_dict self /\
    List.length (graph_of self') = S n /\
    nth_error (graph_of self') n
    = Some (swap_node self "lms/swapin_" ts0 [(swapout_op, 0%nat)]) /\
    (forall d, In d dest_ops ->
               inputs (graph_of self') d = rerouted ts0 (n, 0%nat) (inputs g d)) /\
    (forall c, (c < n)%nat -> ~ In c dest_ops ->
               nth_error (graph_of self') c = nth_error g c) /\
    (forall c, control_inputs (graph_of self') c = control_inputs g c).
Proof.
  intros Ht Hso Hnd Hin g n.
  set (node := swap_node self "lms/swapin_" ts0 [ts0]).
  set (node' := swap_node self "lms/swapin_" ts0 [(swapout_op, 0%nat)]).
  set (s1 := set_graph (g ++ [node]) self).
  set (s2 := set_graph (g ++ [node']) s1).
  assert (Hlt : (swapout_op < n)%nat).
  { apply (In_outputs_valid g swapout_op (swapout_op, 0%nat)). fold g in Hso.
    rewrite Hso. left; reflexivity. }
  assert (Hdn : forall d, In d dest_ops -> (d < n)%nat).
  { intros d Hd. apply (In_inputs_valid g d ts0). apply Hin. exact Hd. }
  assert (Hconn : _connect_ops swapout_op n false false None s1 = Ok (tt, s2)).
  { apply (connect_ops_run _ _ _ _ _ _ [(swapout_op, 0%nat)] [ts0]).
    - unfold s1. rewrite graph_of_set_graph. unfold sgv_outputs.
      rewrite outputs_app by exact Hlt. fold g in Hso. rewrite Hso. reflexivity.
    - unfold s1. rewrite graph_of_set_graph. unfold sgv_inputs, inputs, n.
      rewrite nth_error_last. reflexivity.
    - unfold s1. rewrite graph_of_set_graph. unfold ge_connect. simpl.
      unfold reroute_input, n. rewrite update_op_last. cbn.
      rewrite tensor_eqb_refl. reflexivity. }
  assert (G2 : graph_of s2 = g ++ [node']) by apply graph_of_set_graph.
  destruct (swapin_loop t ts0 n dest_ops s2) as (s3 & Hloop & G3 & C3 & D3).
  - exact Ht.
  - rewrite G2. unfold outputs, n. rewrite nth_error_last. reflexivity.
  - exact Hnd.
  - intros d Hd. rewrite G2, inputs_app by (apply Hdn; exact Hd). apply Hin. exact Hd.
  - destruct (reroute_fold ts0 ((n : op), 0%nat) dest_ops (graph_of s2)) as (L & N & C & I).
    cbv zeta in L, N, C, I.
    assert (Hnn : ~ In n dest_ops).
    { intros H. apply Hdn in H. lia. }
    exists s3. split; [|split; [|split; [|split; [|split; [|split; [|split]]]]]].
    + unfold _add_swapin. rewrite !bind_gets. fold g. cbn [array_ops_identity fst snd].
      fold n. unfold bind at 1. unfold modify at 1.
      change (set_graph (g ++ [mkOperation
                                 (unique_name g (lms_name "lms/swapin_" (tensor_name g ts0)))
                                 "Identity" [ts0] [ndims g ts0] [] (_cpu_device self)]) self)
        with s1.
      rewrite (bind_ok _ _ _ _ _ Hconn). unfold bind at 1. rewrite Hloop. reflexivity.
    + rewrite C3. reflexivity.
    + rewrite D3. reflexivity.
    + rewrite G3, L, G2, length_app. simpl. unfold n. lia.
    + rewrite G3, (N n Hnn), G2. apply nth_error_last.
    + intros d Hd. rewrite G3, (I Hnd d Hd), G2, inputs_app by (apply Hdn; exact Hd).
      reflexivity.
    + intros c Hc Hnot. rewrite G3, (N c Hnot), G2. apply nth_error_app1. exact Hc.
    + intros c. rewrite G3, C, G2. unfold control_inputs.
      destruct (Nat.lt_trichotomy c n) as [H|[H|H]].
      * rewrite nth_error_app1 by exact H. reflexivity.
      * subst c. unfold n. rewrite nth_error_last.
        replace (nth_error g (List.length g)) with (@None Operation); [reflexivity|].
        symmetry. apply nth_error_None. lia.
      * replace (nth_error (g ++ [node']) c) with (@None Operation).
        -- replace (nth_error g c) with (@None Operation); [reflexivity|].
           symmetry. apply nth_error_None. unfold n in H. lia.
        -- symmetry. apply nth_error_None. rewrite length_app. simpl. unfold n in H. lia.
Qed.

(** X10. [_add_swapin] for a swap-out node with one output and a set of
    consumers that read [ts0] appends one operation and returns it: an
    Identity created under [ops.device(cpu_device)] that reads the
    output of the swap-out node; its name begins with "lms/swapin_" and
    the name of [ts0], its "/" and ":" made "_" (TensorFlow adds a
    suffix when the name is in use, as for the second swap-in of one
    tensor), and no operation the graph had bears it.  Every input slot of a consumer in [dest_ops] that read
    [ts0] reads the new operation; every other operation, and every
    control input, is as it was. *)
Theorem add_swapin_rewires (self : LMS) (t : TOPOS) (swapout_op : op)
        (dest_ops : list op) (ts0 : Tensor) :
  _topo_sort self = Some t ->
  outputs (graph_of self) swapout_op = [(swapout_op, 0%nat)] ->
  NoDup dest_ops ->
  (forall d, In d dest_ops -> In ts0 (inputs (graph_of self) d)) ->
  let g := graph_of self in
  let n := List.length g in
  exists self' node,
    _add_swapin swapout_op dest_ops ts0 self = Ok (n, self') /\
    config self' = config self /\ _ops_dict self' = _ops_dict self /\
    List.length (graph_of self') = S n /\
    nth_error (graph_of self') n = Some node /\
    is_swap_node self "lms/swapin_" ts0 [(swapout_op, 0%nat)] node /\
    (forall d, In d dest_ops ->
               inputs (graph_of self') d = rerouted ts0 (n, 0%nat) (inputs g d)) /\
    (forall c, (c < n)%nat -> ~ In c dest_ops ->
               nth_error (graph_of self') c = nth_error g c) /\
    (forall c, control_inputs (graph_of self') c = control_inputs g c).
Proof.
  intros Ht Hso Hnd Hin g n.
  destruct (add_swapin_run self t swapout_op dest_ops ts0 Ht Hso Hnd Hin)
    as (self' & Hrun & C & D & L & N & I & K & Ctl).
  exists self', (swap_node self "lms/swapin_" ts0 [(swapout_op, 0%nat)]).
  split; [exact Hrun|]. split; [exact C|]. split; [exact D|]. split; [exact L|].
  split; [exact N|]. split; [apply swap_node_is_swap_node|].
  split; [exact I|]. split; [exact K | exact Ctl].
Qed.

Lemma add_swapin_rewires_witness :
  exists self',
    _add_swapin 6%nat [4; 5]%nat (0%nat, 0%nat) two_readers_swapout = Ok (7%nat, self') /\
    inputs (graph_of self') 5%nat = [(4%nat, 0%nat); (7%nat, 0%nat)].
Proof.
  destruct (add_swapin_rewires two_readers_swapout two_readers_topos 6%nat [4; 5]%nat
              (0%nat, 0%nat)) as (self' & node & Hrun & _ & _ & _ & _ & _ & Hin & _).
  - vm_compute. reflexivity.
  - vm_compute. reflexivity.
  - repeat constructor; simpl; intuition discriminate.
  - intros d [<-|[<-|[]]]; vm_compute; auto.
  - exists self'. split; [exact Hrun|].
    rewrite (Hin 5%nat) by (simpl; auto). vm_compute. reflexivity.
Defined.

(** ** What the asynchronous schedule edits *)

Lemma ctrl_extended_refl n : ctrl_extended n n.
Proof. repeat split. exists []. rewrite app_nil_r. reflexivity. Qed.

Lemma ctrl_extended_trans a b c : ctrl_extended a b -> ctrl_extended b c -> ctrl_extended a c.
Proof.
  intros (N1 & T1 & I1 & O1 & D1 & [a1 C1]) (N2 & T2 & I2 & O2 & D2 & [a2 C2]).
  repeat split; try congruence.
  exists (a1 ++ a2). rewrite C2, C1, app_assoc. reflexivity.
Qed.

Lemma graph_kept_refl s : graph_kept s s.
Proof. split; [apply same_config_refl | reflexivity]. Qed.

Lemma graph_kept_trans a b c : graph_kept a b -> graph_kept b c -> graph_kept a c.
Proof.
  intros [C1 G1] [C2 G2]. split; [eapply same_config_trans; eassumption | congruence].
Qed.

Section CtrlAddedTo.
Variable P : op -> Prop.

Lemma ctrl_added_to_refl s : ctrl_added_to P s s.
Proof.
  split; [apply same_config_refl|]. split; [reflexivity|].
  intros c n H. exists n. split; [exact H|]. split; [apply ctrl_extended_refl | reflexivity].
Qed.

Lemma ctrl_added_to_trans a b c :
  ctrl_added_to P a b -> ctrl_added_to P b c -> ctrl_added_to P a c.
Proof.
  intros (C1 & L1 & N1) (C2 & L2 & N2).
  split; [eapply same_config_trans; eassumption|]. split; [congruence|].
  intros o n H. destruct (N1 o n H) as (n1 & H1 & E1 & K1).
  destruct (N2 o n1 H1) as (n2 & H2 & E2 & K2).
  exists n2. split; [exact H2|]. split; [eapply ctrl_extended_trans; eassumption|].
  intros Hn. rewrite (K2 Hn). apply K1. exact Hn.
Qed.

Lemma graph_kept_ctrl_added_to s s' : graph_kept s s' -> ctrl_added_to P s s'.
Proof.
  intros [C G]. split; [exact C|]. rewrite G. split; [reflexivity|].
  intros c n H. exists n. split; [exact H|]. split; [apply ctrl_extended_refl | reflexivity].
Qed.
End CtrlAddedTo.

Lemma graph_kept_log_info msg level : respects graph_kept (_log_info msg level).
Proof.
  intros s u s' H. destruct (log_info_run msg level s) as (s1 & Hrun & C & G & _).
  rewrite Hrun in H. inversion H; subst. split; assumption.
Qed.

Lemma graph_kept_get_order o : respects graph_kept (_get_order o).
Proof.
  intros s a s' H. unfold _get_order in H. destruct (_topo_sort s); [|discriminate].
  inversion H; subst. apply graph_kept_refl.
Qed.

Lemma graph_kept_get_ops_by_order i : respects graph_kept (_get_ops_by_order i).
Proof.
  intros s a s' H. unfold _get_ops_by_order in H. destruct (_topo_sort s); [|discriminate].
  inversion H; subst. apply graph_kept_refl.
Qed.

Ltac kept_step :=
  first
    [ apply (respects_ret graph_kept graph_kept_refl)
    | apply (respects_gets graph_kept graph_kept_refl)
    | apply (respects_lift graph_kept graph_kept_refl)
    | apply graph_kept_log_info
    | apply graph_kept_get_order
    | apply graph_kept_get_ops_by_order
    | apply respects_modify; intros; split; reflexivity
    | apply (respects_bind graph_kept graph_kept_trans); [ | intros]
    | apply (respects_filter_m graph_kept graph_kept_refl graph_kept_trans); intros ].

Lemma graph_kept_get_forward_walk_ops o b : respects graph_kept (_get_forward_walk_ops o b).
Proof.
  unfold _get_forward_walk_ops. kept_step; [kept_step|].
  destruct (ops_dict_get o a); destruct b; repeat kept_step.
Qed.

Lemma graph_kept_do_direct_order_for src_op orders :
  respects graph_kept (_do_direct_order_for src_op orders).
Proof.
  induction orders as [|i r IH]; simpl.
  - kept_step.
  - kept_step; [kept_step|]. kept_step.
    { kept_step. kept_step; [apply graph_kept_get_forward_walk_ops | kept_step]. }
    kept_step; [kept_step|].
    destruct (filter _ _); [exact IH | kept_step].
Qed.

Lemma graph_kept_do_direct_order fw_op src_op distance :
  respects graph_kept (_do_direct_order fw_op src_op distance).
Proof.
  unfold _do_direct_order. do 4 (kept_step; [kept_step|]).
  kept_step; [apply graph_kept_do_direct_order_for|].
  destruct (fst a3); kept_step.
Qed.

Lemma ctrl_added_add_control_inputs (P : op -> Prop) op1 op2 :
  P op1 -> respects (ctrl_added_to P) (_add_control_inputs op1 op2).
Proof.
  intros HP s b s' H.
  destruct (add_control_inputs_cases op1 op2 s) as [[Hrun _]|(g' & Hrun & Hg & _)];
    cbv zeta in Hrun; rewrite Hrun in H; inversion H; subst.
  - apply ctrl_added_to_refl.
  - split; [reflexivity|]. rewrite graph_of_set_graph.
    unfold ge_add_control_inputs in Hg.
    destruct (existsb _ [op2]); [discriminate|]. inversion Hg; subst g'. clear Hg.
    split; [apply length_update_op|].
    intros c n Hn. rewrite nth_error_update_op, Hn. simpl.
    destruct (Nat.eqb c op1) eqn:E.
    + eexists. split; [reflexivity|]. split.
      * repeat split. simpl. eexists. reflexivity.
      * apply Nat.eqb_eq in E. subst c. intros Hc. destruct (Hc HP).
    + exists n. split; [reflexivity|]. split; [apply ctrl_extended_refl | reflexivity].
Qed.

Lemma ctrl_added_add_control_dependency (P : op -> Prop) src_op dest_op swapin_op ahead :
  P swapin_op ->
  respects (ctrl_added_to P) (_add_control_dependency src_op dest_op swapin_op ahead).
Proof.
  intros HP. unfold _add_control_dependency.
  assert (Hk : forall A (m : M A), respects graph_kept m -> respects (ctrl_added_to P) m).
  { intros A m. apply respects_weaken. apply graph_kept_ctrl_added_to. }
  apply (respects_bind _ (ctrl_added_to_trans P)).
  { apply Hk. apply graph_kept_do_direct_order. }
  intros re. destruct (fst re).
  - apply (respects_bind _ (ctrl_added_to_trans P)).
    { apply ctrl_added_add_control_inputs. exact HP. }
    intros _. apply Hk. repeat kept_step.
  - apply Hk. repeat kept_step.
Qed.

Lemma ctrl_added_sequential_first (P : op -> Prop) x0 x :
  Forall (fun tr : op * op * op => P (snd tr)) x ->
  forall i k, respects (ctrl_added_to P) (_sequential_strategy_first x0 x i k).
Proof.
  assert (Hk : forall A (m : M A), respects graph_kept m -> respects (ctrl_added_to P) m).
  { intros A m. apply respects_weaken. apply graph_kept_ctrl_added_to. }
  induction 1 as [|tr r Htr Hr IH]; intros i k; simpl.
  - apply Hk. kept_step.
  - apply (respects_bind _ (ctrl_added_to_trans P)); [apply Hk; kept_step|].
    intros order. destruct (py_eq order x0).
    + apply (respects_bind _ (ctrl_added_to_trans P)).
      * apply ctrl_added_add_control_dependency. exact Htr.
      * intros _. apply IH.
    + apply Hk. kept_step.
Qed.

Lemma ctrl_added_sequential_rest (P : op -> Prop) x :
  Forall (fun tr : op * op * op => P (snd tr)) x ->
  forall lb last_order,
    respects (ctrl_added_to P) (_sequential_strategy_rest x lb last_order).
Proof.
  assert (Hk : forall A (m : M A), respects graph_kept m -> respects (ctrl_added_to P) m).
  { intros A m. apply respects_weaken. apply graph_kept_ctrl_added_to. }
  induction 1 as [|tr r Htr Hr IH]; intros lb last_order; simpl.
  - apply Hk. kept_step.
  - apply (respects_bind _ (ctrl_added_to_trans P)); [apply Hk; kept_step|].
    intros order.
    apply (respects_bind _ (ctrl_added_to_trans P)); [apply Hk; kept_step|].
    intros ahead.
    apply (respects_bind _ (ctrl_added_to_trans P)).
    + apply ctrl_added_add_control_dependency. exact Htr.
    + intros _. apply IH.
Qed.

Lemma In_py_sorted_key {A} (key : A -> option Z) xs sorted x :
  py_sorted_key key xs = Ok sorted -> In x sorted -> In x xs.
Proof.
  intros H Hin. destruct (le_lt_dec 2 (List.length xs)) as [Hl|Hl].
  - rewrite (py_sorted_key_long key xs Hl) in H.
    destruct (all_some _); [|discriminate]. inversion H; subst.
    apply In_sorted_by in Hin. apply in_rev in Hin. exact Hin.
  - unfold py_sorted_key in H.
    destruct xs as [|a [|b r]]; simpl in Hl; try lia; inversion H; subst; exact Hin.
Qed.

Lemma keyed_fst {A} (f : A -> op) (xs : list A) s keyed s' :
  map_m (fun tr => order <- _get_order (f tr) ;; ret (tr, order)) xs s = Ok (keyed, s') ->
  map fst keyed = xs /\ s' = s.
Proof.
  destruct (_topo_sort s) as [t|] eqn:Ht.
  - rewrite (keyed_run t f xs s Ht). intros H. inversion H; subst. split; [|reflexivity].
    rewrite map_map. simpl. apply map_id.
  - destruct xs as [|a r]; simpl.
    + intros H. inversion H; subst. split; reflexivity.
    + unfold bind at 1. unfold bind at 1. unfold _get_order. rewrite Ht. discriminate.
Qed.

Lemma respects_for_each_in (R : LMS -> LMS -> Prop) {A} (xs : list A) (body : A -> M unit) :
  (forall s, R s s) -> (forall a b c, R a b -> R b c -> R a c) ->
  (forall x, In x xs -> respects R (body x)) -> respects R (for_each xs body).
Proof.
  intros Hrefl Htrans. induction xs as [|x r IH]; intros Hb; simpl.
  - apply respects_ret. exact Hrefl.
  - apply (respects_bind R Htrans).
    + apply Hb. left; reflexivity.
    + intros _. apply IH. intros y Hy. apply Hb. right; exact Hy.
Qed.

Lemma add_control_dependencies_ctrl_added (self self' : LMS) (u : unit) :
  _add_control_dependencies self = Ok (u, self') ->
  ctrl_added_to (fun c => exists tr, In tr (_ops_triples self) /\ snd tr = c) self self'.
Proof.
  set (P := fun c : op => exists tr, In tr (_ops_triples self) /\ snd tr = c).
  assert (HP : forall x, (forall tr, In tr x -> In tr (_ops_triples self)) ->
                         Forall (fun tr : op * op * op => P (snd tr)) x).
  { intros x Hx. apply Forall_forall. intros tr Htr. exists tr. split; [apply Hx; exact Htr | reflexivity]. }
  unfold _add_control_dependencies. rewrite bind_gets.
  destruct (_swapin_ahead self <? 0).
  - unfold _sequential_strategy. rewrite bind_gets. intros H.
    destruct (bind_inv _ _ _ _ _ H) as (keyed & s1 & Hk & H1). clear H.
    destruct (keyed_fst _ _ _ _ _ Hk) as [Hfst ->].
    destruct (bind_inv _ _ _ _ _ H1) as (sorted & s2 & Hs & H2). clear H1.
    apply lift_inv in Hs. destruct Hs as [Hs ->].
    assert (Hx : forall tr, In tr (map fst sorted) -> In tr (_ops_triples self)).
    { intros tr Htr. apply in_map_iff in Htr. destruct Htr as [p [<- Hp]].
      rewrite <- Hfst. apply in_map. exact (In_py_sorted_key _ _ _ _ Hs Hp). }
    revert H2.
    apply (respects_bind _ (ctrl_added_to_trans P)).
    { apply (respects_lift _ (ctrl_added_to_refl P)). }
    intros x0. apply (respects_bind _ (ctrl_added_to_trans P)).
    { apply (respects_weaken graph_kept); [apply graph_kept_ctrl_added_to | kept_step]. }
    intros x0o. apply (respects_bind _ (ctrl_added_to_trans P)).
    { apply ctrl_added_sequential_first. apply HP. exact Hx. }
    intros k. apply ctrl_added_sequential_rest. apply HP.
    intros tr Htr. apply Hx.
    rewrite <- (firstn_skipn (k + 1) (map fst sorted)). apply in_or_app. right. exact Htr.
  - rewrite bind_gets.
    apply (respects_for_each_in _ _ _ (ctrl_added_to_refl P) (ctrl_added_to_trans P)).
    intros tr Htr.
    apply (respects_bind _ (ctrl_added_to_trans P)).
    { apply (respects_gets _ (ctrl_added_to_refl P)). }
    intros ahead. apply ctrl_added_add_control_dependency.
    exists tr. split; [exact Htr | reflexivity].
Qed.

(** X11. Whenever [_add_control_dependencies] returns, all it has done
    to the graph is to add control inputs to swap-in operations of the
    recorded triples: every other operation is untouched, no operation
    is added or removed, no data input, name, type, shape or device of
    any operation changes, no control input is removed, and the fields
    of the object but the cache and the log are as they were. *)
Theorem scheduling_adds_only_swapin_controls (self self' : LMS) (u : unit) :
  _add_control_dependencies self = Ok (u, self') ->
  ctrl_added_to (fun c => exists tr, In tr (_ops_triples self) /\ snd tr = c) self self'.
Proof. apply add_control_dependencies_ctrl_added. Qed.

Lemma scheduling_adds_only_swapin_controls_witness :
  _add_control_dependencies two_readers_swapped = Ok (tt, two_readers_scheduled) /\
  ctrl_added_to (fun c => exists tr, In tr (_ops_triples two_readers_swapped) /\ snd tr = c)
                two_readers_swapped two_readers_scheduled.
Proof.
  assert (E : _add_control_dependencies two_readers_swapped = Ok (tt, two_readers_scheduled)).
  { vm_compute. reflexivity. }
  split; [exact E|].
  apply (scheduling_adds_only_swapin_controls two_readers_swapped two_readers_scheduled tt E).
Defined.

(** ** One swap-in per band, anchored at its earliest consumer *)

Lemma sorted_head_least a l b :
  StronglySorted Z.le (a :: l) -> In b (a :: l) -> a <= b.
Proof.
  intros H [<-|Hb]; [lia|]. inversion H as [|? ? _ Hall]; subst.
  rewrite Forall_forall in Hall. apply Hall. exact Hb.
Qed.

Lemma py_head_In {A} (xs : list A) x : py_head xs = Ok x -> In x xs.
Proof. destruct xs; simpl; intros H; inversion H; subst. left; reflexivity. Qed.

Lemma py_eq_some a r : py_eq a (Some r) = true -> a = Some r.
Proof.
  destruct a as [z|]; simpl; [|discriminate]. intros H. apply Z.eqb_eq in H. congruence.
Qed.

Lemma anchor_earliest t dest_ops sorted x d :
  py_sorted_key (fun i => i) (map snd (map (fun o => (o, get_order t o)) dest_ops))
  = Ok sorted ->
  py_head sorted = Ok x ->
  py_head (map fst (filter (fun p => py_eq (snd p) x)
                           (map (fun o => (o, get_order t o)) dest_ops))) = Ok d ->
  earliest t dest_ops d.
Proof.
  rewrite map_map. cbn [snd]. intros Hs Hx Hd.
  apply py_head_In in Hd. apply in_map_iff in Hd. destruct Hd as [[d0 o0] [E Hd]].
  cbn [fst] in E. subst d0. apply filter_In in Hd. destruct Hd as [Hd Heq].
  apply in_map_iff in Hd. destruct Hd as [d1 [E Hd]]. inversion E; subst d1 o0. clear E.
  cbn [snd] in Heq. split; [exact Hd|].
  intros d' r r' Hd' Hr Hr'.
  destruct (le_lt_dec 2 (List.length dest_ops)) as [Hl|Hl].
  - rewrite py_sorted_key_long in Hs by (rewrite length_map; exact Hl).
    destruct (all_some _); [|discriminate]. inversion Hs; subst sorted. clear Hs.
    set (key := fun a : option Z => match a with Some z => z | None => 0 end) in *.
    pose proof (sorted_by_sorted key (rev (map (get_order t) dest_ops))) as Hsorted.
    destruct (sorted_by key (rev (map (get_order t) dest_ops))) as [|y ys] eqn:Es;
      [discriminate|].
    inversion Hx; subst y. clear Hx.
    rewrite Hr in Heq. simpl in Heq.
    destruct x as [xz|]; [|discriminate]. apply Z.eqb_eq in Heq. subst xz.
    assert (Hin : In (Some r') (Some r :: ys)).
    { rewrite <- Es. apply In_sorted_by. apply in_rev. rewrite rev_involutive.
      rewrite <- Hr'. apply in_map. exact Hd'. }
    apply (sorted_head_least (key (Some r)) (map key ys) (key (Some r')) Hsorted).
    apply (in_map key) in Hin. exact Hin.
  - destruct dest_ops as [|a [|b l]]; simpl in Hl; try lia; [destruct Hd|].
    destruct Hd as [<-|[]]. destruct Hd' as [<-|[]].
    assert (r = r') by congruence. lia.
Qed.

Lemma pair_add_fresh (p : op * op) (s : list (op * op)) :
  (forall q, In q s -> snd q <> snd p) -> pair_add p s = s ++ [p].
Proof.
  intros H. unfold pair_add.
  destruct (existsb (fun q => Nat.eqb (fst q) (fst p) && Nat.eqb (snd q) (snd p)) s) eqn:E;
    [|reflexivity].
  apply existsb_exists in E. destruct E as [q [Hq Hb]].
  apply andb_true_iff in Hb. destruct Hb as [_ Hb]. apply Nat.eqb_eq in Hb.
  destruct (H q Hq Hb).
Qed.

Lemma swapin_fold_anchors t swapout_op ts targets :
  forall acc s r s',
    fold_left (swapin_step swapout_op ts) targets acc s = Ok (r, s') ->
    exists r0 s0,
      acc s = Ok (r0, s0) /\
      (_topo_sort s0 = Some t ->
       (forall q, In q r0 -> (snd q < List.length (graph_of s0))%nat) ->
       exists new,
         r = r0 ++ new /\
         List.length (graph_of s') = (List.length (graph_of s0) + List.length targets)%nat /\
         map snd new = seq (List.length (graph_of s0)) (List.length targets) /\
         Forall2 (fun band p => earliest t band (fst p)) targets new).
Proof.
  induction targets as [|band rest IH]; intros acc s res s' H.
  - exists res, s'. cbn [fold_left] in H. split; [exact H|]. intros _ _.
    exists []. rewrite app_nil_r. simpl. repeat split; [lia | constructor].
  - cbn [fold_left] in H.
    destruct (IH _ _ _ _ H) as (r1 & s1 & Hstep & Hrest). clear IH H.
    unfold swapin_step in Hstep.
    destruct (bind_inv _ _ _ _ _ Hstep) as (r0 & s0 & Hacc & H2). clear Hstep.
    exists r0, s0. split; [exact Hacc|]. intros Ht Hlt.
    destruct (bind_inv _ _ _ _ _ H2) as (si & sa & Hin & H3). clear H2.
    destruct (add_swapin_ok _ _ _ _ _ _ Hin) as (Ca & Esi & La).
    assert (Hta : _topo_sort sa = Some t).
    { rewrite (config_topo_sort _ _ Ca). exact Ht. }
    rewrite (bind_ok _ _ _ _ _ (keyed_run t (fun o => o) band sa Hta)) in H3.
    destruct (bind_inv _ _ _ _ _ H3) as (sorted & sc & H5 & H6). clear H3.
    apply lift_inv in H5. destruct H5 as [Hs ->].
    destruct (bind_inv _ _ _ _ _ H6) as (x & sd & H7 & H8). clear H6.
    apply lift_inv in H7. destruct H7 as [Hx ->].
    destruct (bind_inv _ _ _ _ _ H8) as (dest_op & se & H9 & H10). clear H8.
    apply lift_inv in H9. destruct H9 as [Hd ->].
    inversion H10; subst r1 s1; clear H10.
    pose proof (anchor_earliest t band sorted x dest_op Hs Hx Hd) as Hearly.
    rewrite pair_add_fresh in Hrest.
    2:{ intros q Hq. cbn [snd]. apply Hlt in Hq. lia. }
    destruct (Hrest Hta) as (new & Er & Lr & Mr & Fr).
    { intros q Hq. apply in_app_or in Hq. destruct Hq as [Hq|[<-|[]]].
      - apply Hlt in Hq. lia.
      - cbn [snd]. lia. }
    exists ((dest_op, si) :: new). split; [|split; [|split]].
    + rewrite Er, <- app_assoc. reflexivity.
    + rewrite Lr, La. simpl. lia.
    + simpl. rewrite Mr, La, Esi. reflexivity.
    + constructor; [exact Hearly | exact Fr].
Qed.

(** X12. Whenever [_insert_swap_nodes_for_ts] returns, it has appended
    one swap-out operation and one swap-in operation per band to the
    graph, in this order, and it answers the swap-out operation and one
    pair per band: the swap-in operation of the band with an operation
    of the band that no ranked operation of the band precedes. *)
Theorem swapin_anchor_is_earliest (self self' : LMS) (t : TOPOS) (src_op : op) (ts : Tensor)
        (targets : list (list op)) (r : op * list (op * op)) :
  _topo_sort self = Some t ->
  _insert_swap_nodes_for_ts src_op ts targets self = Ok (r, self') ->
  let n := List.length (graph_of self) in
  fst r = n /\
  List.length (graph_of self') = (S n + List.length targets)%nat /\
  map snd (snd r) = seq (S n) (List.length targets) /\
  Forall2 (fun band p => earliest t band (fst p)) targets (snd r).
Proof.
  intros Ht H n. rewrite insert_swap_nodes_for_ts_eq in H.
  destruct (bind_inv _ _ _ _ _ H) as (so & s1 & H1 & H2). clear H.
  destruct (add_swapout_ok _ _ _ _ _ H1) as (C1 & Eso & L1).
  destruct (bind_inv _ _ _ _ _ H2) as (b & s2 & H3 & H4). clear H2.
  destruct (same_size_add_control_inputs _ _ _ _ _ H3) as [C2 L2].
  destruct (bind_inv _ _ _ _ _ H4) as (dest_sin & s3 & H5 & H6). clear H4.
  destruct (swapin_fold_anchors t _ _ _ _ _ _ _ H5) as (r0 & s0 & Hacc & Hfold).
  inversion Hacc; subst r0 s0; clear Hacc.
  inversion H6; subst r self'; clear H6. cbn [fst snd].
  destruct Hfold as (new & Er & Lr & Mr & Fr).
  - rewrite (config_topo_sort _ _ C2), (config_topo_sort _ _ C1). exact Ht.
  - intros q [].
  - simpl in Er. subst new. rewrite L2, L1 in Lr, Mr.
    split; [exact Eso|]. split; [exact Lr|]. split; [exact Mr | exact Fr].
Qed.

Lemma swapin_anchor_is_earliest_witness :
  exists self',
    _insert_swap_nodes_for_ts 0%nat (0%nat, 0%nat) [[5; 4]]%nat two_readers_LMS
    = Ok ((6%nat, [(4%nat, 7%nat)]), self') /\
    earliest two_readers_topos [5; 4]%nat 4%nat.
Proof.
  destruct (_insert_swap_nodes_for_ts 0%nat (0%nat, 0%nat) [[5; 4]]%nat two_readers_LMS)
    as [[r self']|e] eqn:E; [|vm_compute in E; discriminate E].
  destruct (swapin_anchor_is_earliest two_readers_LMS self' two_readers_topos 0%nat
              (0%nat, 0%nat) [[5; 4]]%nat r eq_refl E) as (_ & _ & _ & F).
  assert (Er : r = (6%nat, [(4%nat, 7%nat)])).
  { vm_compute in E. inversion E. reflexivity. }
  subst r. exists self'. split; [reflexivity|].
  inversion F as [|? ? ? ? Hearly _]; subst. exact Hearly.
Defined.

(** ** What the traversal records *)

Lemma config_settings s s' : config s' = config s -> settings s' = settings s.
Proof. unfold config, settings. intros H. injection H as ?. congruence. Qed.

Section Records.
Variable Q : op -> Prop.

Lemma records_refl s : records Q s s.
Proof.
  repeat split; auto. exists []. rewrite app_nil_r. split; [reflexivity | intros tr []].
Qed.

Lemma records_trans a b c : records Q a b -> records Q b c -> records Q a c.
Proof.
  intros (S1 & E1 & O1 & I1 & L1 & l1 & T1 & N1) (S2 & E2 & O2 & I2 & L2 & l2 & T2 & N2).
  split; [congruence|]. split; [auto|]. split; [auto|]. split; [auto|]. split; [lia|].
  exists (l1 ++ l2). split; [rewrite T2, T1, app_assoc; reflexivity|].
  intros tr Htr. apply in_app_or in Htr. destruct Htr as [Htr|Htr].
  - destruct (N1 tr Htr) as [Hq Hs]. split; [exact Hq | apply I2; exact Hs].
  - apply N2. exact Htr.
Qed.

Lemma same_size_records s s' : same_size s s' -> records Q s s'.
Proof.
  intros [C L]. destruct (config_sets _ _ C) as (Ei & Eo & Et & Ee & _).
  split; [apply config_settings; exact C|].
  split; [intros o; rewrite Ee; auto|]. split; [intros o; rewrite Eo; auto|].
  split; [intros o; rewrite Ei; auto|]. split; [lia|].
  exists []. rewrite app_nil_r. split; [exact Et | intros tr []].
Qed.
End Records.

Lemma records_weaken (Q Q' : op -> Prop) s s' :
  (forall p, Q p -> Q' p) -> records Q s s' -> records Q' s s'.
Proof.
  intros H (S1 & E1 & O1 & I1 & L1 & l1 & T1 & N1).
  repeat (split; [assumption|]). exists l1. split; [exact T1|].
  intros tr Htr. destruct (N1 tr Htr). split; auto.
Qed.

Lemma records_record_swapin src_op ds :
  respects (records (eq src_op)) (record_swapin src_op ds).
Proof.
  intros s u s' H. unfold record_swapin, bind, modify in H. inversion H; subst; clear H.
  cbn. split; [reflexivity|]. split; [intros; apply In_op_add; auto|].
  split; [auto|]. split; [intros; apply In_op_add; auto|].
  split; [unfold graph_of; cbn; lia|].
  exists [(src_op, fst ds, snd ds)]. split; [reflexivity|].
  intros tr [<-|[]]. split; [reflexivity|]. apply In_op_add. left; reflexivity.
Qed.

Lemma records_record_swaps src_op r :
  respects (records (eq src_op)) (record_swaps src_op r).
Proof.
  unfold record_swaps.
  apply (respects_bind _ (records_trans (eq src_op))).
  { apply respects_modify. intros s. cbn. split; [reflexivity|].
    split; [auto|]. split; [intros; apply In_op_add; auto|]. split; [auto|].
    split; [unfold graph_of; cbn; lia|].
    exists []. rewrite app_nil_r. split; [reflexivity | intros tr []]. }
  intros _. apply (respects_bind _ (records_trans (eq src_op))).
  { apply respects_modify. intros s. cbn. split; [reflexivity|].
    split; [intros; apply In_op_add; auto|]. split; [auto|]. split; [auto|].
    split; [unfold graph_of; cbn; lia|].
    exists []. rewrite app_nil_r. split; [reflexivity | intros tr []]. }
  intros _. apply (respects_for_each _ (records_refl (eq src_op)) (records_trans (eq src_op))).
  intros ds. apply records_record_swapin.
Qed.

Lemma records_insert_swap_nodes src_op :
  respects (records (eq src_op)) (_insert_swap_nodes src_op).
Proof.
  set (R := records (eq src_op)).
  assert (Hs : forall A (m : M A), respects same_size m -> respects R m).
  { intros A m. apply respects_weaken. apply same_size_records. }
  rewrite insert_swap_nodes_eq.
  apply (respects_bind R (records_trans _)); [apply Hs, same_size_log_info|].
  intros _. apply (respects_bind R (records_trans _)); [apply (respects_ret R (records_refl _))|].
  intros ts_dests0. apply (respects_bind R (records_trans _)); [apply Hs, same_size_get_order|].
  intros order. apply (respects_bind R (records_trans _)); [apply (respects_gets R (records_refl _))|].
  intros g. apply (respects_bind R (records_trans _)); [apply Hs, same_size_filter|].
  intros ts_dests. destruct ts_dests as [|e r]; [apply (respects_ret R (records_refl _))|].
  apply (respects_bind R (records_trans _)); [apply Hs, same_size_get_order|].
  intros order'. apply (respects_bind R (records_trans _)); [apply Hs, same_size_log_info|].
  intros _. apply (respects_for_each R (records_refl _) (records_trans _)).
  intros entry.
  apply (respects_bind R (records_trans _)); [apply (respects_gets R (records_refl _))|].
  intros limit. apply (respects_bind R (records_trans _)); [apply Hs, same_size_groupby|].
  intros grp. apply (respects_bind R (records_trans _)).
  { intros s res s' H. destruct (insert_swap_nodes_for_ts_ok _ _ _ _ _ _ H) as (C & L & _).
    destruct (config_sets _ _ C) as (Ei & Eo & Et & Ee & _).
    split; [apply config_settings; exact C|].
    split; [intros o; rewrite Ee; auto|]. split; [intros o; rewrite Eo; auto|].
    split; [intros o; rewrite Ei; auto|]. split; [exact L|].
    exists []. rewrite app_nil_r. split; [exact Et | intros tr []]. }
  intros res. apply records_record_swaps.
Qed.

Lemma swaps_recorded_refl s : swaps_recorded s s.
Proof. apply records_refl. Qed.

Lemma swaps_recorded_trans a b c :
  swaps_recorded a b -> swaps_recorded b c -> swaps_recorded a c.
Proof.
  unfold swaps_recorded. intros H1 H2. eapply records_trans; [exact H1|].
  revert H2. apply records_weaken. intros p (Hx & Hi & t & Ht & Hr).
  destruct H1 as (S1 & E1 & _). unfold settings in S1. injection S1 as ?.
  split; [intros Hp; apply Hx, E1, Hp|]. split; [congruence|].
  exists t. split; [congruence | exact Hr].
Qed.

Lemma swaps_recorded_do_action_visit src_op :
  respects swaps_recorded (_do_action_visit src_op).
Proof.
  intros s u s' H. unfold _do_action_visit in H. rewrite bind_gets in H.
  destruct (mem_op src_op (_excl_ops s)) eqn:Ex.
  { inversion H; subst. apply swaps_recorded_refl. }
  apply mem_op_false in Ex.
  destruct (_topo_sort s) as [t|] eqn:Ht.
  2:{ unfold bind, _get_order in H. rewrite Ht in H. discriminate. }
  rewrite (bind_ok _ _ _ _ _ (get_order_run _ _ src_op Ht)) in H.
  destruct (get_order t src_op) as [z|] eqn:Ho.
  2:{ inversion H; subst. apply swaps_recorded_refl. }
  rewrite bind_gets in H.
  assert (Hin : _incl_ops s = [] \/ In src_op (_incl_ops s) ->
                _insert_swap_nodes src_op s = Ok (u, s') -> swaps_recorded s s').
  { intros Hi Hrun. apply (records_weaken (eq src_op)).
    - intros p <-. split; [exact Ex|]. split; [exact Hi|].
      exists t. split; [exact Ht | congruence].
    - apply (records_insert_swap_nodes src_op _ _ _ Hrun). }
  destruct (_incl_ops s) as [|i incl_ops] eqn:Ei.
  - apply Hin; [left; reflexivity | exact H].
  - destruct (mem_op src_op (i :: incl_ops)) eqn:Em.
    + apply Hin; [right; apply mem_op_In; exact Em | exact H].
    + inversion H; subst. apply swaps_recorded_refl.
Qed.

Lemma visited_from_swaps_recorded s0 s : visited_from s0 s -> swaps_recorded s0 s.
Proof.
  induction 1 as [|s src_op u s' Hs IH Hv]; [apply swaps_recorded_refl|].
  eapply swaps_recorded_trans; [exact IH|].
  eapply swaps_recorded_do_action_visit. exact Hv.
Qed.

Lemma do_action_swaps_recorded fuel src_ops :
  respects swaps_recorded (_do_action fuel src_ops).
Proof.
  intros s u s' H. apply visited_from_swaps_recorded.
  unfold _do_action in H. exact (do_action_while_visits _ _ _ _ _ _ H).
Qed.

(** X13. Whenever the traversal [_do_action] returns, the settings of
    the object, its inclusion set and its order are as they were; the
    excluded set, the two swap sets and the graph have only grown; the
    list of triples is the old one followed by the triples of this
    traversal.  Each of these has its swap-in operation in
    [_swapin_ops], and its producer was not excluded when the traversal
    began, is in the inclusion set when one is given, and is ranked. *)
Theorem do_action_records_swaps (fuel : nat) (src_ops : list op) (self self' : LMS)
        (u : unit) :
  _do_action fuel src_ops self = Ok (u, self') ->
  settings self' = settings self /\
  (forall o, In o (_excl_ops self) -> In o (_excl_ops self')) /\
  (forall o, In o (_swapout_ops self) -> In o (_swapout_ops self')) /\
  (forall o, In o (_swapin_ops self) -> In o (_swapin_ops self')) /\
  (List.length (graph_of self) <= List.length (graph_of self'))%nat /\
  exists added,
    _ops_triples self' = _ops_triples self ++ added /\
    forall tr, In tr added ->
               swappable self (fst (fst tr)) /\ In (snd tr) (_swapin_ops self').
Proof. intros H. exact (do_action_swaps_recorded fuel src_ops self u self' H). Qed.

Lemma do_action_records_swaps_witness :
  _do_action 6 (ge_make_list_of_op two_readers_graph) two_readers_LMS
  = Ok (tt, two_readers_swapped) /\
  exists added,
    _ops_triples two_readers_swapped = _ops_triples two_readers_LMS ++ added /\
    forall tr, In tr added ->
               swappable two_readers_LMS (fst (fst tr)) /\
               In (snd tr) (_swapin_ops two_readers_swapped).
Proof.
  assert (E : _do_action 6 (ge_make_list_of_op two_readers_graph) two_readers_LMS
              = Ok (tt, two_readers_swapped)).
  { vm_compute. reflexivity. }
  split; [exact E|].
  apply (do_action_records_swaps 6 (ge_make_list_of_op two_readers_graph)
           two_readers_LMS two_readers_swapped tt E).
Defined.

(** ** One run, from the settings to the records *)

Lemma bind_modify {B} (f : LMS -> LMS) (k : unit -> M B) s :
  bind (modify f) k s = k tt (f s).
Proof. reflexivity. Qed.

Lemma graph_kept_print_configuration : respects graph_kept _print_configuration.
Proof.
  unfold _print_configuration.
  do 4 (kept_step; [kept_step|]).
  kept_step; [kept_step|]. kept_step; [kept_step|].
  destruct (a3 =? 1); [repeat kept_step|].
  destruct (a3 =? 2); [repeat kept_step|].
  destruct (a3 =? 3); [repeat kept_step|].
  destruct (a3 =? 0); repeat kept_step.
Qed.

Lemma same_size_schedule mode :
  respects same_size (if mode =? 0 then _add_control_dependencies else _sync_ops mode).
Proof.
  intros s u s' H. destruct (mode =? 0).
  - destruct (add_control_dependencies_ctrl_added s s' u H) as (C & L & _).
    split; assumption.
  - rewrite sync_ops_eq in H.
    destruct (bind_inv _ _ _ _ _ H) as (u1 & s1 & H1 & H2).
    destruct (sync_dest_phase _ _ _ _ H1) as [(C1 & _ & _ & L1 & _) _].
    destruct (sync_src_phase _ _ _ _ H2) as [(C2 & _ & _ & L2 & _) _].
    split; [eapply same_config_trans; eassumption | congruence].
Qed.

Lemma config_user_settings s s' : config s' = config s -> user_settings s' = user_settings s.
Proof. unfold config, user_settings. intros H. injection H as ?. congruence. Qed.

Lemma settings_user_settings s s' :
  settings s' = settings s -> user_settings s' = user_settings s.
Proof. unfold settings, user_settings. intros H. injection H as ?. congruence. Qed.

(** X14. [run] without a graph, on an object that has none, raises
    ValueError.  On inclusion and exclusion scopes that hold no
    character a regular expression gives a meaning to, whenever [run]
    returns, on the graph [g] it was given or found in the object: the
    fields set at construction are as they were; the order is the one
    built for [g] as it was before the edit; a negative
    [swapout_threshold] has been replaced by half the size of the order,
    any other is kept; the inclusion set is what the inclusion scopes
    (by the search of their regular expression in the names) and types
    select in [g], and the excluded set holds what the exclusion scopes
    and types select; the swap sets and the graph have only grown; the
    list of triples is the old one followed by the triples of this run,
    each with its swap-in operation recorded and with a producer that is
    ranked, not selected for exclusion, and in the inclusion set when it
    is not empty. *)
Theorem run_outcome (fuel : nat) (graph : option Graph) (self : LMS) :
  (graph = None -> _graph self = None -> run fuel graph self = Raise ValueError) /\
  forall (u : unit) (self' : LMS),
  Forall plain_scope (_excl_scopes self) -> Forall plain_scope (_incl_scopes self) ->
  run fuel graph self = Ok (u, self') ->
  exists g,
    (graph = Some g \/ (graph = None /\ _graph self = Some g)) /\
    let all_ops := ge_make_list_of_op g in
    let topo := TOPOS_build g all_ops in
    user_settings self' = user_settings self /\
    _topo_sort self' = Some topo /\
    _swapout_threshold self'
    = (if _swapout_threshold self <? 0 then size topo / 2 else _swapout_threshold self) /\
    (forall o, In o (_incl_ops self') <->
               In o all_ops /\ selects g (_incl_scopes self) (_incl_types self) o) /\
    (forall o, In o all_ops -> selects g (_excl_scopes self) (_excl_types self) o ->
               In o (_excl_ops self')) /\
    (forall o, In o (_swapout_ops self) -> In o (_swapout_ops self')) /\
    (forall o, In o (_swapin_ops self) -> In o (_swapin_ops self')) /\
    (List.length g <= List.length (graph_of self'))%nat /\
    exists added,
      _ops_triples self' = _ops_triples self ++ added /\
      forall tr, In tr added ->
                 In (snd tr) (_swapin_ops self') /\
                 ~ (In (fst (fst tr)) all_ops /\
                    selects g (_excl_scopes self) (_excl_types self) (fst (fst tr))) /\
                 (_incl_ops self' = [] \/ In (fst (fst tr)) (_incl_ops self')) /\
                 get_order topo (fst (fst tr)) <> None.
Proof.
  split.
  { intros -> Hg. unfold run. rewrite bind_ret_l, bind_gets, Hg. reflexivity. }
  intros u self' PE PI H.
  set (s_a := match graph with Some g => set_graph g self | None => self end).
  assert (Ha : (match graph with
                | Some g => modify (set_graph g)
                | None => ret tt
                end) self = Ok (tt, s_a)) by (destruct graph; reflexivity).
  unfold run in H. rewrite (bind_ok _ _ _ _ _ Ha), bind_gets in H.
  destruct (_graph s_a) as [g|] eqn:Eg; [|discriminate].
  assert (Hsrc : graph = Some g \/ (graph = None /\ _graph self = Some g)).
  { unfold s_a in Eg. destruct graph as [g0|]; [left; cbn in Eg; congruence | right; auto]. }
  assert (Ca : config s_a = config self) by (unfold s_a; destruct graph; reflexivity).
  assert (Ga : graph_of s_a = g) by (unfold graph_of; rewrite Eg; reflexivity).
  exists g. split; [exact Hsrc|]. cbv zeta.
  set (all_ops := ge_make_list_of_op g) in *.
  set (topo := TOPOS_build g all_ops) in *.
  destruct (log_info_run (Info "Editing model for LMS") 0 s_a) as (s1 & R1 & C1 & G1 & _).
  rewrite (bind_ok _ _ _ _ _ R1) in H.
  destruct (log_info_run (InfoN "The graph has {} ops in total"
                                (Z.of_nat (List.length all_ops))) 0 s1)
    as (s2 & R2 & C2 & G2 & _).
  rewrite (bind_ok _ _ _ _ _ R2) in H.
  assert (C02 : config s2 = config self) by congruence.
  assert (G02 : graph_of s2 = g) by congruence.
  clear Ha Eg Ca Ga R1 C1 G1 R2 C2 G2 s1. clearbody s_a. clear s_a.
  rewrite !bind_gets in H.
  assert (PE2 : Forall plain_scope (_excl_scopes s2)).
  { unfold config in C02. injection C02 as ?.
    replace (_excl_scopes s2) with (_excl_scopes self) by congruence. exact PE. }
  assert (PI2 : Forall plain_scope (_incl_scopes s2)).
  { unfold config in C02. injection C02 as ?.
    replace (_incl_scopes s2) with (_incl_scopes self) by congruence. exact PI. }
  rewrite (bind_ok _ _ _ _ _ (filter_scopes_and_types_run _ _ _ s2 PE2)), bind_modify in H.
  rewrite G02 in H.
  set (E := selected_ops g all_ops (_excl_scopes s2) (_excl_types s2)) in H.
  rewrite !bind_gets in H.
  rewrite (bind_ok _ _ _ _ _
             (filter_scopes_and_types_run all_ops (_incl_scopes (set_excl_ops E s2))
                (_incl_types (set_excl_ops E s2)) (set_excl_ops E s2) PI2)),
    bind_modify in H.
  change (graph_of (set_excl_ops E s2)) with (graph_of s2) in H. rewrite G02 in H.
  change (_incl_scopes (set_excl_ops E s2)) with (_incl_scopes s2) in H.
  change (_incl_types (set_excl_ops E s2)) with (_incl_types s2) in H.
  set (I := selected_ops g all_ops (_incl_scopes s2) (_incl_types s2)) in H.
  rewrite bind_modify in H.
  set (s5 := set_topo_sort topo (set_incl_ops I (set_excl_ops E s2))) in H.
  assert (F5 : user_settings s5 = user_settings self /\
               _swapout_threshold s5 = _swapout_threshold self /\
               _swapout_ops s5 = _swapout_ops self /\ _swapin_ops s5 = _swapin_ops self /\
               _ops_triples s5 = _ops_triples self /\
               _excl_ops s5 = E /\ _incl_ops s5 = I /\ _topo_sort s5 = Some topo /\
               graph_of s5 = g).
  { unfold user_settings, s5. cbn. unfold config in C02. injection C02 as ?.
    repeat split; try congruence. exact G02. }
  clearbody s5.
  destruct (log_info_run (InfoN "Topological sort size: {}" (size topo)) 0 s5)
    as (s6 & R6 & C6 & G6 & _).
  rewrite (bind_ok _ _ _ _ _ R6) in H. clear R6.
  destruct (bind_inv _ _ _ _ _ H) as ([] & s7 & H7 & H'). clear H.
  assert (K7 : graph_kept s6 s7).
  { revert H7. apply (respects_for_each graph_kept graph_kept_refl graph_kept_trans).
    intros i. repeat kept_step. }
  clear H7. destruct K7 as [C7 G7].
  assert (C57 : config s7 = config s5) by congruence.
  assert (G57 : graph_of s7 = graph_of s5) by congruence.
  clear C6 G6 C7 G7 s6.
  rewrite bind_gets in H'.
  destruct (bind_inv _ _ _ _ _ H') as ([] & s8 & H8 & H''). clear H'.
  assert (F8 : user_settings s8 = user_settings s7 /\
               _swapout_threshold s8
               = (if _swapout_threshold s7 <? 0 then size topo / 2
                  else _swapout_threshold s7) /\
               _swapout_ops s8 = _swapout_ops s7 /\ _swapin_ops s8 = _swapin_ops s7 /\
               _ops_triples s8 = _ops_triples s7 /\
               _excl_ops s8 = _excl_ops s7 /\ _incl_ops s8 = _incl_ops s7 /\
               _topo_sort s8 = _topo_sort s7 /\ graph_of s8 = graph_of s7).
  { destruct (_swapout_threshold s7 <? 0).
    - destruct (log_info_run (Info "Use auto mode for setting swapout_threshold") 0 s7)
        as (s7' & R & C & G & _).
      rewrite (bind_ok _ _ _ _ _ R) in H8. inversion H8; subst s8. clear H8 R.
      unfold user_settings. cbn. unfold config in C. injection C as ?.
      repeat split; try congruence. unfold graph_of in *. cbn. exact G.
    - inversion H8; subst s8. repeat split. }
  clear H8.
  destruct (bind_inv _ _ _ _ _ H'') as ([] & s9 & H9 & H3). clear H''.
  destruct (graph_kept_print_configuration _ _ _ H9) as [C9 G9]. clear H9.
  destruct (bind_inv _ _ _ _ _ H3) as ([] & s10 & H10 & H4). clear H3.
  pose proof (do_action_swaps_recorded _ _ _ _ _ H10)
    as (S10 & E10 & O10 & I10 & L10 & added & T10 & N10). clear H10.
  rewrite bind_gets in H4.
  destruct (bind_inv _ _ _ _ _ H4) as ([] & s11 & H11 & H5). clear H4.
  destruct (same_size_schedule _ _ _ _ H11) as [C11 L11]. clear H11.
  rewrite !bind_gets in H5.
  destruct (log_info_run (InfoAdded (List.length (_swapout_ops s11))
                                    (List.length (_swapin_ops s11))) 0 s11)
    as (s12 & R12 & C12 & G12 & _).
  rewrite (bind_ok _ _ _ _ _ R12) in H5. clear R12.
  destruct (log_info_run (Info "Editing model for LMS, took: {} ms") 0 s12)
    as (s13 & R13 & C13 & G13 & _).
  rewrite R13 in H5. inversion H5; subst s13. clear H5 R13.
  assert (Cend : config self' = config s10) by congruence.
  assert (Lend : List.length (graph_of self') = List.length (graph_of s10)) by congruence.
  clear C11 L11 C12 G12 C13 G13 s11 s12.
  destruct F5 as (U5 & Th5 & So5 & Si5 & Tr5 & Ex5 & In5 & To5 & Gr5).
  destruct F8 as (U8 & Th8 & So8 & Si8 & Tr8 & Ex8 & In8 & To8 & Gr8).
  pose proof (config_user_settings _ _ C57) as U7.
  pose proof (config_user_settings _ _ C9) as U9.
  pose proof (settings_user_settings _ _ S10) as U10.
  pose proof (config_user_settings _ _ Cend) as Uend.
  unfold config in C57, C9, Cend. unfold settings in S10.
  injection C57 as ?. injection C9 as ?. injection Cend as ?. injection S10 as ?.
  assert (Hexcl9 : _excl_ops s9 = E) by congruence.
  assert (Hincl : _incl_ops self' = I) by congruence.
  assert (Htopo9 : _topo_sort s9 = Some topo) by congruence.
  assert (HE : forall o, In o E <->
                         In o all_ops /\ selects g (_excl_scopes self) (_excl_types self) o).
  { intros o. unfold E. rewrite In_selected_ops.
    unfold config in C02. injection C02 as ?.
    replace (_excl_scopes s2) with (_excl_scopes self) by congruence.
    replace (_excl_types s2) with (_excl_types self) by congruence. reflexivity. }
  assert (HI : forall o, In o I <->
                         In o all_ops /\ selects g (_incl_scopes self) (_incl_types self) o).
  { intros o. unfold I. rewrite In_selected_ops.
    unfold config in C02. injection C02 as ?.
    replace (_incl_scopes s2) with (_incl_scopes self) by congruence.
    replace (_incl_types s2) with (_incl_types self) by congruence. reflexivity. }
  split; [congruence|]. split; [congruence|].
  split.
  { replace (_swapout_threshold self') with (_swapout_threshold s8) by congruence.
    rewrite Th8. replace (_swapout_threshold s7) with (_swapout_threshold self) by congruence.
    reflexivity. }
  split; [intros o; rewrite Hincl; apply HI|].
  split.
  { intros o Ho Hsel. replace (_excl_ops self') with (_excl_ops s10) by congruence.
    apply E10. rewrite Hexcl9. apply HE. split; assumption. }
  split.
  { intros o Ho. replace (_swapout_ops self') with (_swapout_ops s10) by congruence.
    apply O10. replace (_swapout_ops s9) with (_swapout_ops self) by congruence. exact Ho. }
  split.
  { intros o Ho. replace (_swapin_ops self') with (_swapin_ops s10) by congruence.
    apply I10. replace (_swapin_ops s9) with (_swapin_ops self) by congruence. exact Ho. }
  split.
  { rewrite Lend. replace g with (graph_of s9) by congruence. exact L10. }
  exists added. split.
  { replace (_ops_triples self') with (_ops_triples s10) by congruence.
    rewrite T10. replace (_ops_triples s9) with (_ops_triples self) by congruence.
    reflexivity. }
  intros tr Htr. destruct (N10 tr Htr) as [(Hx & Hi & t & Ht & Hr) Hs].
  split; [replace (_swapin_ops self') with (_swapin_ops s10) by congruence; exact Hs|].
  split; [intros Hsel; apply Hx; rewrite Hexcl9; apply HE; exact Hsel|].
  split.
  { replace (_incl_ops self') with (_incl_ops s9) by congruence. exact Hi. }
  rewrite Htopo9 in Ht. inversion Ht; subst t. exact Hr.
Qed.

Lemma run_outcome_witness :
  exists self',
    run 6 None (LMS_object (chain_graph "MatMul")) = Ok (tt, self') /\
    _swapout_threshold self' = 3 /\ _sync_mode self' = 0.
Proof.
  destruct (run 6 None (LMS_object (chain_graph "MatMul"))) as [[[] self']|e] eqn:E;
    [|vm_compute in E; discriminate E].
  destruct (proj2 (run_outcome 6 None (LMS_object (chain_graph "MatMul"))) tt self'
                  (Forall_nil _) (Forall_nil _) E)
    as (g & [Hg|[_ Hg]] & U & _ & Th & _); [discriminate Hg|].
  inversion Hg; subst g. exists self'. split; [reflexivity|]. split; [exact Th|].
  unfold user_settings in U. injection U as ?. assumption.
Defined.

(** ** The traversal is one pass over the operations *)

Section NewReads.
Variable P : op -> Tensor -> Prop.

Lemma new_reads_refl s : new_reads P s s.
Proof. split; [lia | auto]. Qed.

Lemma new_reads_trans a b c : new_reads P a b -> new_reads P b c -> new_reads P a c.
Proof.
  intros [L1 N1] [L2 N2]. split; [lia|].
  intros o t H. destruct (N2 o t H) as [H'|H']; [apply N1; exact H' | right; exact H'].
Qed.

Lemma graph_kept_new_reads s s' : graph_kept s s' -> new_reads P s s'.
Proof. intros [_ G]. unfold new_reads. rewrite G. split; [lia | auto]. Qed.
End NewReads.

Lemma new_reads_weaken (P P' : op -> Tensor -> Prop) s s' :
  (forall c t, P c t -> P' c t) -> new_reads P s s' -> new_reads P' s s'.
Proof.
  intros HP [L N]. split; [exact L|]. intros c t H.
  destruct (N c t H) as [H'|H']; [left; exact H' | right; apply HP; exact H'].
Qed.

Lemma reads_kept_refl p m s : reads_kept p m s s.
Proof. intros _. apply new_reads_refl. Qed.

Lemma reads_kept_trans p m a b c :
  reads_kept p m a b -> reads_kept p m b c -> reads_kept p m a c.
Proof.
  intros H1 H2 Hm. pose proof (H1 Hm) as N1.
  eapply new_reads_trans; [exact N1 | apply H2]. destruct N1 as [L _]. lia.
Qed.

Lemma graph_kept_reads_kept p m s s' : graph_kept s s' -> reads_kept p m s s'.
Proof. intros H _. apply graph_kept_new_reads. exact H. Qed.

Lemma In_rerouted old new l t : In t (rerouted old new l) -> In t l \/ t = new.
Proof.
  unfold rerouted. intros H. apply in_map_iff in H. destruct H as [x [E Hx]].
  destruct (tensor_eqb x old); [right; congruence | left; congruence].
Qed.

Lemma reads_reroute_fold src dest pairs : forall g,
  (forall q, In q pairs -> fst (snd q) = src) ->
  let g' := fold_left (fun g' (q : Tensor * Tensor) => reroute_input g' dest (fst q) (snd q))
                      pairs g in
  List.length g' = List.length g /\
  forall c t, In t (inputs g' c) -> In t (inputs g c) \/ (fst t = src /\ c = dest).
Proof.
  induction pairs as [|q r IH]; intros g Hq; cbn [fold_left]; cbv zeta.
  - split; auto.
  - destruct (IH (reroute_input g dest (fst q) (snd q))) as [L N].
    { intros q' Hq'. apply Hq. right; exact Hq'. }
    cbv zeta in L, N.
    split; [eapply eq_trans; [exact L | apply length_reroute_input]|].
    intros c t H. destruct (N c t H) as [H'|H']; [|right; exact H'].
    rewrite inputs_reroute_input in H'.
    destruct (Nat.eqb c dest) eqn:E; [|left; exact H'].
    apply Nat.eqb_eq in E. apply In_rerouted in H'. destruct H' as [H'| ->].
    + left; exact H'.
    + right. split; [apply Hq; left; reflexivity | exact E].
Qed.

Lemma connect_ops_reads src dest ri ro idx :
  respects (new_reads (fun c t => fst t = src /\ c = dest)) (_connect_ops src dest ri ro idx).
Proof.
  intros s u s' H. unfold _connect_ops in H. rewrite bind_gets in H. cbv zeta in H.
  destruct (bind_inv _ _ _ _ _ H) as (outs & s1 & H1 & H2). clear H.
  apply lift_inv in H1. destruct H1 as [Ho ->].
  destruct (bind_inv _ _ _ _ _ H2) as (ins & s2 & H3 & H4). clear H2.
  apply lift_inv in H3. destruct H3 as [_ ->].
  destruct (bind_inv _ _ _ _ _ H4) as (g' & s3 & H5 & H6). clear H4.
  apply lift_inv in H5. destruct H5 as [Hc ->].
  inversion H6; subst s'. clear H6. unfold new_reads. rewrite graph_of_set_graph.
  assert (Houts : forall t, In t outs -> fst t = src).
  { intros t Ht. apply (In_outputs (graph_of s)).
    destruct ro.
    - destruct idx as [i|]; [|discriminate]. unfold remap in Ho.
      destruct (nth_error (sgv_outputs (graph_of s) src) i) as [x|] eqn:E; [|discriminate].
      inversion Ho; subst outs. destruct Ht as [<-|[]].
      apply nth_error_In in E. exact E.
    - inversion Ho; subst outs. exact Ht. }
  unfold ge_connect in Hc.
  destruct (Nat.eqb (List.length outs) (List.length ins)); [|discriminate].
  inversion Hc; subst g'. clear Hc.
  destruct (reads_reroute_fold src dest (combine ins outs) (graph_of s)) as [L N].
  { intros q Hq. apply Houts. destruct q as [a b]. apply in_combine_r in Hq. exact Hq. }
  split; [rewrite L; lia | exact N].
Qed.

Lemma add_control_inputs_reads P op1 op2 :
  respects (new_reads P) (_add_control_inputs op1 op2).
Proof.
  intros s b s' H.
  destruct (add_control_inputs_cases op1 op2 s) as [[Hrun _]|(g' & Hrun & Hg & _)];
    cbv zeta in Hrun; rewrite Hrun in H; inversion H; subst.
  - apply new_reads_refl.
  - unfold new_reads. rewrite graph_of_set_graph. unfold ge_add_control_inputs in Hg.
    destruct (existsb _ [op2]); [discriminate|]. inversion Hg; subst g'. clear Hg.
    split; [rewrite length_update_op; lia|].
    intros c t Ht. left. rewrite inputs_update_op in Ht; [exact Ht | reflexivity].
Qed.

Lemma In_inputs_app_last g x c t :
  In t (inputs (g ++ [x]) c) -> In t (inputs g c) \/ (c = List.length g /\ In t (op_inputs x)).
Proof.
  destruct (Nat.lt_trichotomy c (List.length g)) as [H|[H|H]].
  - rewrite inputs_app by exact H. auto.
  - subst c. unfold inputs at 1. rewrite nth_error_last. auto.
  - unfold inputs at 1.
    replace (nth_error (g ++ [x]) c) with (@None Operation); [intros []|].
    symmetry. apply nth_error_None. rewrite length_app. simpl. lia.
Qed.

Lemma index_of_Ok_In t ts i : index_of t ts = Ok i -> In t ts.
Proof.
  revert i. induction ts as [|u r IH]; intros i H; [discriminate|]. simpl in H.
  destruct (tensor_eqb u t) eqn:E.
  - apply tensor_eqb_eq in E. left; exact E.
  - destruct (index_of t r) as [j|e]; [|discriminate]. right. apply (IH j). reflexivity.
Qed.

Lemma add_swapout_reads p m ts0 : respects (reads_kept p m) (_add_swapout p ts0).
Proof.
  intros s r s' H Hm. unfold _add_swapout in H. rewrite !bind_gets in H.
  cbn [array_ops_identity fst snd] in H. rewrite bind_modify, bind_gets in H.
  set (g := graph_of s) in *.
  set (node := mkOperation (unique_name g (lms_name "lms/swapout_" (tensor_name g ts0)))
                           "Identity" [ts0] [ndims g ts0] [] (_cpu_device s)) in *.
  set (s1 := set_graph (g ++ [node]) s) in *.
  destruct (bind_inv _ _ _ _ _ H) as (idx & s2 & H1 & H2). clear H.
  apply lift_inv in H1. destruct H1 as [Hidx ->].
  apply index_of_Ok_In in Hidx. apply In_outputs in Hidx.
  destruct (bind_inv _ _ _ _ _ H2) as ([] & s3 & H3 & H4). clear H2.
  pose proof (connect_ops_reads _ _ _ _ _ _ _ _ H3) as [L3 N3]. clear H3.
  destruct (bind_inv _ _ _ _ _ H4) as ([] & s4 & H5 & H6). clear H4.
  destruct (graph_kept_log_info _ _ _ _ _ H5) as [_ G4]. clear H5.
  inversion H6; subst s4. clear H6.
  assert (G1 : graph_of s1 = g ++ [node]) by apply graph_of_set_graph.
  rewrite G1 in L3, N3. rewrite length_app in L3. simpl in L3.
  unfold new_reads. rewrite G4. fold g. split; [lia|].
  intros c t Ht. destruct (N3 c t Ht) as [Ht'|[Hf Hc]].
  - apply In_inputs_app_last in Ht'. destruct Ht' as [Ht'|[Hc Ht']]; [left; exact Ht'|].
    right. right. simpl in Ht'. destruct Ht' as [<-|[]]. split; [exact Hidx | lia].
  - right. right. split; [exact Hf | lia].
Qed.

Lemma add_swapout_tensor p ts0 s r s' :
  _add_swapout p ts0 s = Ok (r, s') -> fst ts0 = p.
Proof.
  intros H. unfold _add_swapout in H. rewrite !bind_gets in H.
  rewrite bind_modify, bind_gets in H.
  destruct (bind_inv _ _ _ _ _ H) as (idx & s2 & H1 & _).
  apply lift_inv in H1. destruct H1 as [Hidx _].
  apply index_of_Ok_In in Hidx. apply In_outputs in Hidx. exact Hidx.
Qed.

Lemma add_swapin_reads p m so dests ts0 :
  fst ts0 = p -> (m <= so)%nat -> respects (reads_kept p m) (_add_swapin so dests ts0).
Proof.
  intros Hts Hso s r s' H Hm. unfold _add_swapin in H. rewrite !bind_gets in H.
  cbn [array_ops_identity fst snd] in H. rewrite bind_modify in H.
  set (g := graph_of s) in *. set (si := List.length g) in *.
  set (node := mkOperation (unique_name g (lms_name "lms/swapin_" (tensor_name g ts0)))
                           "Identity" [ts0] [ndims g ts0] [] (_cpu_device s)) in *.
  set (s1 := set_graph (g ++ [node]) s) in *.
  assert (N1 : new_reads (swap_read p m) s s1).
  { unfold new_reads, s1. rewrite graph_of_set_graph. fold g.
    split; [rewrite length_app; lia|].
    intros c t Ht. apply In_inputs_app_last in Ht.
    destruct Ht as [Ht|[Hc Ht]]; [left; exact Ht|]. right. right.
    simpl in Ht. destruct Ht as [<-|[]]. split; [exact Hts | fold si in Hc; lia]. }
  destruct (bind_inv _ _ _ _ _ H) as ([] & s2 & H1 & H2). clear H.
  assert (N2 : new_reads (swap_read p m) s1 s2).
  { apply (new_reads_weaken (fun c t => fst t = so /\ c = si)).
    - intros c t [Hf _]. left. lia.
    - apply (connect_ops_reads _ _ _ _ _ _ _ _ H1). }
  destruct (bind_inv _ _ _ _ _ H2) as ([] & s3 & H3 & H4). clear H2.
  assert (N3 : new_reads (swap_read p m) s2 s3).
  { revert H3.
    apply (respects_for_each _ (new_reads_refl (swap_read p m))
             (new_reads_trans (swap_read p m))).
    intros dest.
    apply (respects_bind _ (new_reads_trans _)); [apply (respects_gets _ (new_reads_refl _))|].
    intros g1. apply (respects_bind _ (new_reads_trans _));
      [apply (respects_lift _ (new_reads_refl _))|].
    intros idx. apply (respects_bind _ (new_reads_trans _)).
    { apply (respects_weaken (new_reads (fun c t => fst t = si /\ c = dest))).
      - intros a b. apply new_reads_weaken. intros c t [Hf _]. left. lia.
      - apply connect_ops_reads. }
    intros _. apply (respects_weaken graph_kept);
      [intros a b; apply graph_kept_new_reads | repeat kept_step]. }
  inversion H4; subst s3. clear H4.
  eapply new_reads_trans; [exact N1|]. eapply new_reads_trans; [exact N2 | exact N3].
Qed.

Lemma same_graph_reads_kept p m s s' : graph_of s' = graph_of s -> reads_kept p m s s'.
Proof. intros G _. unfold new_reads. rewrite G. split; [lia | auto]. Qed.

Lemma graph_kept_groupby ops limit : respects graph_kept (_groupby ops limit).
Proof.
  unfold _groupby. kept_step.
  { apply (respects_map_m graph_kept graph_kept_refl graph_kept_trans).
    intros o. repeat kept_step. }
  repeat kept_step.
Qed.

Lemma graph_kept_filter src_op_order outs acc :
  respects graph_kept (_insert_swap_nodes_filter src_op_order outs acc).
Proof.
  revert acc. induction outs as [|ts r IH]; intros acc; cbn [_insert_swap_nodes_filter].
  - kept_step.
  - kept_step; [kept_step|].
    destruct (ndims a ts) as [n|]; [|apply IH].
    destruct (n <=? 1); [apply IH|].
    kept_step; [repeat kept_step|].
    destruct a0; apply IH.
Qed.

Lemma swapin_fold_reads p m so ts targets :
  fst ts = p -> (m <= so)%nat ->
  forall acc, respects (reads_kept p m) acc ->
              respects (reads_kept p m) (fold_left (swapin_step so ts) targets acc).
Proof.
  intros Hts Hso. induction targets as [|b r IH]; intros acc Hacc; cbn [fold_left];
    [exact Hacc|].
  apply IH. unfold swapin_step.
  apply (respects_bind _ (reads_kept_trans p m)); [exact Hacc|]. intros dest_sin.
  apply (respects_bind _ (reads_kept_trans p m)); [apply add_swapin_reads; assumption|].
  intros si.
  apply (respects_weaken graph_kept); [intros x y; apply graph_kept_reads_kept|].
  kept_step.
  { apply (respects_map_m graph_kept graph_kept_refl graph_kept_trans).
    intros o. repeat kept_step. }
  repeat kept_step.
Qed.

Lemma insert_swap_nodes_for_ts_reads p m ts targets :
  respects (reads_kept p m) (_insert_swap_nodes_for_ts p ts targets).
Proof.
  intros s r s' H Hm. rewrite insert_swap_nodes_for_ts_eq in H.
  destruct (bind_inv _ _ _ _ _ H) as (so & s1 & H1 & H2). clear H.
  pose proof (add_swapout_tensor _ _ _ _ _ H1) as Hts.
  destruct (add_swapout_ok _ _ _ _ _ H1) as (_ & Eso & _).
  pose proof (add_swapout_reads p m ts _ _ _ H1) as R1.
  assert (R2 : reads_kept p m s1 s').
  { revert H2. apply (respects_bind _ (reads_kept_trans p m)).
    - apply (respects_weaken (new_reads (swap_read p m)));
        [intros x y N _; exact N | apply add_control_inputs_reads].
    - intros _. apply (respects_bind _ (reads_kept_trans p m)).
      + apply swapin_fold_reads; [exact Hts | lia |].
        apply (respects_ret _ (reads_kept_refl p m)).
      + intros dest_sin. apply (respects_ret _ (reads_kept_refl p m)). }
  exact (reads_kept_trans p m _ _ _ R1 R2 Hm).
Qed.

Lemma insert_swap_nodes_reads p m : respects (reads_kept p m) (_insert_swap_nodes p).
Proof.
  set (R := reads_kept p m).
  assert (Hk : forall A (mm : M A), respects graph_kept mm -> respects R mm).
  { intros A mm. apply respects_weaken. intros x y. apply graph_kept_reads_kept. }
  rewrite insert_swap_nodes_eq.
  apply (respects_bind R (reads_kept_trans p m)); [apply Hk; kept_step|].
  intros _. apply (respects_bind R (reads_kept_trans p m)); [apply Hk; kept_step|].
  intros ts_dests0. apply (respects_bind R (reads_kept_trans p m)); [apply Hk; kept_step|].
  intros order. apply (respects_bind R (reads_kept_trans p m)); [apply Hk; kept_step|].
  intros g. apply (respects_bind R (reads_kept_trans p m)); [apply Hk, graph_kept_filter|].
  intros ts_dests. destruct ts_dests as [|e r]; [apply Hk; kept_step|].
  apply (respects_bind R (reads_kept_trans p m)); [apply Hk; kept_step|].
  intros order'. apply (respects_bind R (reads_kept_trans p m)); [apply Hk; kept_step|].
  intros _. apply (respects_for_each R (reads_kept_refl p m) (reads_kept_trans p m)).
  intros entry.
  apply (respects_bind R (reads_kept_trans p m)); [apply Hk; kept_step|].
  intros limit. apply (respects_bind R (reads_kept_trans p m)); [apply Hk, graph_kept_groupby|].
  intros grp. apply (respects_bind R (reads_kept_trans p m));
    [apply insert_swap_nodes_for_ts_reads|].
  intros res s u s' H. apply same_graph_reads_kept.
  destruct (record_swaps_ok _ _ _ _ _ H) as [[G _] _]. exact G.
Qed.

Lemma do_action_visit_reads p m : respects (reads_kept p m) (_do_action_visit p).
Proof.
  set (R := reads_kept p m).
  assert (Hk : forall A (mm : M A), respects graph_kept mm -> respects R mm).
  { intros A mm. apply respects_weaken. intros x y. apply graph_kept_reads_kept. }
  unfold _do_action_visit.
  apply (respects_bind R (reads_kept_trans p m)); [apply Hk; kept_step|].
  intros excl_ops. destruct (mem_op p excl_ops); [apply Hk; kept_step|].
  apply (respects_bind R (reads_kept_trans p m)); [apply Hk; kept_step|].
  intros [z|]; [|apply Hk; kept_step].
  apply (respects_bind R (reads_kept_trans p m)); [apply Hk; kept_step|].
  intros [|i incl_ops]; [apply insert_swap_nodes_reads|].
  destruct (mem_op p (i :: incl_ops)); [apply insert_swap_nodes_reads | apply Hk; kept_step].
Qed.

Lemma graph_of_set_threshold z s : graph_of (set_swapout_threshold z s) = graph_of s.
Proof. reflexivity. Qed.

Lemma queue_kept closed_set next_ops : forall queue,
  (forall o, In o next_ops -> In o closed_set \/ In o queue) ->
  fold_left (fun q o => if mem_op o closed_set then q
                        else if mem_op o q then q else q ++ [o]) next_ops queue = queue.
Proof.
  induction next_ops as [|o r IH]; intros queue H; [reflexivity|]. cbn [fold_left].
  assert (E : (if mem_op o closed_set then queue
               else if mem_op o queue then queue else queue ++ [o]) = queue).
  { destruct (mem_op o closed_set) eqn:Ec; [reflexivity|].
    destruct (mem_op o queue) eqn:Eq; [reflexivity|].
    apply mem_op_false in Ec. apply mem_op_false in Eq.
    destruct (H o (or_introl eq_refl)); contradiction. }
  rewrite E. apply IH. intros o' Ho'. apply H. right; exact Ho'.
Qed.

Lemma one_pass_fanouts n0 src queue closed_set s o :
  one_pass n0 (src :: queue) closed_set s ->
  In o (py_set (fanouts_in (graph_of s) src)) -> In o closed_set \/ In o queue.
Proof.
  intros (Hnd & Hall & Hopen & Hlen & Hreads) Ho.
  apply (proj1 (In_py_set _ _)) in Ho. apply (proj1 (In_fanouts_in _ _ _)) in Ho.
  destruct Ho as [t [Hout Hin]].
  apply In_outputs in Hout. destruct (Hopen src (or_introl eq_refl)) as [Hsrc Hnc].
  destruct (Hreads o t Hin) as [Hnew Hold].
  destruct (le_lt_dec n0 o) as [Hge|Hlt].
  - destruct (Hnew Hge) as [Hc|Hc]; [rewrite Hout in Hc; contradiction | lia].
  - destruct (Hall o Hlt) as [[<-|Hq]|Hc]; [|right; exact Hq | left; exact Hc].
    destruct (Hold Hlt). exact Hout.
Qed.

Lemma one_pass_step n0 src queue closed_set s u s1 :
  one_pass n0 (src :: queue) closed_set s ->
  _do_action_visit src s = Ok (u, s1) ->
  one_pass n0 queue (op_add src closed_set) s1.
Proof.
  intros (Hnd & Hall & Hopen & Hlen & Hreads) Hv.
  destruct (do_action_visit_reads src n0 _ _ _ Hv Hlen) as [L N].
  inversion Hnd as [|? ? Hnot Hnd']; subst.
  split; [exact Hnd'|]. split; [|split; [|split; [lia|]]].
  - intros o Ho. destruct (Hall o Ho) as [[<-|Hq]|Hc].
    + right. apply In_op_add. left; reflexivity.
    + left; exact Hq.
    + right. apply In_op_add. right; exact Hc.
  - intros o Ho. destruct (Hopen o (or_intror Ho)) as [Hlt Hnc]. split; [exact Hlt|].
    intros Hc. apply In_op_add in Hc. destruct Hc as [->|Hc]; [exact (Hnot Ho) | exact (Hnc Hc)].
  - intros c t Ht. destruct (N c t Ht) as [Hold|[Hnew|[Hp Hc]]].
    + destruct (Hreads c t Hold) as [H1 H2]. split; [|exact H2].
      intros Hge. destruct (H1 Hge) as [Hc|Hc]; [left; apply In_op_add; right; exact Hc|].
      right; exact Hc.
    + split; [intros _; right; exact Hnew | intros Hlt; lia].
    + split; [|intros Hlt; lia]. intros _. left. apply In_op_add. left. exact Hp.
Qed.

Lemma do_action_while_one_pass n0 : forall open_set fuel closed_set s,
  one_pass n0 open_set closed_set s -> (List.length open_set <= fuel)%nat ->
  _do_action_while fuel open_set closed_set s = for_each open_set _do_action_visit s.
Proof.
  induction open_set as [|src queue IH]; intros fuel closed_set s Inv Hf.
  - destruct fuel; reflexivity.
  - destruct fuel as [|fuel]; [simpl in Hf; lia|].
    cbn [_do_action_while for_each].
    rewrite (bind_ok _ _ _ _ _ (fanouts_run src s)).
    rewrite queue_kept by (intros o Ho; exact (one_pass_fanouts _ _ _ _ _ _ Inv Ho)).
    apply bind_ext. intros u s1 Hv.
    apply IH; [exact (one_pass_step _ _ _ _ _ _ _ Inv Hv) | simpl in Hf; lia].
Qed.

Lemma do_action_one_pass (fuel : nat) (self : LMS) :
  no_self_loop (graph_of self) ->
  (List.length (graph_of self) <= fuel)%nat ->
  _do_action fuel (ge_make_list_of_op (graph_of self)) self
  = for_each (ge_make_list_of_op (graph_of self)) _do_action_visit self.
Proof.
  intros Hloop Hf. unfold _do_action.
  apply (do_action_while_one_pass (List.length (graph_of self))).
  - unfold ge_make_list_of_op. split; [apply seq_NoDup|].
    split; [intros o Ho; left; apply in_seq; lia|].
    split; [intros o Ho; apply in_seq in Ho; split; [lia | intros []]|].
    split; [lia|]. intros c t Ht. split.
    + intros Hge. apply In_inputs_valid in Ht. lia.
    + intros _. apply (Hloop c t Ht).
  - unfold ge_make_list_of_op. rewrite length_seq. exact Hf.
Qed.

(** X15. On a graph in which no operation reads itself, the traversal
    of all the operations is one pass: with at least as many rounds as
    the graph has operations, [_do_action] does for every operation of
    the graph, once and in the order of the list, what the body of its
    loop does for a dequeued operation.  The queue never grows: the
    swap nodes the pass creates are not visited, and the outcome does
    not depend on the bound on the rounds. *)
Theorem do_action_is_one_pass (fuel : nat) (self : LMS) :
  no_self_loop (graph_of self) ->
  (List.length (graph_of self) <= fuel)%nat ->
  _do_action fuel (ge_make_list_of_op (graph_of self)) self
  = for_each (ge_make_list_of_op (graph_of self)) _do_action_visit self.
Proof. apply do_action_one_pass. Qed.

Lemma do_action_is_one_pass_witness :
  _do_action 6 (ge_make_list_of_op two_readers_graph) two_readers_LMS
  = for_each (ge_make_list_of_op two_readers_graph) _do_action_visit two_readers_LMS.
Proof.
  apply (do_action_is_one_pass 6 two_readers_LMS).
  - intros c t Ht. pose proof (In_inputs_valid _ _ _ Ht) as Hc.
    change (List.length (graph_of two_readers_LMS)) with 6%nat in Hc.
    do 6 (destruct c as [|c]; [simpl in Ht; intuition (subst; discriminate)|]). lia.
  - apply Nat.le_refl.
Defined.

(** X16. The bound on the rounds of the loop is immaterial to [run]: on
    a graph in which no operation reads itself, every bound that is at
    least the number of operations of the graph gives the same outcome,
    be it a return or an exception. *)
Theorem run_needs_one_round_per_operation (fuel fuel' : nat) (graph : option Graph)
        (self : LMS) (g : Graph) :
  graph = Some g \/ (graph = None /\ _graph self = Some g) ->
  no_self_loop g ->
  (List.length g <= fuel)%nat -> (List.length g <= fuel')%nat ->
  run fuel graph self = run fuel' graph self.
Proof.
  intros Hsrc Hloop Hf Hf'.
  set (s_a := match graph with Some g => set_graph g self | None => self end).
  assert (Ha : (match graph with
                | Some g => modify (set_graph g)
                | None => ret tt
                end) self = Ok (tt, s_a)) by (destruct graph; reflexivity).
  assert (Eg : _graph s_a = Some g).
  { unfold s_a. destruct Hsrc as [->|[-> H]]; [reflexivity | exact H]. }
  assert (Ga : graph_of s_a = g) by (unfold graph_of; rewrite Eg; reflexivity).
  unfold run. rewrite !(bind_ok _ _ _ _ _ Ha), !bind_gets, Eg.
  clear Ha Eg. clearbody s_a.
  apply bind_ext. intros [] s1 H1. destruct (graph_kept_log_info _ _ _ _ _ H1) as [_ G1].
  apply bind_ext. intros [] s2 H2. destruct (graph_kept_log_info _ _ _ _ _ H2) as [_ G2].
  assert (G02 : graph_of s2 = g) by congruence. clear H1 H2 G1 G2 Ga s1 s_a.
  rewrite !bind_gets.
  apply bind_ext. intros excl_ops s3 H3.
  destruct (filter_scopes_and_types_inv _ _ _ _ _ _ H3) as (_ & -> & _). clear H3.
  rewrite !bind_modify, !bind_gets.
  apply bind_ext. intros incl_ops s4 H4.
  destruct (filter_scopes_and_types_inv _ _ _ _ _ _ H4) as (_ & -> & _). clear H4.
  rewrite !bind_modify.
  match goal with
  | |- bind _ _ ?s = _ => assert (G5 : graph_of s = g) by exact G02; generalize dependent s
  end.
  intros s5 G5.
  apply bind_ext. intros [] s6 H6. destruct (graph_kept_log_info _ _ _ _ _ H6) as [_ G6].
  apply bind_ext. intros [] s7 H7.
  assert (K7 : graph_kept s6 s7).
  { revert H7. apply (respects_for_each graph_kept graph_kept_refl graph_kept_trans).
    intros i. repeat kept_step. }
  destruct K7 as [_ G7]. rewrite !bind_gets.
  apply bind_ext. intros [] s8 H8.
  assert (G8 : graph_of s8 = graph_of s7).
  { destruct (_swapout_threshold s7 <? 0).
    - destruct (bind_inv _ _ _ _ _ H8) as ([] & s7' & Hl & Hm).
      destruct (graph_kept_log_info _ _ _ _ _ Hl) as [_ Gl].
      inversion Hm; subst s8. rewrite graph_of_set_threshold. exact Gl.
    - inversion H8; subst s8. reflexivity. }
  apply bind_ext. intros [] s9 H9.
  destruct (graph_kept_print_configuration _ _ _ H9) as [_ G9].
  assert (G09 : graph_of s9 = g) by congruence.
  apply bind_congr_l. rewrite <- G09 in Hloop, Hf, Hf' |- *.
  rewrite (do_action_one_pass fuel s9 Hloop Hf), (do_action_one_pass fuel' s9 Hloop Hf').
  reflexivity.
Qed.

Lemma run_needs_one_round_per_operation_witness :
  run 6 None two_readers_LMS = run 7 None two_readers_LMS.
Proof.
  apply (run_needs_one_round_per_operation 6 7 None two_readers_LMS two_readers_graph).
  - right. split; reflexivity.
  - intros c t Ht. pose proof (In_inputs_valid _ _ _ Ht) as Hc.
    change (List.length two_readers_graph) with 6%nat in Hc.
    do 6 (destruct c as [|c]; [simpl in Ht; intuition (subst; discriminate)|]). lia.
  - apply Nat.le_refl.
  - apply Nat.le_succ_diag_r.
Defined.

(** ** The asynchronous schedule returns *)

Lemma add_control_dependency_returns self t src_op dest_op swapin_op ahead :
  _topo_sort self = Some t -> cache_coherent self ->
  get_order t src_op <> None -> get_order t dest_op <> None ->
  exists self',
    _add_control_dependency src_op dest_op swapin_op ahead self = Ok (tt, self') /\
    _topo_sort self' = Some t /\ cache_coherent self'.
Proof.
  intros Ht Hc Hs Hd.
  assert (Hrun : exists self', _add_control_dependency src_op dest_op swapin_op ahead self
                               = Ok (tt, self')).
  { destruct (get_order t src_op) as [so|] eqn:Es; [|congruence].
    destruct (get_order t dest_op) as [d|] eqn:Ed; [|congruence].
    destruct (do_direct_order_run self t src_op dest_op ahead so d Ht Hc Es Ed)
      as (s1 & Hdo & Hco & _).
    pose proof (cache_only_topo _ _ Hco) as Ht1. rewrite Ht in Ht1.
    unfold _add_control_dependency. rewrite (bind_ok _ _ _ _ _ Hdo). clear Hdo.
    destruct (first_trigger (triggers_at (graph_of self) t dest_op)
                            (rev (py_range (so + 1) (d - ahead)))) as [[|ctrld_op l] i];
      cbn [fst snd].
    - rewrite bind_gets.
      destruct (log_info_run (InfoNoControlDependency (name (graph_of s1) src_op)) 1 s1)
        as (s3 & Hlog & _).
      exists s3. exact Hlog.
    - assert (Hadd : exists b s2, _add_control_inputs swapin_op ctrld_op s1 = Ok (b, s2) /\
                                  _topo_sort s2 = Some t).
      { destruct (add_control_inputs_cases swapin_op ctrld_op s1)
          as [[Hr _]|(g' & Hr & _)]; cbv zeta in Hr.
        - exists false, s1. split; [exact Hr | exact Ht1].
        - exists true, (set_graph g' s1). split; [exact Hr | exact Ht1]. }
      destruct Hadd as (b & s2 & Hadd & Ht2).
      rewrite (bind_ok _ _ _ _ _ Hadd), bind_gets.
      rewrite (bind_ok _ _ _ _ _ (get_order_run s2 t dest_op Ht2)).
      destruct (log_info_run (InfoControlDependency (name (graph_of s2) ctrld_op) i
                                (name (graph_of s2) dest_op) (get_order t dest_op)) 1 s2)
        as (s3 & Hlog & _).
      exists s3. exact Hlog. }
  destruct Hrun as (self' & Hrun). exists self'. split; [exact Hrun|]. split.
  - exact (keeps_topo _ _ _ _ _ (keeps_add_control_dependency _ _ _ _) Hrun Ht).
  - exact (cache_kept_add_control_dependency _ _ _ _ _ _ _ Hrun Hc).
Qed.

Lemma for_each_returns {A} (Inv : LMS -> Prop) (body : A -> M unit) (xs : list A) :
  (forall x s, In x xs -> Inv s -> exists s', body x s = Ok (tt, s') /\ Inv s') ->
  forall s, Inv s -> exists s', for_each xs body s = Ok (tt, s') /\ Inv s'.
Proof.
  induction xs as [|x r IH]; intros Hb s Hs.
  - exists s. split; [reflexivity | exact Hs].
  - destruct (Hb x s (or_introl eq_refl) Hs) as (s1 & H1 & Hs1).
    destruct (IH (fun y s0 Hy => Hb y s0 (or_intror Hy)) s1 Hs1) as (s2 & H2 & Hs2).
    exists s2. split; [|exact Hs2]. cbn [for_each]. rewrite (bind_ok _ _ _ _ _ H1). exact H2.
Qed.

(** X17. With the order built, the reachability cache in agreement with
    the graph and the producer and the anchor of every triple ranked,
    [_add_control_dependencies] returns: always when a look-ahead is
    given, and in auto mode when there is a triple at all.  The cache is
    still in agreement with the graph afterwards. *)
Theorem schedule_returns (self : LMS) (t : TOPOS) :
  _topo_sort self = Some t -> cache_coherent self ->
  Forall (triple_ranked t) (_ops_triples self) ->
  (_swapin_ahead self < 0 -> _ops_triples self <> []) ->
  exists self',
    _add_control_dependencies self = Ok (tt, self') /\
    _topo_sort self' = Some t /\ cache_coherent self'.
Proof.
  intros Ht Hc Hr Hne.
  set (Inv := fun s : LMS => _topo_sort s = Some t /\ cache_coherent s).
  rewrite Forall_forall in Hr.
  unfold _add_control_dependencies. rewrite bind_gets.
  destruct (_swapin_ahead self <? 0) eqn:Ea.
  - apply Z.ltb_lt in Ea.
    rewrite (sequential_strategy_schedule self t Ht (Hne Ea)).
    2:{ apply Forall_forall. intros tr Htr. apply (Hr tr Htr). }
    apply (for_each_returns Inv); [|split; assumption].
    intros [tr a] s Hin [Hts Hcs]. apply in_combine_l in Hin.
    apply In_sorted_by in Hin. apply in_rev in Hin.
    destruct (Hr tr Hin) as [Hp Hd]. unfold schedule_call. cbn [fst snd].
    apply add_control_dependency_returns; assumption.
  - rewrite bind_gets.
    apply (for_each_returns Inv); [|split; assumption].
    intros tr s Hin [Hts Hcs]. rewrite bind_gets.
    destruct (Hr tr Hin) as [Hp Hd].
    apply add_control_dependency_returns; assumption.
Qed.

Lemma schedule_returns_witness :
  exists self', _add_control_dependencies two_readers_swapped = Ok (tt, self').
Proof.
  destruct (schedule_returns two_readers_swapped two_readers_topos) as (self' & Hrun & _).
  - vm_compute. reflexivity.
  - intros o walk H. vm_compute in H. discriminate H.
  - destruct two_readers_triples as (Etr & _ & _). rewrite Etr.
    repeat constructor; vm_compute; discriminate.
  - intros _. destruct two_readers_triples as (Etr & _ & _). rewrite Etr. discriminate.
  - exists self'. exact Hrun.
Defined.

(** ** Swapping one tensor returns *)

Lemma py_head_returns {A} (xs : list A) x : In x xs -> exists y, py_head xs = Ok y.
Proof. destruct xs as [|a r]; [intros [] | intros _; exists a; reflexivity]. Qed.

Lemma ranked_order t o : ranked t o -> get_order t o = Some (rank_of t o).
Proof. unfold ranked, rank_of. destruct (get_order t o); [reflexivity | congruence]. Qed.

Lemma anchor_returns t band :
  band <> [] -> Forall (ranked t) band ->
  exists sorted x d,
    py_sorted_key (fun i => i) (map snd (map (fun o => (o, get_order t o)) band)) = Ok sorted /\
    py_head sorted = Ok x /\
    py_head (map fst (filter (fun p => py_eq (snd p) x)
                             (map (fun o => (o, get_order t o)) band))) = Ok d.
Proof.
  intros Hne Hr. rewrite (sorted_ranks_known t band Hr).
  destruct (sorted_by (fun z => z) (rev (map (rank_of t) band))) as [|z zs] eqn:Es.
  { apply (f_equal (@List.length Z)) in Es.
    rewrite length_sorted_by, length_rev, length_map in Es.
    destruct band; [congruence | discriminate]. }
  assert (Hz : In z (sorted_by (fun z => z) (rev (map (rank_of t) band)))).
  { rewrite Es. left; reflexivity. }
  apply In_sorted_ranks in Hz. destruct Hz as [o [Ho Hrank]].
  rewrite Forall_forall in Hr.
  destruct (py_head_returns
              (map fst (filter (fun p => py_eq (snd p) (Some z))
                               (map (fun o => (o, get_order t o)) band))) o) as [d Hd].
  { apply in_map_iff. exists (o, get_order t o). split; [reflexivity|].
    apply filter_In. split; [apply (in_map (fun o => (o, get_order t o))); exact Ho|].
    cbn [snd]. rewrite (ranked_order t o (Hr o Ho)), Hrank. simpl. apply Z.eqb_refl. }
  exists (map Some (z :: zs)), (Some z), d. repeat split. exact Hd.
Qed.

Lemma outputs_nth_error g g' o :
  nth_error g' o = nth_error g o -> outputs g' o = outputs g o.
Proof. unfold outputs. intros ->. reflexivity. Qed.

Lemma inputs_nth_error g g' o :
  nth_error g' o = nth_error g o -> inputs g' o = inputs g o.
Proof. unfold inputs. intros ->. reflexivity. Qed.

Lemma swapin_fold_returns t so ts targets : forall acc s r0 s0,
  acc s = Ok (r0, s0) ->
  _topo_sort s0 = Some t ->
  outputs (graph_of s0) so = [(so, 0%nat)] ->
  (forall band, In band targets ->
     band <> [] /\ NoDup band /\ ~ In so band /\
     forall d, In d band -> In ts (inputs (graph_of s0) d) /\ ranked t d) ->
  StronglySorted (fun b1 b2 : list op => forall d, In d b1 -> ~ In d b2) targets ->
  exists r s', fold_left (swapin_step so ts) targets acc s = Ok (r, s').
Proof.
  induction targets as [|band rest IH]; intros acc s r0 s0 Hacc Ht Hout Hbands Hdisj.
  - exists r0, s0. exact Hacc.
  - cbn [fold_left].
    destruct (Hbands band (or_introl eq_refl)) as (Hne & Hnd & Hso & Hband).
    destruct (add_swapin_run s0 t so band ts Ht Hout Hnd (fun d Hd => proj1 (Hband d Hd)))
      as (s1 & Hin & C1 & _ & _ & _ & _ & Hother & _). cbv zeta in Hin, Hother.
    assert (Ht1 : _topo_sort s1 = Some t).
    { rewrite (config_topo_sort _ _ C1). exact Ht. }
    destruct (anchor_returns t band Hne) as (sorted & x & d & Hs & Hx & Hd).
    { apply Forall_forall. intros o Ho. apply (Hband o Ho). }
    inversion Hdisj as [|? ? Hrest Hhead]; subst. rewrite Forall_forall in Hhead.
    apply (IH _ s (pair_add (d, List.length (graph_of s0)) r0) s1).
    + unfold swapin_step. rewrite (bind_ok _ _ _ _ _ Hacc), (bind_ok _ _ _ _ _ Hin).
      rewrite (bind_ok _ _ _ _ _ (keyed_run t (fun o => o) band s1 Ht1)).
      rewrite Hs, bind_lift_ok, Hx, bind_lift_ok, Hd, bind_lift_ok. reflexivity.
    + exact Ht1.
    + rewrite (outputs_nth_error (graph_of s0)); [exact Hout|].
      apply Hother; [|exact Hso].
      apply (In_outputs_valid (graph_of s0) so (so, 0%nat)). rewrite Hout. left; reflexivity.
    + intros band' Hb'. destruct (Hbands band' (or_intror Hb')) as (Hne' & Hnd' & Hso' & Hband').
      split; [exact Hne'|]. split; [exact Hnd'|]. split; [exact Hso'|].
      intros d' Hd'. destruct (Hband' d' Hd') as [Hread Hrk]. split; [|exact Hrk].
      rewrite (inputs_nth_error (graph_of s0)); [exact Hread|].
      apply Hother; [exact (In_inputs_valid _ _ _ Hread)|].
      intros Hdb. exact (Hhead band' Hb' d' Hdb Hd').
    + exact Hrest.
Qed.

Lemma insert_swap_nodes_for_ts_run (self : LMS) (t : TOPOS) (p : op) (ts : Tensor)
      (targets : list (list op)) :
  _topo_sort self = Some t ->
  In ts (outputs (graph_of self) p) ->
  (forall band, In band targets ->
     band <> [] /\ NoDup band /\
     forall d, In d band -> In ts (inputs (graph_of self) d) /\ ranked t d) ->
  StronglySorted (fun b1 b2 : list op => forall d, In d b1 -> ~ In d b2) targets ->
  exists r self', _insert_swap_nodes_for_ts p ts targets self = Ok (r, self').
Proof.
  intros Ht Hts Hbands Hdisj. rewrite insert_swap_nodes_for_ts_eq.
  set (g := graph_of self). set (so := List.length g).
  destruct (proj1 (add_swapout_run self p ts) Hts) as (s1 & Hout & G1 & _ & C1 & _).
  fold g in Hout, G1. fold so in Hout.
  assert (Ht1 : _topo_sort s1 = Some t).
  { rewrite (config_topo_sort _ _ C1). exact Ht. }
  assert (Hadd : exists b s2,
             _add_control_inputs so p s1 = Ok (b, s2) /\ _topo_sort s2 = Some t /\
             (forall c, outputs (graph_of s2) c = outputs (graph_of s1) c) /\
             (forall c, inputs (graph_of s2) c = inputs (graph_of s1) c)).
  { destruct (add_control_inputs_cases so p s1) as [[Hr _]|(g' & Hr & Hg & _)];
      cbv zeta in Hr.
    - exists false, s1. repeat split; [exact Hr | exact Ht1].
    - exists true, (set_graph g' s1). split; [exact Hr|]. split; [exact Ht1|].
      rewrite graph_of_set_graph. unfold ge_add_control_inputs in Hg.
      destruct (existsb _ [p]); [discriminate|]. inversion Hg; subst g'. clear Hg.
      split; intros c; [apply outputs_update_op | apply inputs_update_op]; reflexivity. }
  destruct Hadd as (b & s2 & Hadd & Ht2 & Ho2 & Hi2).
  destruct (swapin_fold_returns t so ts targets (ret []) s2 [] s2 eq_refl Ht2)
    as (r & s3 & Hfold).
  - rewrite Ho2, G1. unfold outputs, so. rewrite nth_error_last. reflexivity.
  - intros band Hb. destruct (Hbands band Hb) as (Hne & Hnd & Hband).
    split; [exact Hne|]. split; [exact Hnd|].
    assert (Hlt : forall d, In d band -> (d < so)%nat).
    { intros d Hd. apply (In_inputs_valid g d ts). apply (Hband d Hd). }
    split; [intros Hso; apply Hlt in Hso; lia|].
    intros d Hd. destruct (Hband d Hd) as [Hread Hrk]. split; [|exact Hrk].
    rewrite Hi2, G1, inputs_app by (apply Hlt; exact Hd). exact Hread.
  - exact Hdisj.
  - exists (so, r), s3.
    rewrite (bind_ok _ _ _ _ _ Hout), (bind_ok _ _ _ _ _ Hadd), (bind_ok _ _ _ _ _ Hfold).
    reflexivity.
Qed.

Lemma StronglySorted_weaken {A} (R R' : A -> A -> Prop) l :
  (forall a b, In a l -> In b l -> R a b -> R' a b) ->
  StronglySorted R l -> StronglySorted R' l.
Proof.
  intros H Hs. induction Hs as [|a l Hs IH Hall]; constructor.
  - apply IH. intros x y Hx Hy. apply H; right; assumption.
  - rewrite Forall_forall in *. intros y Hy. apply H; [left; reflexivity | right; exact Hy|].
    apply Hall. exact Hy.
Qed.

(** X18. Swapping one tensor returns.  For a tensor [ts] of [p] and a
    non-empty set of ranked consumers of [ts], on an object whose order
    is built and whose [swapin_groupby] is not negative, [_groupby]
    returns the bands and [_insert_swap_nodes_for_ts] returns on them:
    the bands are disjoint, so every consumer still reads [ts] when the
    swap-in operation of its band is wired.  With a negative
    [swapin_groupby] the call may fail instead: two consumers on one
    rank then form the same band twice, the second swap-in finds no
    reader of [ts] left, and [input_index] ends in AttributeError. *)
Theorem swap_of_tensor_returns :
  (forall (self : LMS) (t : TOPOS) (p : op) (ts : Tensor) (cands : list op),
      _topo_sort self = Some t ->
      In ts (outputs (graph_of self) p) ->
      cands <> [] ->
      (forall d, In d cands -> In ts (inputs (graph_of self) d) /\ ranked t d) ->
      0 <= _swapin_groupby self ->
      exists bands r self',
        _groupby cands (_swapin_groupby self) self = Ok (bands, self) /\
        _insert_swap_nodes_for_ts p ts bands self = Ok (r, self')) /\
  run_on 6 (LMS_groupby (-1)) = Raise AttributeError /\
  exists self', run_on 6 (LMS_groupby 0) = Ok self' /\
                _ops_triples self' = [(0%nat, 4%nat, 7%nat)].
Proof.
  split; [|split; [vm_compute; reflexivity|]].
  - intros self t p ts cands Ht Hts Hne Hc Hl.
    assert (Hr : Forall (ranked t) cands).
    { apply Forall_forall. intros d Hd. apply (Hc d Hd). }
    destruct (bands_props t cands (_swapin_groupby self) Hl Hne) as (Hcov & Hb & Hsep & _).
    destruct (insert_swap_nodes_for_ts_run self t p ts (bands t cands (_swapin_groupby self))
                Ht Hts) as (r & self' & Hrun).
    + intros band Hband. destruct (Hb band Hband) as (Hne' & Hnd & _).
      split; [exact Hne'|]. split; [exact Hnd|].
      intros d Hd. apply Hc. apply Hcov. exists band. split; assumption.
    + revert Hsep. apply StronglySorted_weaken.
      intros b1 b2 _ _ H d H1 H2. pose proof (H d d H1 H2). lia.
    + exists (bands t cands (_swapin_groupby self)), r, self'.
      split; [apply (groupby_run t cands _ self Ht Hne Hr) | exact Hrun].
  - destruct (run_on 6 (LMS_groupby 0)) as [self'|e] eqn:E; [|vm_compute in E; discriminate E].
    exists self'. split; [reflexivity|].
    vm_compute in E. inversion E. reflexivity.
Qed.

Lemma swap_of_tensor_returns_witness :
  exists bands r self',
    _groupby [4; 5]%nat 0 two_readers_LMS = Ok (bands, two_readers_LMS) /\
    _insert_swap_nodes_for_ts 0%nat (0%nat, 0%nat) bands two_readers_LMS = Ok (r, self').
Proof.
  apply (proj1 swap_of_tensor_returns two_readers_LMS two_readers_topos 0%nat
               (0%nat, 0%nat) [4; 5]%nat).
  - reflexivity.
  - vm_compute. left; reflexivity.
  - discriminate.
  - intros d [<-|[<-|[]]]; (split; [vm_compute; auto | vm_compute; discriminate]).
  - vm_compute. discriminate.
Defined.
